(** * Asteroid language server: lexer, symbol extractor, validator, providers

    A shallow embedding of [src/server.ts] and the properties of its
    tokenizer ([AsteroidLexer]), its flat symbol extractor
    ([AsteroidParser]), its diagnostics pass ([validateDocument]), the
    analysis that chains them ([analyzeDocument]) and its query providers
    ([onCompletion], [onHover], with the word resolution of
    [getWordRangeAtPosition]).

    JavaScript strings are sequences of UTF-16 code units; a code unit is a
    number of type [N] and a string is a list of them.  Source positions are
    non-negative integers ([nat]); the cursor offset a client sends is a
    [Z], since the code guards against a negative one.  A [while] loop is a
    function with fuel, [None] standing for "the fuel ran out", and the
    theorems show how much fuel is enough.  A [Map] is an association list
    in insertion order.

    The definitions come first: the code, then the notions that the
    statements use.  The properties follow, and the main results close the
    file. *)

From Stdlib Require Import String Ascii.
From Stdlib Require Import NArith ZArith Arith Bool Lia List.
Import ListNotations.

Set Implicit Arguments.

(** ** Strings *)

Definition char := N.
Definition jsstring := list char.

(** The code units of an ASCII literal. *)
Definition units (s : string) : jsstring :=
  List.map N_of_ascii (list_ascii_of_string s).

Definition char_eqb (a b : char) : bool := N.eqb a b.

Fixpoint str_eqb (a b : jsstring) : bool :=
  match a, b with
  | [], [] => true
  | x :: a', y :: b' => char_eqb x y && str_eqb a' b'
  | _, _ => false
  end.

(** [Array.prototype.includes] on an array of strings. *)
Definition includes (xs : list jsstring) (s : jsstring) : bool :=
  existsb (str_eqb s) xs.

(** [s.substr(from, len)]: at most [len] code units starting at [from]. *)
Definition substr (s : jsstring) (from len : nat) : jsstring :=
  firstn len (skipn from s).

(** [s.substring(a, b)] for [0 <= a <= b]. *)
Definition substring (s : jsstring) (a b : nat) : jsstring :=
  firstn (b - a) (skipn a s).

Definition NEWLINE : char := 10%N.
Definition DQUOTE : char := 34%N.
Definition SQUOTE : char := 39%N.
Definition PERCENT : char := 37%N.
Definition DOT : char := 46%N.
Definition AT_SIGN : char := 64%N.
Definition BACKSLASH : char := 92%N.
Definition UNDERSCORE : char := 95%N.

Definition in_range (lo hi : N) (c : char) : bool := N.leb lo c && N.leb c hi.

(** The class [\d] of a regular expression without the unicode flag. *)
Definition is_digit (c : char) : bool := in_range 48 57 c.

(** The class [\s]: the white space and line terminators of ECMAScript. *)
Definition is_space (c : char) : bool :=
  in_range 9 13 c || N.eqb c 32 || N.eqb c 160 || N.eqb c 5760
  || in_range 8192 8202 c || N.eqb c 8232 || N.eqb c 8233 || N.eqb c 8239
  || N.eqb c 8287 || N.eqb c 12288 || N.eqb c 65279.

(** [[a-zA-Z_]] *)
Definition is_ident_start (c : char) : bool :=
  in_range 97 122 c || in_range 65 90 c || N.eqb c UNDERSCORE.

(** [[a-zA-Z0-9_]] *)
Definition is_word (c : char) : bool :=
  in_range 97 122 c || in_range 65 90 c || in_range 48 57 c
  || N.eqb c UNDERSCORE.

(** [[\d.]] *)
Definition is_number_char (c : char) : bool := is_digit c || N.eqb c DOT.

(** ** Regular expressions, for the anchored pattern of the validator *)

Inductive regex : Type :=
| Void : regex
| Eps : regex
| Class : (char -> bool) -> regex
| Seq : regex -> regex -> regex
| Alt : regex -> regex -> regex
| Star : regex -> regex.

Definition Plus (r : regex) : regex := Seq r (Star r).
Definition Opt (r : regex) : regex := Alt r Eps.

Fixpoint nullable (r : regex) : bool :=
  match r with
  | Void => false
  | Eps => true
  | Class _ => false
  | Seq a b => nullable a && nullable b
  | Alt a b => nullable a || nullable b
  | Star _ => true
  end.

Fixpoint deriv (c : char) (r : regex) : regex :=
  match r with
  | Void => Void
  | Eps => Void
  | Class p => if p c then Eps else Void
  | Seq a b =>
      if nullable a then Alt (Seq (deriv c a) b) (deriv c b)
      else Seq (deriv c a) b
  | Alt a b => Alt (deriv c a) (deriv c b)
  | Star a => Seq (deriv c a) (Star a)
  end.

(** [/^r$/.test(s)]: the whole of [s] is in the language of [r]. *)
Fixpoint test_anchored (r : regex) (s : jsstring) : bool :=
  match s with
  | [] => nullable r
  | c :: s' => test_anchored (deriv c r) s'
  end.

(** ** Loops *)

(** [while (cond) body], run for at most [fuel] tests of the condition. *)
Fixpoint while (St : Type) (fuel : nat) (cond : St -> bool) (body : St -> St)
  (s : St) : option St :=
  match fuel with
  | O => None
  | S f => if cond s then while f cond body (body s) else Some s
  end.

Definition bind (A B : Type) (o : option A) (k : A -> option B) : option B :=
  match o with
  | Some a => k a
  | None => None
  end.

Notation "x <- c ;; k" := (bind c (fun x => k))
  (at level 61, c at next level, right associativity).
Notation "' p <- c ;; k" := (bind c (fun x => let 'p := x in k))
  (at level 61, p pattern, c at next level, right associativity).

(** ** Data model *)

Inductive TokenType : Type :=
| STRING | NUMBER | IDENTIFIER | KEYWORD | AT | OPERATOR | PUNCTUATION.

Definition TokenType_eqb (a b : TokenType) : bool :=
  match a, b with
  | STRING, STRING | NUMBER, NUMBER | IDENTIFIER, IDENTIFIER
  | KEYWORD, KEYWORD | AT, AT | OPERATOR, OPERATOR
  | PUNCTUATION, PUNCTUATION => true
  | _, _ => false
  end.

Module Token.
(** [{type, value, line, column, valid?}] *)
Record t : Type := mk {
  type : TokenType;
  value : jsstring;
  line : nat;
  column : nat;
  valid : option bool
}.
End Token.

Definition KEYWORDS : list jsstring := List.map units [
  "and"; "assert"; "break"; "catch"; "class"; "constructor"; "data"; "do";
  "elif"; "else"; "end"; "escape"; "eval"; "false"; "for"; "function";
  "global"; "if"; "in"; "is"; "lambda"; "let"; "load"; "loop"; "match";
  "module"; "none"; "nonlocal"; "not"; "or"; "return"; "step"; "struct";
  "system"; "throw"; "to"; "true"; "try"; "unload"; "until"; "while"; "with";
  "yield" ]%string.

Definition BUILTIN_FUNCTIONS : list jsstring := List.map units [
  "abs"; "all"; "any"; "apply"; "bool"; "call"; "chr"; "cmp"; "dict";
  "enumerate"; "filter"; "float"; "format"; "freeze"; "frozenset"; "hash";
  "help"; "id"; "int"; "isinstance"; "issubclass"; "iter"; "len"; "list";
  "map"; "max"; "min"; "ord"; "println"; "range"; "reduce"; "repr";
  "reverse"; "round"; "set"; "sorted"; "str"; "sum"; "tuple"; "type"; "zip"
  ]%string.

Definition SYSTEM_MODULES : list jsstring := List.map units [
  "io"; "math"; "os"; "random"; "string"; "time"; "util" ]%string.

(** ** The lexer *)

Module AsteroidLexer.

Record t : Type := mk {
  text : jsstring;
  pos : nat;
  line : nat;
  column : nat
}.

(** [new AsteroidLexer(text)] *)
Definition new (txt : jsstring) : t := mk txt 0 0 0.

(** [peek()]: [None] is the empty string returned past the end. *)
Definition peek (l : t) : option char :=
  if pos l <? length (text l) then nth_error (text l) (pos l) else None.

(** [this.peek() && p(this.peek())]: the empty string is falsy. *)
Definition peek_is (l : t) (p : char -> bool) : bool :=
  match peek l with
  | Some c => p c
  | None => false
  end.

(** [advance()]: a newline starts a line, any other code unit (and
    [undefined], past the end) is a column. *)
Definition advance (l : t) : t :=
  match nth_error (text l) (pos l) with
  | Some c =>
      if char_eqb c NEWLINE
      then mk (text l) (S (pos l)) (S (line l)) 0
      else mk (text l) (S (pos l)) (line l) (S (column l))
  | None => mk (text l) (S (pos l)) (line l) (S (column l))
  end.

(** [while (this.peek() && /\s/.test(this.peek())) this.advance()] *)
Definition skipWhitespace (fuel : nat) (l : t) : option t :=
  while fuel (fun l => peek_is l is_space) advance l.

(** From a [%], up to the newline or the end of the text; the newline is
    left. *)
Definition skipComment (fuel : nat) (l : t) : option t :=
  if peek_is l (char_eqb PERCENT)
  then while fuel (fun l => peek_is l (fun c => negb (char_eqb c NEWLINE)))
         advance l
  else Some l.

(** One turn of the loop of [readString]; the state is the lexer and the
    value read so far. *)
Definition readString_body (s : t * jsstring) : t * jsstring :=
  let (l, value) := s in
  if peek_is l (char_eqb BACKSLASH) then
    let l1 := advance l in
    match peek l1 with
    | Some c => (advance l1, value ++ [c])
    | None => (l1, value)
    end
  else
    match peek l with
    | Some c => (advance l, value ++ [c])
    | None => (advance l, value)
    end.

(** [readString()]: the value, the validity flag and the lexer after. *)
Definition readString (fuel : nat) (l : t) : option (jsstring * bool * t) :=
  let quote := peek l in
  let l0 := advance l in
  '(l1, value) <-
    while fuel
      (fun s => match peek (fst s), quote with
                | Some c, Some q => negb (char_eqb c q)
                | Some _, None => true
                | None, _ => false
                end)
      readString_body (l0, []) ;;
  match peek l1, quote with
  | Some c, Some q =>
      if char_eqb c q then Some (value, true, advance l1)
      else Some (value, false, l1)
  | None, None => Some (value, true, advance l1)
  | _, _ => Some (value, false, l1)
  end.

(** [value += this.peek(); this.advance()] *)
Definition read_body (s : t * jsstring) : t * jsstring :=
  let (l, value) := s in
  match peek l with
  | Some c => (advance l, value ++ [c])
  | None => (advance l, value)
  end.

(** [readNumber()]: the run of digits and dots. *)
Definition readNumber (fuel : nat) (l : t) : option (jsstring * t) :=
  '(l1, value) <-
    while fuel (fun s => peek_is (fst s) is_number_char) read_body (l, []) ;;
  Some (value, l1).

(** [readIdentifier()]: the run of [[a-zA-Z0-9_]]. *)
Definition readIdentifier (fuel : nat) (l : t) : option (jsstring * t) :=
  '(l1, value) <-
    while fuel (fun s => peek_is (fst s) is_word) read_body (l, []) ;;
  Some (value, l1).

Definition operators : list jsstring :=
  List.map units ["=="; "!="; "<="; ">="; "->"; "=>"]%string.

(** [for (let i = 0; i < n; i++) this.advance()] *)
Fixpoint advance_n (n : nat) (l : t) : t :=
  match n with
  | O => l
  | S k => advance_n k (advance l)
  end.

(** The [for (const op of operators)] loop: the first operator that is a
    prefix of the text at the current position. *)
Fixpoint match_operator (ops : list jsstring) (l : t) : option jsstring :=
  match ops with
  | [] => None
  | op :: rest =>
      if str_eqb (substr (text l) (pos l) (length op)) op then Some op
      else match_operator rest l
  end.

(** The part of the loop body of [tokenize] after the skips and the
    [break]: the token at the current position and the lexer after it. *)
Definition nextToken (fuel : nat) (l : t) : option (Token.t * t) :=
  let startLine := line l in
  let startColumn := column l in
  match peek l with
  | None =>
      (* [char] is the empty string: no test holds and it is pushed as
         punctuation. Not reached, the loop has left before. *)
      Some (Token.mk PUNCTUATION [] startLine startColumn None, advance l)
  | Some c =>
      if char_eqb c DQUOTE || char_eqb c SQUOTE then
        '(value, valid, l1) <- readString fuel l ;;
        Some (Token.mk STRING value startLine startColumn (Some valid), l1)
      else if is_digit c then
        '(value, l1) <- readNumber fuel l ;;
        Some (Token.mk NUMBER value startLine startColumn None, l1)
      else if is_ident_start c then
        '(value, l1) <- readIdentifier fuel l ;;
        let type := if includes KEYWORDS value then KEYWORD else IDENTIFIER in
        Some (Token.mk type value startLine startColumn None, l1)
      else if char_eqb c AT_SIGN then
        Some (Token.mk AT (units "@") startLine startColumn None, advance l)
      else
        match match_operator operators l with
        | Some op =>
            Some (Token.mk OPERATOR op startLine startColumn None,
                  advance_n (length op) l)
        | None =>
            Some (Token.mk PUNCTUATION [c] startLine startColumn None,
                  advance l)
        end
  end.

(** One iteration of the [while] of [tokenize], entered with
    [pos < text.length]: the lexer after it and the token pushed, if the
    iteration did not [break]. *)
Definition iteration (fuel : nat) (l : t) : option (t * option Token.t) :=
  l1 <- skipWhitespace fuel l ;;
  l2 <- skipComment fuel l1 ;;
  if length (text l2) <=? pos l2 then Some (l2, None)
  else
    '(tok, l3) <- nextToken fuel l2 ;;
    Some (l3, Some tok).

(** The [while (this.pos < this.text.length)] of [tokenize], for at most
    [n] tests of its condition. *)
Fixpoint tokenize_loop (fuel n : nat) (l : t) (tokens : list Token.t)
  : option (list Token.t) :=
  match n with
  | O => None
  | S k =>
      if pos l <? length (text l) then
        '(l1, pushed) <- iteration fuel l ;;
        match pushed with
        | None => Some tokens
        | Some tok => tokenize_loop fuel k l1 (tokens ++ [tok])
        end
      else Some tokens
  end.

(** [new AsteroidLexer(text).tokenize()] with [fuel] turns allowed to each
    loop. *)
Definition tokenize_fuel (fuel : nat) (txt : jsstring)
  : option (list Token.t) :=
  tokenize_loop fuel fuel (new txt) [].

(** The same with the fuel that the length of the text makes enough. *)
Definition tokenize (txt : jsstring) : option (list Token.t) :=
  tokenize_fuel (S (length txt)) txt.

End AsteroidLexer.

(** ** [Map<string, V>]

    A JavaScript [Map] iterates in insertion order, and [set] on a key that
    is present keeps the key's place: an association list, in insertion
    order, in which [set] replaces in place or appends. *)

Module JSMap.

Definition t (V : Type) : Type := list (jsstring * V).

Definition empty (V : Type) : t V := [].

Fixpoint get (V : Type) (k : jsstring) (m : t V) : option V :=
  match m with
  | [] => None
  | (k', v) :: m' => if str_eqb k' k then Some v else get k m'
  end.

Definition has (V : Type) (k : jsstring) (m : t V) : bool :=
  match get k m with
  | Some _ => true
  | None => false
  end.

Fixpoint set (V : Type) (k : jsstring) (v : V) (m : t V) : t V :=
  match m with
  | [] => [(k, v)]
  | (k', v') :: m' =>
      if str_eqb k' k then (k', v) :: m' else (k', v') :: set k v m'
  end.

Definition keys (V : Type) (m : t V) : list jsstring := List.map fst m.

(** The values in the order [forEach] visits them. *)
Definition values (V : Type) (m : t V) : list V := List.map snd m.

Definition size (V : Type) (m : t V) : nat := length m.

End JSMap.

(** ** Symbols and documents *)

Module Position.
Record t : Type := mk { line : nat; character : nat }.
End Position.

Module Range.
Record t : Type := mk { start : Position.t; end_ : Position.t }.
End Range.

(** The members of [SymbolKind] the server uses. *)
Inductive SymbolKind : Type :=
| SymbolKind_Function | SymbolKind_Variable | SymbolKind_Struct.

Module AsteroidSymbol.
Record t : Type := mk {
  name : jsstring;
  kind : SymbolKind;
  range : Range.t;
  selectionRange : Range.t;
  detail : option jsstring;
  type : option jsstring
}.
End AsteroidSymbol.

Module DocumentInfo.
Record t : Type := mk {
  symbols : JSMap.t AsteroidSymbol.t;
  imports : list jsstring;
  functions : JSMap.t AsteroidSymbol.t;
  variables : JSMap.t AsteroidSymbol.t
}.
End DocumentInfo.

(** ** The parser *)

Module AsteroidParser.

Record t : Type := mk {
  tokens : list Token.t;
  pos : nat
}.

(** [new AsteroidParser(tokens)] *)
Definition new (toks : list Token.t) : t := mk toks 0.

(** [peek()]: [None] is [null]. *)
Definition peek (p : t) : option Token.t :=
  if pos p <? length (tokens p) then nth_error (tokens p) (pos p) else None.

(** [advance()]: the token returned and the parser after. *)
Definition advance (p : t) : option Token.t * t :=
  if pos p <? length (tokens p)
  then (nth_error (tokens p) (pos p), mk (tokens p) (S (pos p)))
  else (None, p).

(** [tok.type === 'KEYWORD' && tok.value === kw] *)
Definition is_keyword (tok : Token.t) (kw : string) : bool :=
  TokenType_eqb (Token.type tok) KEYWORD
  && str_eqb (Token.value tok) (units kw).

(** [tok.type === 'IDENTIFIER'] *)
Definition is_identifier (tok : Token.t) : bool :=
  TokenType_eqb (Token.type tok) IDENTIFIER.

(** [parseLoad(info)]: the parser and the document after. *)
Definition parseLoad (p : t) (info : DocumentInfo.t)
  : t * DocumentInfo.t :=
  let (_, p1) := advance p in
  match peek p1 with
  | Some systemToken =>
      if is_keyword systemToken "system" then
        let (_, p2) := advance p1 in
        match peek p2 with
        | Some moduleToken =>
            if is_identifier moduleToken then
              (snd (advance p2),
               DocumentInfo.mk
                 (DocumentInfo.symbols info)
                 (DocumentInfo.imports info ++ [Token.value moduleToken])
                 (DocumentInfo.functions info)
                 (DocumentInfo.variables info))
            else (p2, info)
        | None => (p2, info)
        end
      else (p1, info)
  | None => (p1, info)
  end.

(** The handlers of declarations read [startToken.line]; [None] is the
    [TypeError] of reading it from [null]. *)
Definition parseFunction (p : t) (info : DocumentInfo.t)
  : option (t * DocumentInfo.t) :=
  let (startToken, p1) := advance p in
  match peek p1 with
  | Some nameToken =>
      if is_identifier nameToken then
        let name := Token.value nameToken in
        let p2 := snd (advance p1) in
        match startToken with
        | None => None
        | Some startToken =>
            let range :=
              Range.mk
                (Position.mk (Token.line startToken)
                   (Token.column startToken))
                (Position.mk (Token.line nameToken)
                   (Token.column nameToken + length name)) in
            let symbol :=
              AsteroidSymbol.mk name SymbolKind_Function range range None
                (Some (units "function")) in
            Some (p2,
                  DocumentInfo.mk
                    (JSMap.set name symbol (DocumentInfo.symbols info))
                    (DocumentInfo.imports info)
                    (JSMap.set name symbol (DocumentInfo.functions info))
                    (DocumentInfo.variables info))
        end
      else Some (p1, info)
  | None => Some (p1, info)
  end.

Definition parseVariable (p : t) (info : DocumentInfo.t)
  : option (t * DocumentInfo.t) :=
  let (startToken, p1) := advance p in
  match peek p1 with
  | Some nameToken =>
      if is_identifier nameToken then
        let name := Token.value nameToken in
        let p2 := snd (advance p1) in
        match startToken with
        | None => None
        | Some startToken =>
            let range :=
              Range.mk
                (Position.mk (Token.line startToken)
                   (Token.column startToken))
                (Position.mk (Token.line nameToken)
                   (Token.column nameToken + length name)) in
            let symbol :=
              AsteroidSymbol.mk name SymbolKind_Variable range range None
                (Some (units "variable")) in
            Some (p2,
                  DocumentInfo.mk
                    (JSMap.set name symbol (DocumentInfo.symbols info))
                    (DocumentInfo.imports info)
                    (DocumentInfo.functions info)
                    (JSMap.set name symbol (DocumentInfo.variables info)))
        end
      else Some (p1, info)
  | None => Some (p1, info)
  end.

Definition parseStruct (p : t) (info : DocumentInfo.t)
  : option (t * DocumentInfo.t) :=
  let (startToken, p1) := advance p in
  match peek p1 with
  | Some nameToken =>
      if is_identifier nameToken then
        let name := Token.value nameToken in
        let p2 := snd (advance p1) in
        match startToken with
        | None => None
        | Some startToken =>
            let range :=
              Range.mk
                (Position.mk (Token.line startToken)
                   (Token.column startToken))
                (Position.mk (Token.line nameToken)
                   (Token.column nameToken + length name)) in
            let symbol :=
              AsteroidSymbol.mk name SymbolKind_Struct range range None
                (Some (Token.value startToken)) in
            Some (p2,
                  DocumentInfo.mk
                    (JSMap.set name symbol (DocumentInfo.symbols info))
                    (DocumentInfo.imports info)
                    (DocumentInfo.functions info)
                    (DocumentInfo.variables info))
        end
      else Some (p1, info)
  | None => Some (p1, info)
  end.

(** The body of the loop of [parse] at a token: the [switch]. *)
Definition dispatch (token : Token.t) (p : t) (info : DocumentInfo.t)
  : option (t * DocumentInfo.t) :=
  if TokenType_eqb (Token.type token) KEYWORD then
    if str_eqb (Token.value token) (units "load")
    then Some (parseLoad p info)
    else if str_eqb (Token.value token) (units "function")
    then parseFunction p info
    else if str_eqb (Token.value token) (units "let")
    then parseVariable p info
    else if str_eqb (Token.value token) (units "struct")
            || str_eqb (Token.value token) (units "data")
    then parseStruct p info
    else Some (snd (advance p), info)
  else Some (snd (advance p), info).

Definition empty_info : DocumentInfo.t :=
  DocumentInfo.mk (JSMap.empty _) [] (JSMap.empty _) (JSMap.empty _).

(** The loop of [parse], for at most [n] tests of its condition. [None]:
    the fuel ran out, or a handler threw. *)
Fixpoint parse_loop (n : nat) (p : t) (info : DocumentInfo.t)
  : option DocumentInfo.t :=
  match n with
  | O => None
  | S k =>
      if pos p <? length (tokens p) then
        match peek p with
        | None => Some info
        | Some token =>
            '(p', info') <- dispatch token p info ;;
            parse_loop k p' info'
        end
      else Some info
  end.

Definition parse_fuel (n : nat) (toks : list Token.t)
  : option DocumentInfo.t :=
  parse_loop n (new toks) empty_info.

(** [new AsteroidParser(tokens).parse()] *)
Definition parse (toks : list Token.t) : option DocumentInfo.t :=
  parse_fuel (S (length toks)) toks.

End AsteroidParser.

(** ** Diagnostics *)

Inductive DiagnosticSeverity : Type :=
| Severity_Error | Severity_Warning | Severity_Information | Severity_Hint.

Module Diagnostic.
Record t : Type := mk {
  severity : DiagnosticSeverity;
  range : Range.t;
  message : jsstring;
  source : jsstring
}.
End Diagnostic.

(** The pattern [\d+\.?\d*] of [validateDocument], tested between [^] and
    [$]. *)
Definition number_pattern : regex :=
  Seq (Plus (Class is_digit))
    (Seq (Opt (Class (char_eqb DOT))) (Star (Class is_digit))).

Definition unterminated_string (token : Token.t) : Diagnostic.t :=
  Diagnostic.mk Severity_Error
    (Range.mk
       (Position.mk (Token.line token) (Token.column token))
       (Position.mk (Token.line token)
          (Token.column token + length (Token.value token) + 1)))
    (units "Unterminated string literal")
    (units "asteroid-lsp").

Definition invalid_number (token : Token.t) : Diagnostic.t :=
  Diagnostic.mk Severity_Error
    (Range.mk
       (Position.mk (Token.line token) (Token.column token))
       (Position.mk (Token.line token)
          (Token.column token + length (Token.value token))))
    (units "Invalid number format")
    (units "asteroid-lsp").

Definition is_unterminated (token : Token.t) : bool :=
  TokenType_eqb (Token.type token) STRING
  && match Token.valid token with
     | Some false => true
     | _ => false
     end.

Definition is_invalid_number (token : Token.t) : bool :=
  TokenType_eqb (Token.type token) NUMBER
  && negb (test_anchored number_pattern (Token.value token)).

(** The [for] loop of [validateDocument] over the tokens from index [i] on,
    [diagnostics] being the array pushed to. *)
Fixpoint validate_loop (tokens : list Token.t) (diagnostics : list Diagnostic.t)
  : list Diagnostic.t :=
  match tokens with
  | [] => diagnostics
  | token :: rest =>
      let d1 :=
        if is_unterminated token
        then diagnostics ++ [unterminated_string token]
        else diagnostics in
      let d2 :=
        if is_invalid_number token
        then d1 ++ [invalid_number token]
        else d1 in
      validate_loop rest d2
  end.

Definition validateDocument (tokens : list Token.t) : list Diagnostic.t :=
  validate_loop tokens [].

(** ** Completion *)

(** The members of [CompletionItemKind] the server uses. *)
Inductive CompletionItemKind : Type :=
| CompletionItemKind_Keyword
| CompletionItemKind_Function
| CompletionItemKind_Module
| CompletionItemKind_Variable
| CompletionItemKind_Class.

Module CompletionItem.
Record t : Type := mk {
  label : jsstring;
  kind : CompletionItemKind;
  detail : jsstring
}.
End CompletionItem.

Module TextDocumentPositionParams.
(** [{textDocument: {uri}, position: {line, character}}]. Both numbers
    are unsigned in the protocol; [character] is a [Z] because the code
    tests its sign. *)
Record t : Type := mk {
  uri : jsstring;
  line : nat;
  character : Z
}.
End TextDocumentPositionParams.

(** An optional string inside a template literal. *)
Definition interpolate (s : option jsstring) : jsstring :=
  match s with
  | Some v => v
  | None => units "undefined"
  end.

Definition keyword_item (keyword : jsstring) : CompletionItem.t :=
  CompletionItem.mk keyword CompletionItemKind_Keyword
    (units "Asteroid keyword: " ++ keyword).

Definition builtin_item (func : jsstring) : CompletionItem.t :=
  CompletionItem.mk func CompletionItemKind_Function
    (units "Built-in function: " ++ func).

Definition module_item (module : jsstring) : CompletionItem.t :=
  CompletionItem.mk module CompletionItemKind_Module
    (units "System module: " ++ module).

Definition symbol_item (symbol : AsteroidSymbol.t) : CompletionItem.t :=
  CompletionItem.mk (AsteroidSymbol.name symbol)
    (match AsteroidSymbol.kind symbol with
     | SymbolKind_Function => CompletionItemKind_Function
     | SymbolKind_Variable => CompletionItemKind_Variable
     | _ => CompletionItemKind_Class
     end)
    (interpolate (AsteroidSymbol.type symbol) ++ units ": "
       ++ AsteroidSymbol.name symbol).

(** [xs.forEach(x => completions.push(f(x)))] *)
Fixpoint push_each (A : Type) (f : A -> CompletionItem.t) (xs : list A)
  (completions : list CompletionItem.t) : list CompletionItem.t :=
  match xs with
  | [] => completions
  | x :: rest => push_each f rest (completions ++ [f x])
  end.

(** The handler of [connection.onCompletion], as a function of the store
    [documentInfos] and of the request. *)
Definition onCompletion (documentInfos : JSMap.t DocumentInfo.t)
  (params : TextDocumentPositionParams.t) : list CompletionItem.t :=
  let completions := [] in
  let completions := push_each keyword_item KEYWORDS completions in
  let completions := push_each builtin_item BUILTIN_FUNCTIONS completions in
  let completions := push_each module_item SYSTEM_MODULES completions in
  let uri := TextDocumentPositionParams.uri params in
  match JSMap.get uri documentInfos with
  | Some docInfo =>
      push_each symbol_item (JSMap.values (DocumentInfo.symbols docInfo))
        completions
  | None => completions
  end.

(** ** Word resolution *)

(** [s[i]] for a number [i]: [None] is [undefined]. *)
Definition char_at (s : jsstring) (i : Z) : option char :=
  if (i <? 0)%Z then None else nth_error s (Z.to_nat i).

Definition test_word (c : option char) : bool :=
  match c with
  | Some c => is_word c
  | None => false
  end.

Module WordRange.
Record t : Type := mk { start : Z; end_ : Z }.
End WordRange.

Definition len (s : jsstring) : Z := Z.of_nat (length s).

(** [getWordRangeAtPosition(line, character)] with [fuel] turns allowed to
    each loop; the outer [None] is "out of fuel", the inner one
    [undefined]. *)
Definition getWordRangeAtPosition_fuel (fuel : nat) (line : jsstring)
  (character : Z) : option (option WordRange.t) :=
  if ((character <? 0) || (len line <=? character))%Z then Some None
  else
    start <-
      while fuel
        (fun start => (0 <? start)%Z && test_word (char_at line (start - 1)))
        (fun start => (start - 1)%Z) character ;;
    end_ <-
      while fuel
        (fun end_ => (end_ <? len line)%Z && test_word (char_at line end_))
        (fun end_ => (end_ + 1)%Z) character ;;
    if (start =? end_)%Z then Some None
    else Some (Some (WordRange.mk start end_)).

Definition getWordRangeAtPosition (line : jsstring) (character : Z)
  : option (option WordRange.t) :=
  getWordRangeAtPosition_fuel (S (length line)) line character.

(** [s.split('\n')] *)
Fixpoint split_lines (s : jsstring) (current : jsstring) : list jsstring :=
  match s with
  | [] => [current]
  | c :: rest =>
      if char_eqb c NEWLINE then current :: split_lines rest []
      else split_lines rest (current ++ [c])
  end.

(** The word that [onHover] and [onDefinition] look up: the line of the
    cursor, its word range and the substring in that range. The outer
    [None] is "out of fuel", the inner one the [undefined] both handlers
    return without a word. *)
Definition word_at_cursor (text : jsstring) (line : nat) (character : Z)
  : option (option jsstring) :=
  let lines := split_lines text [] in
  if length lines <=? line then Some None
  else
    match nth_error lines line with
    | None => Some None
    | Some l =>
        wordRange <- getWordRangeAtPosition l character ;;
        match wordRange with
        | None => Some None
        | Some r =>
            Some (Some (substring l (Z.to_nat (WordRange.start r))
                          (Z.to_nat (WordRange.end_ r))))
        end
    end.

(** ** Hover *)

Module Hover.
(** [{contents: {kind: 'markdown', value}, range}] *)
Record t : Type := mk {
  value : jsstring;
  range : Range.t
}.
End Hover.

(** The handler of [connection.onHover], as a function of the open
    documents (the text of each), of the store [documentInfos] and of the
    request. The outer [None] is "out of fuel", the inner one
    [undefined]. *)
Definition onHover (documents : JSMap.t jsstring)
  (documentInfos : JSMap.t DocumentInfo.t)
  (params : TextDocumentPositionParams.t) : option (option Hover.t) :=
  let uri := TextDocumentPositionParams.uri params in
  let position_line := TextDocumentPositionParams.line params in
  match JSMap.get uri documents with
  | None => Some None
  | Some text =>
      let lines := split_lines text [] in
      if length lines <=? position_line then Some None
      else
        match nth_error lines position_line with
        | None => Some None
        | Some line =>
            wordRange <-
              getWordRangeAtPosition line
                (TextDocumentPositionParams.character params) ;;
            match wordRange with
            | None => Some None
            | Some wordRange =>
                let start := Z.to_nat (WordRange.start wordRange) in
                let end_ := Z.to_nat (WordRange.end_ wordRange) in
                let word := substring line start end_ in
                let range :=
                  Range.mk (Position.mk position_line start)
                    (Position.mk position_line end_) in
                if includes KEYWORDS word then
                  Some (Some (Hover.mk
                                (units "**" ++ word
                                   ++ units "** - Asteroid keyword")
                                range))
                else if includes BUILTIN_FUNCTIONS word then
                  Some (Some (Hover.mk
                                (units "**" ++ word
                                   ++ units "()** - Built-in function")
                                range))
                else
                  match JSMap.get uri documentInfos with
                  | Some docInfo =>
                      match JSMap.get word (DocumentInfo.symbols docInfo) with
                      | Some symbol =>
                          Some (Some (Hover.mk
                                        (units "**"
                                           ++ AsteroidSymbol.name symbol
                                           ++ units "** - "
                                           ++ interpolate
                                                (AsteroidSymbol.type symbol))
                                        range))
                      | None => Some None
                      end
                  | None => Some None
                  end
            end
        end
  end.

(** ** Notions used to state the properties of the lexer *)

Module LexerSpec.
Import AsteroidLexer.

(** [l] reads [txt] and stands between [p0] and the end of it. *)
Definition within (txt : jsstring) (p0 : nat) (l : t) : Prop :=
  text l = txt /\ p0 <= pos l <= length txt.

Definition remaining (l : t) : nat := length (text l) - pos l.

(** A step that moves forward inside the text. *)
Definition forward (s s' : t * jsstring) : Prop :=
  text (fst s') = text (fst s)
  /\ pos (fst s) < pos (fst s') <= length (text (fst s)).

(** The condition of the loop of [readString]. *)
Definition string_cond (quote : option char) (s : t * jsstring) : bool :=
  match peek (fst s), quote with
  | Some c, Some q => negb (char_eqb c q)
  | Some _, None => true
  | None, _ => false
  end.

Definition class_cond (p : char -> bool) (s : t * jsstring) : bool :=
  peek_is (fst s) p.

(** [readNumber] and [readIdentifier] are the same loop over a class. *)
Definition read_class (p : char -> bool) (f : nat) (l : t)
  : option (jsstring * t) :=
  bind (while f (class_cond p) read_body (l, []))
    (fun x => let '(l1, value) := x in Some (value, l1)).

(** What the description of the string scan calls a matching unescaped
    quote: the offset in [rest] of the first code unit equal to [q] that
    is not the code unit after a backslash. *)
Fixpoint unescaped_quote (q : char) (rest : jsstring) : option nat :=
  match rest with
  | [] => None
  | c :: r =>
      if char_eqb c q then Some 0
      else if char_eqb c BACKSLASH then
        match r with
        | [] => None
        | _ :: r' => option_map (fun k => S (S k)) (unescaped_quote q r')
        end
      else option_map S (unescaped_quote q r)
  end.

(** The same, where the end of a line also ends the search, as the
    description of the scan has it. *)
Fixpoint unescaped_quote_on_line (q : char) (rest : jsstring) : option nat :=
  match rest with
  | [] => None
  | c :: r =>
      if char_eqb c q then Some 0
      else if char_eqb c NEWLINE then None
      else if char_eqb c BACKSLASH then
        match r with
        | [] => None
        | _ :: r' =>
            option_map (fun k => S (S k)) (unescaped_quote_on_line q r')
        end
      else option_map S (unescaped_quote_on_line q r)
  end.

End LexerSpec.


(** ** Notions used to state the properties of the parser *)

Module ParserSpec.
Import AsteroidParser.

(** The tokens from the current position on. *)
Definition suffix (p : t) : list Token.t := skipn (pos p) (tokens p).

Definition declaration_range (startToken nameToken : Token.t) : Range.t :=
  Range.mk
    (Position.mk (Token.line startToken) (Token.column startToken))
    (Position.mk (Token.line nameToken)
       (Token.column nameToken + length (Token.value nameToken))).

(** The Symbol that the description gives to a keyword token and the token
    immediately after it: for [function], [let], [struct] or [data]
    followed by an Identifier, a Function, Variable or Struct symbol of the
    identifier's name, its display type ["function"], ["variable"] or the
    keyword's own text, its range from the keyword to the end of the
    identifier. *)
Definition declared (startToken : Token.t) (next : option Token.t)
  : option AsteroidSymbol.t :=
  match next with
  | Some nameToken =>
      if is_identifier nameToken then
        let name := Token.value nameToken in
        let range := declaration_range startToken nameToken in
        if is_keyword startToken "function" then
          Some (AsteroidSymbol.mk name SymbolKind_Function range range None
                  (Some (units "function")))
        else if is_keyword startToken "let" then
          Some (AsteroidSymbol.mk name SymbolKind_Variable range range None
                  (Some (units "variable")))
        else if is_keyword startToken "struct"
                || is_keyword startToken "data" then
          Some (AsteroidSymbol.mk name SymbolKind_Struct range range None
                  (Some (Token.value startToken)))
        else None
      else None
  | None => None
  end.

(** The declarations of a token sequence, in order. *)
Fixpoint declarations (toks : list Token.t) : list AsteroidSymbol.t :=
  match toks with
  | [] => []
  | tok :: rest =>
      match declared tok (hd_error rest) with
      | Some symbol => symbol :: declarations rest
      | None => declarations rest
      end
  end.

(** The module named by [load system <name>] at the head of [tok :: rest]. *)
Definition loaded (tok : Token.t) (rest : list Token.t) : option jsstring :=
  if is_keyword tok "load" then
    match rest with
    | systemToken :: moduleToken :: _ =>
        if is_keyword systemToken "system" && is_identifier moduleToken
        then Some (Token.value moduleToken)
        else None
    | _ => None
    end
  else None.

(** The modules loaded by a token sequence, in order. *)
Fixpoint loads (toks : list Token.t) : list jsstring :=
  match toks with
  | [] => []
  | tok :: rest =>
      match loaded tok rest with
      | Some module => module :: loads rest
      | None => loads rest
      end
  end.

(** [m.set(symbol.name, symbol)] *)
Definition record (m : JSMap.t AsteroidSymbol.t) (symbol : AsteroidSymbol.t)
  : JSMap.t AsteroidSymbol.t :=
  JSMap.set (AsteroidSymbol.name symbol) symbol m.

Definition is_function (symbol : AsteroidSymbol.t) : bool :=
  match AsteroidSymbol.kind symbol with
  | SymbolKind_Function => true
  | _ => false
  end.

Definition is_variable (symbol : AsteroidSymbol.t) : bool :=
  match AsteroidSymbol.kind symbol with
  | SymbolKind_Variable => true
  | _ => false
  end.

(** The document that the declarations and loads of [toks] make of
    [info]. *)
Definition extend (toks : list Token.t) (info : DocumentInfo.t)
  : DocumentInfo.t :=
  DocumentInfo.mk
    (fold_left record (declarations toks) (DocumentInfo.symbols info))
    (DocumentInfo.imports info ++ loads toks)
    (fold_left record (filter is_function (declarations toks))
       (DocumentInfo.functions info))
    (fold_left record (filter is_variable (declarations toks))
       (DocumentInfo.variables info)).

(** The last declaration of [name] among [decls]. *)
Definition last_declared (name : jsstring) (decls : list AsteroidSymbol.t)
  : option AsteroidSymbol.t :=
  find (fun symbol => str_eqb (AsteroidSymbol.name symbol) name) (rev decls).

(** A token that starts neither a declaration nor a load. *)
Definition inert (tok : Token.t) : Prop :=
  (forall next, declared tok next = None)
  /\ (forall rest, loaded tok rest = None).

(** The main table after the token at the head of [toks] is handled. *)
Definition stored (toks : list Token.t) (m : JSMap.t AsteroidSymbol.t)
  : JSMap.t AsteroidSymbol.t :=
  match toks with
  | tok :: rest =>
      match declared tok (hd_error rest) with
      | Some symbol => record m symbol
      | None => m
      end
  | [] => m
  end.

(** What a handler leaves: the same tokens, a shorter suffix, a document
    that the rest of the tokens extends as the whole extended the
    document before, and a main table with the declaration at the head,
    if there is one. *)
Definition handled (p : t) (info : DocumentInfo.t)
  (r : option (t * DocumentInfo.t)) : Prop :=
  exists p' info',
    r = Some (p', info')
    /\ tokens p' = tokens p
    /\ length (suffix p') < length (suffix p)
    /\ extend (suffix p') info' = extend (suffix p) info
    /\ DocumentInfo.symbols info' = stored (suffix p) (DocumentInfo.symbols info).

(** A keyword token that introduces a Symbol. *)
Definition declaration_keyword (tok : Token.t) : Prop :=
  Token.type tok = KEYWORD
  /\ In (Token.value tok)
       (List.map units ["function"; "let"; "struct"; "data"]%string).

(** The tokens at [i] and [i + 1] are a declaration keyword and an
    Identifier of text [name]. *)
Definition declares (toks : list Token.t) (i : nat) (name : jsstring)
  : Prop :=
  exists kw nm,
    nth_error toks i = Some kw /\ nth_error toks (S i) = Some nm
    /\ declaration_keyword kw
    /\ Token.type nm = IDENTIFIER /\ Token.value nm = name.

End ParserSpec.

(** ** Notions used to state the properties of the validator *)

Module RegexSpec.

(** The strings a regular expression matches as a whole. *)
Inductive lang : regex -> jsstring -> Prop :=
| lang_Eps : lang Eps []
| lang_Class : forall (p : char -> bool) (c : char),
    p c = true -> lang (Class p) [c]
| lang_Seq : forall (a b : regex) (s t : jsstring),
    lang a s -> lang b t -> lang (Seq a b) (s ++ t)
| lang_Alt_l : forall (a b : regex) (s : jsstring),
    lang a s -> lang (Alt a b) s
| lang_Alt_r : forall (a b : regex) (s : jsstring),
    lang b s -> lang (Alt a b) s
| lang_Star_nil : forall (a : regex), lang (Star a) []
| lang_Star_app : forall (a : regex) (s t : jsstring),
    lang a s -> lang (Star a) t -> lang (Star a) (s ++ t).

(** A run of digits, possibly empty. *)
Definition all_digits (s : jsstring) : Prop := forallb is_digit s = true.

(** [digits '.'? digits*]: what the pattern of the validator accepts. *)
Definition loose_number (v : jsstring) : Prop :=
  exists ds fs,
    ds <> [] /\ all_digits ds /\ all_digits fs
    /\ (v = ds \/ v = ds ++ DOT :: fs).

(** [digits ('.' digits)?]: the strict pattern of the description. *)
Definition strict_number (v : jsstring) : Prop :=
  exists ds fs,
    ds <> [] /\ all_digits ds /\ all_digits fs
    /\ (v = ds \/ (fs <> [] /\ v = ds ++ DOT :: fs)).

(** The strict pattern as a regular expression: [\d+(\.\d+)?]. *)
Definition strict_number_pattern : regex :=
  Seq (Plus (Class is_digit))
    (Opt (Seq (Class (char_eqb DOT)) (Plus (Class is_digit)))).

(** A diagnostic that carries the message of the number check. *)
Definition is_number_diagnostic (d : Diagnostic.t) : bool :=
  str_eqb (Diagnostic.message d) (units "Invalid number format").

End RegexSpec.

(** ** Analysis of a document *)

(** [analyzeDocument]: the store with the document's new entry, and the
    diagnostics sent. *)
Definition analyzeDocument (documentInfos : JSMap.t DocumentInfo.t)
  (uri : jsstring) (text : jsstring)
  : option (JSMap.t DocumentInfo.t * list Diagnostic.t) :=
  tokens <- AsteroidLexer.tokenize text ;;
  info <- AsteroidParser.parse tokens ;;
  Some (JSMap.set uri info documentInfos, validateDocument tokens).

(** ** Definition and outline *)

Module Location.
(** [{uri, range}] *)
Record t : Type := mk {
  uri : jsstring;
  range : Range.t
}.
End Location.

(** The handler of [connection.onDefinition], as [onHover] is modelled:
    the outer [None] is "out of fuel", the inner one [undefined]. *)
Definition onDefinition (documents : JSMap.t jsstring)
  (documentInfos : JSMap.t DocumentInfo.t)
  (params : TextDocumentPositionParams.t) : option (option Location.t) :=
  let uri := TextDocumentPositionParams.uri params in
  let position_line := TextDocumentPositionParams.line params in
  match JSMap.get uri documents with
  | None => Some None
  | Some text =>
      let lines := split_lines text [] in
      if length lines <=? position_line then Some None
      else
        match nth_error lines position_line with
        | None => Some None
        | Some line =>
            wordRange <-
              getWordRangeAtPosition line
                (TextDocumentPositionParams.character params) ;;
            match wordRange with
            | None => Some None
            | Some wordRange =>
                let word :=
                  substring line (Z.to_nat (WordRange.start wordRange))
                    (Z.to_nat (WordRange.end_ wordRange)) in
                match JSMap.get uri documentInfos with
                | Some docInfo =>
                    match JSMap.get word (DocumentInfo.symbols docInfo) with
                    | Some symbol =>
                        Some (Some (Location.mk uri
                                      (AsteroidSymbol.range symbol)))
                    | None => Some None
                    end
                | None => Some None
                end
            end
        end
  end.

Module DocumentSymbol.
(** [{name, kind, range, selectionRange, detail}] *)
Record t : Type := mk {
  name : jsstring;
  kind : SymbolKind;
  range : Range.t;
  selectionRange : Range.t;
  detail : option jsstring
}.
End DocumentSymbol.

Definition outline_item (symbol : AsteroidSymbol.t) : DocumentSymbol.t :=
  DocumentSymbol.mk (AsteroidSymbol.name symbol) (AsteroidSymbol.kind symbol)
    (AsteroidSymbol.range symbol) (AsteroidSymbol.selectionRange symbol)
    (AsteroidSymbol.detail symbol).

(** [docInfo.symbols.forEach(symbol => symbols.push({...}))] *)
Fixpoint push_outline (values : list AsteroidSymbol.t)
  (symbols : list DocumentSymbol.t) : list DocumentSymbol.t :=
  match values with
  | [] => symbols
  | symbol :: rest => push_outline rest (symbols ++ [outline_item symbol])
  end.

(** The handler of [connection.onDocumentSymbol]. *)
Definition onDocumentSymbol (documentInfos : JSMap.t DocumentInfo.t)
  (uri : jsstring) : list DocumentSymbol.t :=
  match JSMap.get uri documentInfos with
  | None => []
  | Some docInfo =>
      push_outline (JSMap.values (DocumentInfo.symbols docInfo)) []
  end.

(** ** Notions used to state further properties *)

Module PositionSpec.
Import AsteroidLexer.

Definition count_newlines (s : jsstring) : nat :=
  length (filter (char_eqb NEWLINE) s).

(** [(line, column)] is the position of the offset [p] of [txt]: [line]
    newlines stand before [p], and [column] code units, none of them a
    newline, stand between [p] and the newline before it, or the start of
    the text. *)
Definition position_of (txt : jsstring) (p line column : nat) : Prop :=
  line = count_newlines (firstn p txt)
  /\ column <= p
  /\ (forall i, p - column <= i < p -> nth_error txt i <> Some NEWLINE)
  /\ (column = p \/ nth_error txt (p - column - 1) = Some NEWLINE).

(** The line and the column of the lexer are those of its offset. *)
Definition located (l : t) : Prop :=
  position_of (text l) (pos l) (line l) (column l).

(** The token [tok] stands at the offset [p] of [txt]: its line and column
    are those of [p], and the text at [p] is the token's text, or the
    opening quote of a String token. *)
Definition token_at (txt : jsstring) (tok : Token.t) (p : nat) : Prop :=
  p < length txt
  /\ position_of txt p (Token.line tok) (Token.column tok)
  /\ match Token.type tok with
     | STRING =>
         nth_error txt p = Some DQUOTE \/ nth_error txt p = Some SQUOTE
     | _ =>
         Token.value tok <> []
         /\ substr txt p (length (Token.value tok)) = Token.value tok
     end.

End PositionSpec.

Module TokenSpec.

(** What the tokenizer makes of each kind of token. *)
Definition token_shape (tok : Token.t) : Prop :=
  match Token.type tok with
  | STRING => exists valid, Token.valid tok = Some valid
  | NUMBER =>
      Token.valid tok = None
      /\ exists d rest,
           Token.value tok = d :: rest /\ is_digit d = true
           /\ forallb is_number_char rest = true
  | IDENTIFIER =>
      Token.valid tok = None
      /\ includes KEYWORDS (Token.value tok) = false
      /\ exists c rest,
           Token.value tok = c :: rest /\ is_ident_start c = true
           /\ forallb is_word rest = true
  | KEYWORD =>
      Token.valid tok = None /\ includes KEYWORDS (Token.value tok) = true
  | AT => Token.valid tok = None /\ Token.value tok = units "@"
  | OPERATOR =>
      Token.valid tok = None
      /\ In (Token.value tok) AsteroidLexer.operators
  | PUNCTUATION =>
      Token.valid tok = None
      /\ exists c,
           Token.value tok = [c]
           /\ c <> DQUOTE /\ c <> SQUOTE /\ c <> AT_SIGN /\ c <> PERCENT
           /\ is_digit c = false /\ is_ident_start c = false
           /\ (is_space c = true -> c = NEWLINE)
  end.

(** The content of a string literal: the code units after the opening
    quote [q] up to the first unescaped [q], each backslash dropped and the
    code unit after it kept as it is. *)
Fixpoint unescape (q : char) (rest : jsstring) : jsstring :=
  match rest with
  | [] => []
  | c :: r =>
      if char_eqb c q then []
      else if char_eqb c BACKSLASH then
        match r with
        | [] => []
        | c2 :: r' => c2 :: unescape q r'
        end
      else c :: unescape q r
  end.

End TokenSpec.

Module ValidateSpec.

(** The number of dots of a string. *)
Definition dots (v : jsstring) : nat := length (filter (char_eqb DOT) v).

(** A diagnostic that carries the message of the string check. *)
Definition is_string_diagnostic (d : Diagnostic.t) : bool :=
  str_eqb (Diagnostic.message d) (units "Unterminated string literal").

(** A diagnostic of the validator about the token [tok]: an Error of the
    server, on the token's line, from the token's column on. *)
Definition diagnostic_of (tok : Token.t) (d : Diagnostic.t) : Prop :=
  Diagnostic.severity d = Severity_Error
  /\ Diagnostic.source d = units "asteroid-lsp"
  /\ Range.start (Diagnostic.range d)
     = Position.mk (Token.line tok) (Token.column tok)
  /\ Position.line (Range.end_ (Diagnostic.range d)) = Token.line tok
  /\ Token.column tok + length (Token.value tok)
     <= Position.character (Range.end_ (Diagnostic.range d))
     <= Token.column tok + length (Token.value tok) + 1.

End ValidateSpec.

Module TableSpec.

(** A Symbol as the handlers build it: one range for both uses, no detail,
    and the display type of its kind. *)
Definition symbol_ok (symbol : AsteroidSymbol.t) : Prop :=
  AsteroidSymbol.selectionRange symbol = AsteroidSymbol.range symbol
  /\ AsteroidSymbol.detail symbol = None
  /\ match AsteroidSymbol.kind symbol with
     | SymbolKind_Function =>
         AsteroidSymbol.type symbol = Some (units "function")
     | SymbolKind_Variable =>
         AsteroidSymbol.type symbol = Some (units "variable")
     | SymbolKind_Struct =>
         AsteroidSymbol.type symbol = Some (units "struct")
         \/ AsteroidSymbol.type symbol = Some (units "data")
     end.

(** The tokens at [i], [i + 1] and [i + 2] are [load], [system] and an
    Identifier of text [module]. *)
Definition loads_at (toks : list Token.t) (i : nat) (module : jsstring)
  : Prop :=
  exists loadToken systemToken moduleToken,
    nth_error toks i = Some loadToken
    /\ nth_error toks (S i) = Some systemToken
    /\ nth_error toks (S (S i)) = Some moduleToken
    /\ AsteroidParser.is_keyword loadToken "load" = true
    /\ AsteroidParser.is_keyword systemToken "system" = true
    /\ Token.type moduleToken = IDENTIFIER
    /\ Token.value moduleToken = module.

(** A name that the tokenizer can give to an Identifier token. *)
Definition identifier_name (name : jsstring) : Prop :=
  includes KEYWORDS name = false
  /\ exists c rest,
       name = c :: rest /\ is_ident_start c = true
       /\ forallb is_word rest = true.

End TableSpec.

Module LookupSpec.

(** The display type of the Symbol that a declaration keyword introduces. *)
Definition display_type (kw : Token.t) : jsstring :=
  if AsteroidParser.is_keyword kw "function" then units "function"
  else if AsteroidParser.is_keyword kw "let" then units "variable"
  else Token.value kw.

(** The tokens [kw] and [nm] at [i] and [i + 1] are the last declaration of
    [name]: a declaration keyword and an Identifier of that text, and no
    later pair of tokens declares the name. *)
Definition last_declares (toks : list Token.t) (i : nat) (kw nm : Token.t)
  (name : jsstring) : Prop :=
  nth_error toks i = Some kw /\ nth_error toks (S i) = Some nm
  /\ ParserSpec.declaration_keyword kw
  /\ Token.type nm = IDENTIFIER /\ Token.value nm = name
  /\ forall j, i < j -> ~ ParserSpec.declares toks j name.

End LookupSpec.

Module CursorSpec.

(** The token [tok] stands at the offset [p] of [txt] as a word: it stands
    there, its text is word code units only, and the code unit after it, if
    there is one, is no word code unit. *)
Definition word_token_at (txt : jsstring) (tok : Token.t) (p : nat) : Prop :=
  PositionSpec.token_at txt tok p
  /\ forallb is_word (Token.value tok) = true
  /\ test_word (nth_error txt (p + length (Token.value tok))) = false.

End CursorSpec.

Module HoverSpec.

(** What [onHover] answers once it has the [word] between the columns
    [start] and [end_] of the line [line]: its three checks in their order,
    the reserved words, the builtins, then the table of the document
    [uri], each over the range of the word; [None] is [undefined]. *)
Definition describe (documentInfos : JSMap.t DocumentInfo.t)
  (uri word : jsstring) (line start end_ : nat) : option Hover.t :=
  let range :=
    Range.mk (Position.mk line start) (Position.mk line end_) in
  if includes KEYWORDS word then
    Some (Hover.mk (units "**" ++ word ++ units "** - Asteroid keyword")
            range)
  else if includes BUILTIN_FUNCTIONS word then
    Some (Hover.mk (units "**" ++ word ++ units "()** - Built-in function")
            range)
  else
    match JSMap.get uri documentInfos with
    | Some docInfo =>
        match JSMap.get word (DocumentInfo.symbols docInfo) with
        | Some symbol =>
            Some (Hover.mk
                    (units "**" ++ AsteroidSymbol.name symbol
                       ++ units "** - "
                       ++ interpolate (AsteroidSymbol.type symbol))
                    range)
        | None => None
        end
    | None => None
    end.

End HoverSpec.
(** * Properties *)

(** ** Strings and loops *)

Unset Implicit Arguments.

Lemma str_eqb_spec (a b : jsstring) : str_eqb a b = true <-> a = b.
Proof.
  revert b; induction a as [|x a IH]; intros [|y b]; simpl;
    try (split; intro H; (discriminate || reflexivity)).
  unfold char_eqb; rewrite andb_true_iff, N.eqb_eq, IH.
  split; [intros [-> ->]; reflexivity | intros H; inversion H; auto].
Qed.

Lemma str_eqb_refl (a : jsstring) : str_eqb a a = true.
Proof. apply str_eqb_spec; reflexivity. Qed.

Lemma str_eqb_neq (a b : jsstring) : a <> b -> str_eqb a b = false.
Proof.
  intros H; destruct (str_eqb a b) eqn:E; auto.
  apply str_eqb_spec in E; contradiction.
Qed.

Lemma str_eqb_sym (a b : jsstring) : str_eqb a b = str_eqb b a.
Proof.
  destruct (str_eqb b a) eqn:E.
  - apply str_eqb_spec in E; subst; apply str_eqb_refl.
  - apply str_eqb_neq; intros ->; rewrite str_eqb_refl in E; discriminate.
Qed.

Section WhileFacts.
Variable St : Type.
Variable cond : St -> bool.
Variable body : St -> St.

Lemma while_mono (f f' : nat) (s r : St) :
  while f cond body s = Some r -> f <= f' -> while f' cond body s = Some r.
Proof.
  revert f' s; induction f as [|f IH]; simpl; intros f' s H Hle;
    [discriminate|].
  destruct f' as [|f']; [lia|]; simpl.
  destruct (cond s); auto.
  apply IH; [assumption | lia].
Qed.

Variable Inv : St -> Prop.
Hypothesis Inv_body : forall s, Inv s -> cond s = true -> Inv (body s).

Lemma while_inv (f : nat) (s r : St) :
  Inv s -> while f cond body s = Some r -> Inv r /\ cond r = false.
Proof.
  revert s; induction f as [|f IH]; simpl; intros s Hs H; [discriminate|].
  destruct (cond s) eqn:C.
  - apply IH with (s := body s); auto.
  - inversion H; subst; auto.
Qed.

Variable measure : St -> nat.
Hypothesis measure_body :
  forall s, Inv s -> cond s = true -> measure (body s) < measure s.

Lemma while_total (f : nat) (s : St) :
  Inv s -> measure s < f -> exists r, while f cond body s = Some r.
Proof.
  revert s; induction f as [|f IH]; simpl; intros s Hs Hm; [lia|].
  destruct (cond s) eqn:C; [|eauto].
  apply IH; auto.
  specialize (measure_body s Hs C); lia.
Qed.
End WhileFacts.

(** ** The lexer always advances *)

Module LexerFacts.
Import AsteroidLexer LexerSpec.

Lemma peek_Some (l : t) (c : char) :
  peek l = Some c ->
  pos l < length (text l) /\ nth_error (text l) (pos l) = Some c.
Proof.
  unfold peek; destruct (pos l <? length (text l)) eqn:E; [|discriminate].
  apply Nat.ltb_lt in E; auto.
Qed.

Lemma peek_None (l : t) : peek l = None <-> length (text l) <= pos l.
Proof.
  unfold peek; destruct (pos l <? length (text l)) eqn:E.
  - apply Nat.ltb_lt in E; split; [|lia].
    intros H; apply nth_error_None in H; lia.
  - apply Nat.ltb_ge in E; tauto.
Qed.

Lemma peek_lt (l : t) :
  pos l < length (text l) -> exists c, peek l = Some c.
Proof.
  intros H; destruct (peek l) eqn:E; eauto.
  apply peek_None in E; lia.
Qed.

Lemma peek_is_lt (l : t) (p : char -> bool) :
  peek_is l p = true -> pos l < length (text l).
Proof.
  unfold peek_is; destruct (peek l) eqn:E; [|discriminate].
  intros _; apply peek_Some in E; tauto.
Qed.

Lemma advance_pos (l : t) : pos (advance l) = S (pos l).
Proof.
  unfold advance; destruct (nth_error (text l) (pos l)) as [c|];
    [destruct (char_eqb c NEWLINE)|]; reflexivity.
Qed.

Lemma advance_text (l : t) : text (advance l) = text l.
Proof.
  unfold advance; destruct (nth_error (text l) (pos l)) as [c|];
    [destruct (char_eqb c NEWLINE)|]; reflexivity.
Qed.

Lemma within_advance (txt : jsstring) (p0 : nat) (l : t) :
  within txt p0 l -> pos l < length (text l) ->
  within txt (S p0) (advance l).
Proof.
  unfold within; rewrite advance_pos, advance_text.
  intros [<- H] Hlt; split; [reflexivity | lia].
Qed.

Lemma within_weaken (txt : jsstring) (p0 p1 : nat) (l : t) :
  within txt p1 l -> p0 <= p1 -> within txt p0 l.
Proof. unfold within; intros [? ?] ?; split; [assumption | lia]. Qed.

Lemma within_refl (l : t) :
  pos l <= length (text l) -> within (text l) (pos l) l.
Proof. unfold within; intros; split; [reflexivity | lia]. Qed.

Lemma within_remaining (txt : jsstring) (p0 : nat) (l : t) :
  within txt p0 l -> remaining l <= length txt - p0.
Proof. unfold within, remaining; intros [-> ?]; lia. Qed.

(** A loop whose body is [advance], under a condition that holds only
    before the end of the text. *)
Section AdvanceLoop.
Variable cond : t -> bool.
Hypothesis cond_lt : forall l, cond l = true -> pos l < length (text l).

Lemma advance_loop_within (txt : jsstring) (p0 f : nat) (l r : t) :
  within txt p0 l -> while f cond advance l = Some r -> within txt p0 r.
Proof.
  intros Hl H.
  apply (while_inv _ _ _ (within txt p0)) in H; [tauto | | assumption].
  intros s Hs C; eapply within_weaken;
    [apply within_advance; eauto | lia].
Qed.

Lemma advance_loop_total (txt : jsstring) (p0 f : nat) (l : t) :
  within txt p0 l -> length txt - p0 < f ->
  exists r, while f cond advance l = Some r.
Proof.
  intros Hl Hf.
  apply (while_total _ _ _ (within txt p0)) with (measure := remaining).
  - intros s Hs C; eapply within_weaken;
      [apply within_advance; eauto | lia].
  - intros s Hs C; apply cond_lt in C; unfold remaining.
    rewrite advance_pos, advance_text; lia.
  - assumption.
  - apply within_remaining in Hl; lia.
Qed.
End AdvanceLoop.

Lemma skipWhitespace_within (txt : jsstring) (p0 f : nat) (l r : t) :
  within txt p0 l -> skipWhitespace f l = Some r -> within txt p0 r.
Proof.
  apply advance_loop_within; intros s; apply peek_is_lt.
Qed.

Lemma skipWhitespace_total (txt : jsstring) (p0 f : nat) (l : t) :
  within txt p0 l -> length txt - p0 < f ->
  exists r, skipWhitespace f l = Some r.
Proof.
  apply advance_loop_total; intros s; apply peek_is_lt.
Qed.

Lemma skipComment_within (txt : jsstring) (p0 f : nat) (l r : t) :
  within txt p0 l -> skipComment f l = Some r -> within txt p0 r.
Proof.
  unfold skipComment; destruct (peek_is l (char_eqb PERCENT)).
  - apply advance_loop_within; intros s; apply peek_is_lt.
  - intros H E; inversion E; subst; assumption.
Qed.

Lemma skipComment_total (txt : jsstring) (p0 f : nat) (l : t) :
  within txt p0 l -> length txt - p0 < f ->
  exists r, skipComment f l = Some r.
Proof.
  unfold skipComment; destruct (peek_is l (char_eqb PERCENT)).
  - apply advance_loop_total; intros s; apply peek_is_lt.
  - eauto.
Qed.
End LexerFacts.

Module ReaderFacts.
Import AsteroidLexer LexerSpec LexerFacts.

Lemma readString_body_forward (s : t * jsstring) :
  pos (fst s) < length (text (fst s)) -> forward s (readString_body s).
Proof.
  destruct s as [l v]; unfold forward, readString_body; simpl; intros Hlt.
  destruct (peek_is l (char_eqb BACKSLASH)).
  - destruct (peek (advance l)) as [c|] eqn:E; simpl.
    + apply peek_Some in E; destruct E as [E _].
      rewrite !advance_pos, !advance_text in *; split; [reflexivity | lia].
    + rewrite advance_pos, advance_text; split; [reflexivity | lia].
  - destruct (peek l); simpl; rewrite advance_pos, advance_text;
      (split; [reflexivity | lia]).
Qed.

Lemma read_body_forward (s : t * jsstring) :
  pos (fst s) < length (text (fst s)) -> forward s (read_body s).
Proof.
  destruct s as [l v]; unfold forward, read_body; simpl; intros Hlt.
  destruct (peek l); simpl; rewrite advance_pos, advance_text;
    (split; [reflexivity | lia]).
Qed.

Section ReaderLoop.
Variable cond : t * jsstring -> bool.
Variable body : t * jsstring -> t * jsstring.
Hypothesis cond_lt :
  forall s, cond s = true -> pos (fst s) < length (text (fst s)).
Hypothesis body_forward :
  forall s, pos (fst s) < length (text (fst s)) -> forward s (body s).

Lemma within_body (txt : jsstring) (p0 : nat) (s : t * jsstring) :
  within txt p0 (fst s) -> cond s = true ->
  within txt (S p0) (fst (body s)).
Proof.
  unfold within; intros [<- H] C.
  destruct (body_forward s (cond_lt s C)) as [-> ?].
  split; [reflexivity | lia].
Qed.

Lemma reader_loop_within (txt : jsstring) (p0 f : nat)
  (s r : t * jsstring) :
  within txt p0 (fst s) -> while f cond body s = Some r ->
  within txt p0 (fst r).
Proof.
  intros Hs H.
  apply (while_inv _ _ _ (fun s => within txt p0 (fst s))) in H;
    [tauto | | assumption].
  intros s0 H0 C; eapply within_weaken;
    [apply within_body; eauto | lia].
Qed.

Lemma reader_loop_total (txt : jsstring) (p0 f : nat) (s : t * jsstring) :
  within txt p0 (fst s) -> length txt - p0 < f ->
  exists r, while f cond body s = Some r.
Proof.
  intros Hs Hf.
  apply (while_total _ _ _ (fun s => within txt p0 (fst s)))
    with (measure := fun s => remaining (fst s)).
  - intros s0 H0 C; eapply within_weaken;
      [apply within_body; eauto | lia].
  - intros s0 H0 C; unfold remaining.
    destruct (body_forward s0 (cond_lt s0 C)) as [-> ?]; lia.
  - assumption.
  - apply within_remaining in Hs; lia.
Qed.

(** When the condition holds at the start, the loop has moved. *)
Lemma reader_loop_moves (txt : jsstring) (p0 f : nat)
  (s r : t * jsstring) :
  within txt p0 (fst s) -> cond s = true ->
  while f cond body s = Some r -> within txt (S p0) (fst r).
Proof.
  intros Hs C H; destruct f as [|f]; simpl in H; [discriminate|].
  rewrite C in H.
  eapply reader_loop_within; [|eassumption].
  apply within_body; assumption.
Qed.
End ReaderLoop.

Lemma string_cond_lt (quote : option char) (s : t * jsstring) :
  string_cond quote s = true -> pos (fst s) < length (text (fst s)).
Proof.
  unfold string_cond; destruct (peek (fst s)) eqn:E; [|discriminate].
  intros _; apply peek_Some in E; tauto.
Qed.

Lemma readString_unfold (f : nat) (l : t) :
  readString f l =
  bind (while f (string_cond (peek l)) readString_body (advance l, []))
    (fun x =>
       let '(l1, value) := x in
       match peek l1, peek l with
       | Some c, Some q =>
           if char_eqb c q then Some (value, true, advance l1)
           else Some (value, false, l1)
       | None, None => Some (value, true, advance l1)
       | _, _ => Some (value, false, l1)
       end).
Proof. reflexivity. Qed.

Lemma readString_within (txt : jsstring) (p0 f : nat) (l : t)
  (value : jsstring) (valid : bool) (r : t) :
  within txt p0 l -> pos l < length (text l) ->
  readString f l = Some (value, valid, r) -> within txt (S p0) r.
Proof.
  intros Hl Hlt; rewrite readString_unfold.
  destruct (while f _ _ _) as [[l1 v]|] eqn:W; simpl; [|discriminate].
  apply reader_loop_within with (txt := txt) (p0 := S p0) in W;
    [ | apply string_cond_lt | apply readString_body_forward
      | apply within_advance; assumption ].
  simpl in W.
  destruct (peek l1) as [c|] eqn:P1, (peek l) as [q|] eqn:P0.
  - destruct (char_eqb c q); intros E; inversion E; subst; auto.
    apply peek_Some in P1.
    eapply within_weaken; [apply within_advance; [eassumption | tauto] | lia].
  - intros E; inversion E; subst; auto.
  - intros E; inversion E; subst; auto.
  - apply peek_None in P0; lia.
Qed.

Lemma readString_total (txt : jsstring) (p0 f : nat) (l : t) :
  within txt p0 l -> pos l < length (text l) -> length txt - p0 <= f ->
  exists r, readString f l = Some r.
Proof.
  intros Hl Hlt Hf; rewrite readString_unfold.
  destruct (reader_loop_total (string_cond (peek l)) readString_body
              (string_cond_lt _) readString_body_forward txt (S p0) f
              (advance l, [])) as [[l1 v] W].
  - apply within_advance; assumption.
  - destruct Hl as [<- ?]; lia.
  - rewrite W; simpl.
    destruct (peek l1) as [c|], (peek l) as [q|];
      [destruct (char_eqb c q)| | |]; eauto.
Qed.

Lemma class_cond_lt (p : char -> bool) (s : t * jsstring) :
  class_cond p s = true -> pos (fst s) < length (text (fst s)).
Proof. apply peek_is_lt. Qed.

Lemma readNumber_class : readNumber = read_class is_number_char.
Proof. reflexivity. Qed.

Lemma readIdentifier_class : readIdentifier = read_class is_word.
Proof. reflexivity. Qed.

Lemma read_class_within (p : char -> bool) (txt : jsstring) (p0 f : nat)
  (l : t) (value : jsstring) (r : t) :
  within txt p0 l -> peek_is l p = true ->
  read_class p f l = Some (value, r) -> within txt (S p0) r.
Proof.
  intros Hl C; unfold read_class.
  destruct (while f _ _ _) as [[l1 v]|] eqn:W; simpl; [|discriminate].
  intros E; inversion E; subst.
  apply reader_loop_moves with (txt := txt) (p0 := p0) in W; auto.
  - apply class_cond_lt.
  - apply read_body_forward.
Qed.

Lemma read_class_total (p : char -> bool) (txt : jsstring) (p0 f : nat)
  (l : t) :
  within txt p0 l -> length txt - p0 < f ->
  exists r, read_class p f l = Some r.
Proof.
  intros Hl Hf; unfold read_class.
  destruct (reader_loop_total (class_cond p) read_body (class_cond_lt p)
              read_body_forward txt p0 f (l, [])) as [[l1 v] W]; auto.
  rewrite W; simpl; eauto.
Qed.
End ReaderFacts.

Lemma bind_Some (A B : Type) (o : option A) (k : A -> option B) (r : B) :
  bind o k = Some r <-> exists a, o = Some a /\ k a = Some r.
Proof.
  destruct o as [a|]; simpl; split.
  - eauto.
  - intros [a' [E H]]; inversion E; subst; assumption.
  - discriminate.
  - intros [a' [E _]]; discriminate.
Qed.

Lemma bind_mono (A B : Type) (o o' : option A) (k k' : A -> option B) (r : B) :
  (forall a, o = Some a -> o' = Some a) ->
  (forall a b, k a = Some b -> k' a = Some b) ->
  bind o k = Some r -> bind o' k' = Some r.
Proof.
  intros Ho Hk H; apply bind_Some in H; destruct H as [a [E H]].
  rewrite (Ho a E); simpl; auto.
Qed.

Module TokenizeFacts.
Import AsteroidLexer LexerSpec LexerFacts ReaderFacts.

Lemma is_ident_start_word (c : char) :
  is_ident_start c = true -> is_word c = true.
Proof.
  unfold is_ident_start, is_word; intros H.
  repeat (apply orb_true_iff in H; destruct H as [H|H]);
    rewrite H; repeat rewrite orb_true_r; reflexivity.
Qed.

Lemma is_digit_number_char (c : char) :
  is_digit c = true -> is_number_char c = true.
Proof. unfold is_number_char; intros ->; reflexivity. Qed.

Lemma advance_n_pos (n : nat) (l : t) : pos (advance_n n l) = n + pos l.
Proof.
  revert l; induction n as [|n IH]; intros l; simpl; [reflexivity|].
  rewrite IH, advance_pos; lia.
Qed.

Lemma advance_n_text (n : nat) (l : t) : text (advance_n n l) = text l.
Proof.
  revert l; induction n as [|n IH]; intros l; simpl; [reflexivity|].
  rewrite IH, advance_text; reflexivity.
Qed.

Lemma match_operator_Some (ops : list jsstring) (l : t) (op : jsstring) :
  match_operator ops l = Some op ->
  In op ops /\ substr (text l) (pos l) (length op) = op.
Proof.
  induction ops as [|o ops IH]; simpl; [discriminate|].
  destruct (str_eqb (substr (text l) (pos l) (length o)) o) eqn:E.
  - intros H; inversion H; subst; apply str_eqb_spec in E; auto.
  - intros H; destruct (IH H); auto.
Qed.

Lemma operator_fits (l : t) (op : jsstring) :
  match_operator operators l = Some op ->
  length op = 2 /\ pos l + 2 <= length (text l).
Proof.
  intros H; apply match_operator_Some in H; destruct H as [Hin Hs].
  assert (L : length op = 2).
  { unfold operators in Hin; simpl in Hin.
    repeat (destruct Hin as [<-|Hin]; [reflexivity|]); contradiction. }
  split; [assumption|].
  rewrite L in Hs; unfold substr in Hs.
  assert (L' : length (firstn 2 (skipn (pos l) (text l))) = 2)
    by (rewrite Hs; assumption).
  rewrite length_firstn, length_skipn in L'; lia.
Qed.

Lemma nextToken_within (txt : jsstring) (p0 f : nat) (l r : t)
  (tok : Token.t) :
  within txt p0 l -> pos l < length (text l) ->
  nextToken f l = Some (tok, r) -> within txt (S p0) r.
Proof.
  intros Hl Hlt; unfold nextToken.
  destruct (peek l) as [c|] eqn:P;
    [|apply peek_None in P; lia].
  assert (A : within txt (S p0) (advance l))
    by (apply within_advance; assumption).
  destruct (char_eqb c DQUOTE || char_eqb c SQUOTE).
  { intros H; apply bind_Some in H; destruct H as [[[v b] l1] [R H]].
    inversion H; subst; eapply readString_within; eauto. }
  destruct (is_digit c) eqn:D.
  { rewrite readNumber_class.
    intros H; apply bind_Some in H; destruct H as [[v l1] [R H]].
    inversion H; subst; eapply read_class_within; eauto.
    unfold peek_is; rewrite P; apply is_digit_number_char; assumption. }
  destruct (is_ident_start c) eqn:I.
  { rewrite readIdentifier_class.
    intros H; apply bind_Some in H; destruct H as [[v l1] [R H]].
    inversion H; subst; eapply read_class_within; eauto.
    unfold peek_is; rewrite P; apply is_ident_start_word; assumption. }
  destruct (char_eqb c AT_SIGN).
  { intros H; inversion H; subst; assumption. }
  destruct (match_operator operators l) as [op|] eqn:M.
  - intros H; inversion H; subst.
    apply operator_fits in M; destruct M as [-> M].
    destruct Hl as [<- Hl]; unfold within.
    rewrite advance_n_pos, advance_n_text; split; [reflexivity | lia].
  - intros H; inversion H; subst; assumption.
Qed.

Lemma nextToken_total (txt : jsstring) (p0 f : nat) (l : t) :
  within txt p0 l -> pos l < length (text l) -> length txt - p0 < f ->
  exists r, nextToken f l = Some r.
Proof.
  intros Hl Hlt Hf; unfold nextToken.
  destruct (peek l) as [c|] eqn:P; [|eauto].
  destruct (char_eqb c DQUOTE || char_eqb c SQUOTE).
  { destruct (readString_total txt p0 f l) as [[[v b] l1] R];
      [assumption | assumption | lia |].
    rewrite R; simpl; eauto. }
  destruct (is_digit c).
  { rewrite readNumber_class.
    destruct (read_class_total is_number_char txt p0 f l) as [[v l1] R];
      [assumption | assumption |].
    rewrite R; simpl; eauto. }
  destruct (is_ident_start c).
  { rewrite readIdentifier_class.
    destruct (read_class_total is_word txt p0 f l) as [[v l1] R];
      [assumption | assumption |].
    rewrite R; simpl; eauto. }
  destruct (char_eqb c AT_SIGN); [eauto|].
  destruct (match_operator operators l); eauto.
Qed.

Lemma iteration_within (f : nat) (l r : t) (pushed : option Token.t) :
  pos l < length (text l) -> iteration f l = Some (r, pushed) ->
  within (text l) (S (pos l)) r.
Proof.
  intros Hlt H; unfold iteration in H.
  apply bind_Some in H; destruct H as [l1 [W H]].
  apply bind_Some in H; destruct H as [l2 [C H]].
  assert (H0 : within (text l) (pos l) l) by (apply within_refl; lia).
  pose proof (skipWhitespace_within _ _ _ _ _ H0 W) as H1.
  pose proof (skipComment_within _ _ _ _ _ H1 C) as H2.
  destruct (length (text l2) <=? pos l2) eqn:E.
  - inversion H; subst.
    apply Nat.leb_le in E; destruct H2 as [T ?]; rewrite T in *.
    split; [assumption | lia].
  - apply Nat.leb_gt in E.
    apply bind_Some in H; destruct H as [[tok l3] [N H]].
    inversion H; subst; eapply nextToken_within; eauto.
Qed.

Lemma iteration_total (f : nat) (l : t) :
  pos l < length (text l) -> length (text l) < f ->
  exists r, iteration f l = Some r.
Proof.
  intros Hlt Hf; unfold iteration.
  assert (H0 : within (text l) 0 l) by (split; [reflexivity | lia]).
  destruct (skipWhitespace_total _ 0 f l H0) as [l1 W]; [lia|].
  rewrite W; simpl.
  pose proof (skipWhitespace_within _ _ _ _ _ H0 W) as H1.
  destruct (skipComment_total _ 0 f l1 H1) as [l2 C]; [lia|].
  rewrite C; simpl.
  pose proof (skipComment_within _ _ _ _ _ H1 C) as H2.
  destruct (length (text l2) <=? pos l2) eqn:E; [eauto|].
  apply Nat.leb_gt in E.
  destruct (nextToken_total _ 0 f l2 H2 E) as [[tok l3] N]; [lia|].
  rewrite N; simpl; eauto.
Qed.

Lemma tokenize_loop_total (f n : nat) (l : t) (tokens : list Token.t) :
  pos l <= length (text l) -> length (text l) < f -> remaining l < n ->
  exists r, tokenize_loop f n l tokens = Some r.
Proof.
  revert l tokens; induction n as [|n IH]; intros l tokens Hle Hf Hn;
    [lia|]; simpl.
  destruct (pos l <? length (text l)) eqn:E; [|eauto].
  apply Nat.ltb_lt in E.
  destruct (iteration_total f l E Hf) as [[l1 pushed] I].
  rewrite I; simpl.
  destruct pushed as [tok|]; [|eauto].
  apply iteration_within in I; [|assumption].
  destruct I as [T ?]; unfold remaining in *.
  apply IH; rewrite ?T; lia.
Qed.

(** More fuel does not change a result. *)

Lemma skipComment_mono (f f' : nat) (l r : t) :
  skipComment f l = Some r -> f <= f' -> skipComment f' l = Some r.
Proof.
  unfold skipComment; destruct (peek_is l (char_eqb PERCENT)); auto.
  apply while_mono.
Qed.

Lemma readString_mono (f f' : nat) (l : t) (r : jsstring * bool * t) :
  readString f l = Some r -> f <= f' -> readString f' l = Some r.
Proof.
  rewrite !readString_unfold; intros H Hle; revert H.
  apply bind_mono; [|auto].
  intros a H; eapply while_mono; eassumption.
Qed.

Lemma read_class_mono (p : char -> bool) (f f' : nat) (l : t)
  (r : jsstring * t) :
  read_class p f l = Some r -> f <= f' -> read_class p f' l = Some r.
Proof.
  unfold read_class; intros H Hle; revert H.
  apply bind_mono; [|auto].
  intros a H; eapply while_mono; eassumption.
Qed.

Lemma nextToken_mono (f f' : nat) (l : t) (r : Token.t * t) :
  nextToken f l = Some r -> f <= f' -> nextToken f' l = Some r.
Proof.
  unfold nextToken; intros H Hle; revert H.
  destruct (peek l) as [c|]; [|auto].
  destruct (char_eqb c DQUOTE || char_eqb c SQUOTE).
  { apply bind_mono; [|auto].
    intros a H; eapply readString_mono; eassumption. }
  destruct (is_digit c).
  { rewrite readNumber_class; apply bind_mono; [|auto].
    intros a H; eapply read_class_mono; eassumption. }
  destruct (is_ident_start c); [|auto].
  rewrite readIdentifier_class; apply bind_mono; [|auto].
  intros a H; eapply read_class_mono; eassumption.
Qed.

Lemma iteration_mono (f f' : nat) (l : t) (r : t * option Token.t) :
  iteration f l = Some r -> f <= f' -> iteration f' l = Some r.
Proof.
  unfold iteration; intros H Hle; revert H.
  apply bind_mono.
  { intros a H; eapply while_mono; eassumption. }
  intros l1 b; apply bind_mono.
  { intros a H; eapply skipComment_mono; eassumption. }
  intros l2 b'; destruct (length (text l2) <=? pos l2); [auto|].
  apply bind_mono; [|auto].
  intros a H; eapply nextToken_mono; eassumption.
Qed.

Lemma tokenize_loop_mono (f f' n n' : nat) (l : t)
  (tokens r : list Token.t) :
  tokenize_loop f n l tokens = Some r -> f <= f' -> n <= n' ->
  tokenize_loop f' n' l tokens = Some r.
Proof.
  revert n' l tokens; induction n as [|n IH]; intros n' l tokens H Hf Hn;
    [discriminate|].
  destruct n' as [|n']; [lia|]; simpl in *.
  destruct (pos l <? length (text l)); [|assumption].
  apply bind_Some in H; destruct H as [[l1 pushed] [I H]].
  rewrite (iteration_mono _ _ _ _ I Hf); simpl.
  destruct pushed; [|assumption].
  apply IH; [assumption | assumption | lia].
Qed.

Lemma tokenize_total (txt : jsstring) :
  exists toks, tokenize txt = Some toks.
Proof.
  apply tokenize_loop_total; unfold remaining; simpl; lia.
Qed.

Lemma tokenize_fuel_enough (f : nat) (txt : jsstring) :
  length txt < f -> tokenize_fuel f txt = tokenize txt.
Proof.
  intros Hf; destruct (tokenize_total txt) as [toks E]; rewrite E.
  eapply tokenize_loop_mono; [exact E | lia | lia].
Qed.
End TokenizeFacts.

(** ** The string scan *)

Module StringScanFacts.
Import AsteroidLexer LexerSpec LexerFacts ReaderFacts.

Lemma skipn_peek (l : t) (c : char) :
  peek l = Some c ->
  skipn (pos l) (text l) = c :: skipn (S (pos l)) (text l).
Proof.
  intros H; apply peek_Some in H; destruct H as [_ H].
  revert H; generalize (pos l); generalize (text l).
  induction j as [|x j IH]; intros [|n]; simpl; try discriminate.
  - intros E; inversion E; reflexivity.
  - apply IH.
Qed.

Lemma skipn_past (l : t) :
  peek l = None -> skipn (pos l) (text l) = [].
Proof. intros H; apply peek_None in H; apply skipn_all2; assumption. Qed.

Lemma readString_body_at (l : t) (v : jsstring) (c : char) :
  peek l = Some c ->
  readString_body (l, v) =
  if char_eqb c BACKSLASH then
    match peek (advance l) with
    | Some c2 => (advance (advance l), v ++ [c2])
    | None => (advance l, v)
    end
  else (advance l, v ++ [c]).
Proof.
  intros P; unfold readString_body, peek_is; rewrite P.
  unfold char_eqb; rewrite (N.eqb_sym BACKSLASH c); reflexivity.
Qed.

(** The loop of [readString] stops on the first unescaped quote, or at
    the end of the text. *)
Lemma string_loop_stops (q : char) (f : nat) :
  forall (l : t) (v : jsstring),
    pos l <= length (text l) -> remaining l < f ->
    exists l' v',
      while f (string_cond (Some q)) readString_body (l, v) = Some (l', v')
      /\ text l' = text l
      /\ match unescaped_quote q (skipn (pos l) (text l)) with
         | Some k => pos l' = pos l + k /\ peek l' = Some q
         | None => pos l' = length (text l) /\ peek l' = None
         end.
Proof.
  induction f as [|f IH]; intros l v Hle Hf; [lia|].
  cbn [while]; unfold string_cond at 1; cbn [fst].
  destruct (peek l) as [c|] eqn:P.
  2:{ exists l, v; rewrite (skipn_past _ P); cbn [unescaped_quote].
      pose proof P as P'; apply peek_None in P'.
      repeat split; auto; lia. }
  rewrite (skipn_peek _ _ P); cbn [unescaped_quote].
  pose proof (peek_Some _ _ P) as [Hlt _].
  destruct (char_eqb c q) eqn:Q; cbn [negb].
  { exists l, v; unfold char_eqb in Q; apply N.eqb_eq in Q; subst c.
    repeat split; auto; lia. }
  rewrite (readString_body_at _ v _ P).
  destruct (char_eqb c BACKSLASH) eqn:B.
  - destruct (peek (advance l)) as [c2|] eqn:P2.
    + pose proof (peek_Some _ _ P2) as [Hlt2 _].
      pose proof (skipn_peek _ _ P2) as S2.
      rewrite advance_pos, advance_text in *.
      rewrite S2.
      destruct (IH (advance (advance l)) (v ++ [c2])) as [l' [v' [W [T U]]]].
      * rewrite !advance_pos, !advance_text; lia.
      * unfold remaining in *; rewrite !advance_pos, !advance_text; lia.
      * exists l', v'; split; [exact W|].
        rewrite !advance_pos, !advance_text in *.
        split; [assumption|].
        destruct (unescaped_quote q (skipn (S (S (pos l))) (text l)));
          cbn [option_map]; destruct U; split; auto; lia.
    + pose proof (skipn_past _ P2) as S2.
      rewrite advance_pos, advance_text in S2; rewrite S2.
      destruct (IH (advance l) v) as [l' [v' [W [T U]]]].
      * rewrite advance_pos, advance_text; lia.
      * unfold remaining in *; rewrite advance_pos, advance_text; lia.
      * exists l', v'; split; [exact W|].
        rewrite advance_pos, advance_text in *.
        rewrite S2 in U; cbn [unescaped_quote] in U; auto.
  - destruct (IH (advance l) (v ++ [c])) as [l' [v' [W [T U]]]].
    + rewrite advance_pos, advance_text; lia.
    + unfold remaining in *; rewrite advance_pos, advance_text; lia.
    + exists l', v'; split; [exact W|].
      rewrite advance_pos, advance_text in *.
      split; [assumption|].
      destruct (unescaped_quote q (skipn (S (pos l)) (text l)));
        cbn [option_map]; destruct U; split; auto; lia.
Qed.

Lemma readString_stops (q : char) (f : nat) (l : t) :
  peek l = Some q -> remaining l <= f ->
  exists value valid r,
    readString f l = Some (value, valid, r)
    /\ text r = text l
    /\ match unescaped_quote q (skipn (S (pos l)) (text l)) with
       | Some k => valid = true /\ pos r = pos l + k + 2
       | None => valid = false /\ pos r = length (text l)
       end.
Proof.
  intros P Hf; pose proof (peek_Some _ _ P) as [Hlt _].
  rewrite readString_unfold, P.
  destruct (string_loop_stops q f (advance l) [])
    as [l' [v' [W [T U]]]].
  - rewrite advance_pos, advance_text; lia.
  - unfold remaining in *; rewrite advance_pos, advance_text; lia.
  - match goal with
    | |- context [bind ?w _] =>
        replace w with (Some (l', v')) by (symmetry; exact W)
    end; cbn [bind].
    rewrite advance_pos, advance_text in *.
    destruct (unescaped_quote q (skipn (S (pos l)) (text l))) as [k|];
      destruct U as [U1 U2]; rewrite U2.
    + unfold char_eqb; rewrite N.eqb_refl.
      exists v', true, (advance l').
      rewrite advance_pos, advance_text; repeat split; auto; lia.
    + exists v', false, l'; repeat split; auto.
Qed.
End StringScanFacts.

(** ** Maps *)

Module JSMapFacts.
Section Facts.
Variable V : Type.
Implicit Types (m : JSMap.t V) (k : jsstring) (v : V).

Lemma get_set_same m k v : JSMap.get k (JSMap.set k v m) = Some v.
Proof.
  induction m as [|[k' v'] m IH]; simpl.
  - rewrite str_eqb_refl; reflexivity.
  - destruct (str_eqb k' k) eqn:E; simpl; rewrite E; auto.
Qed.

Lemma get_set_other m k k' v :
  k <> k' -> JSMap.get k' (JSMap.set k v m) = JSMap.get k' m.
Proof.
  intros N; induction m as [|[k0 v0] m IH]; simpl.
  - rewrite str_eqb_neq; auto.
  - destruct (str_eqb k0 k) eqn:E; simpl.
    + apply str_eqb_spec in E; subst k0; rewrite str_eqb_neq; auto.
    + destruct (str_eqb k0 k'); auto.
Qed.

Lemma get_set m k k' v :
  JSMap.get k' (JSMap.set k v m) =
  if str_eqb k k' then Some v else JSMap.get k' m.
Proof.
  destruct (str_eqb k k') eqn:E.
  - apply str_eqb_spec in E; subst; apply get_set_same.
  - apply get_set_other; intros ->; rewrite str_eqb_refl in E; discriminate.
Qed.

Lemma get_None_keys m k : JSMap.get k m = None <-> ~ In k (JSMap.keys m).
Proof.
  induction m as [|[k' v'] m IH]; simpl; [tauto|].
  destruct (str_eqb k' k) eqn:E.
  - apply str_eqb_spec in E; subst; split; [discriminate | tauto].
  - rewrite IH; split; [|tauto].
    intros H [->|H']; [rewrite str_eqb_refl in E; discriminate | tauto].
Qed.

Lemma keys_set m k v :
  JSMap.keys (JSMap.set k v m) =
  if JSMap.has k m then JSMap.keys m else JSMap.keys m ++ [k].
Proof.
  unfold JSMap.has; induction m as [|[k' v'] m IH]; simpl; [reflexivity|].
  destruct (str_eqb k' k) eqn:E; simpl; [reflexivity|].
  rewrite IH; destruct (JSMap.get k m); reflexivity.
Qed.

(** A key has one entry at most. *)
Lemma NoDup_keys_set m k v :
  NoDup (JSMap.keys m) -> NoDup (JSMap.keys (JSMap.set k v m)).
Proof.
  intros H; rewrite keys_set; unfold JSMap.has.
  destruct (JSMap.get k m) eqn:G; [assumption|].
  apply get_None_keys in G.
  apply NoDup_app; [assumption | repeat constructor; simpl; tauto |].
  intros x Hx [<-|[]]; contradiction.
Qed.

Lemma size_set_ge m k v : JSMap.size m <= JSMap.size (JSMap.set k v m).
Proof.
  unfold JSMap.size; induction m as [|[k' v'] m IH]; simpl; [lia|].
  destruct (str_eqb k' k); simpl; lia.
Qed.

Lemma get_In m k v : JSMap.get k m = Some v -> In (k, v) m.
Proof.
  induction m as [|[k' v'] m IH]; simpl; [discriminate|].
  destruct (str_eqb k' k) eqn:E.
  - apply str_eqb_spec in E; subst; intros H; inversion H; auto.
  - auto.
Qed.

Lemma In_get m k v : NoDup (JSMap.keys m) -> In (k, v) m -> JSMap.get k m = Some v.
Proof.
  induction m as [|[k' v'] m IH]; simpl; [tauto|].
  intros N [H|H].
  - inversion H; subst; rewrite str_eqb_refl; reflexivity.
  - inversion N; subst.
    destruct (str_eqb k' k) eqn:E; [|auto].
    apply str_eqb_spec in E; subst.
    exfalso; apply H2; unfold JSMap.keys.
    change k with (fst (k, v)); apply in_map; assumption.
Qed.
End Facts.
End JSMapFacts.

(** ** The parser, token by token *)

Module ParserFacts.
Import AsteroidParser ParserSpec.

Lemma skipn_nth_error (A : Type) (l : list A) (n : nat) :
  skipn n l =
  match nth_error l n with
  | Some x => x :: skipn (S n) l
  | None => []
  end.
Proof.
  revert n; induction l as [|x l IH]; intros [|n]; simpl; try reflexivity.
  rewrite IH; destruct (nth_error l n); reflexivity.
Qed.

Lemma length_suffix (p : t) : length (suffix p) = length (tokens p) - pos p.
Proof. unfold suffix; apply length_skipn. Qed.

Lemma peek_suffix (p : t) : peek p = hd_error (suffix p).
Proof.
  unfold peek, suffix; rewrite skipn_nth_error.
  destruct (pos p <? length (tokens p)) eqn:E.
  - destruct (nth_error (tokens p) (pos p)); reflexivity.
  - apply Nat.ltb_ge, nth_error_None in E; rewrite E; reflexivity.
Qed.

Lemma advance_suffix (p : t) :
  fst (advance p) = hd_error (suffix p)
  /\ tokens (snd (advance p)) = tokens p
  /\ suffix (snd (advance p)) = tl (suffix p).
Proof.
  unfold advance, suffix; rewrite (skipn_nth_error _ (tokens p) (pos p)).
  destruct (pos p <? length (tokens p)) eqn:E; simpl.
  - destruct (nth_error (tokens p) (pos p)) eqn:N; simpl; auto.
    apply nth_error_None in N; apply Nat.ltb_lt in E; lia.
  - apply Nat.ltb_ge in E.
    rewrite (proj2 (nth_error_None _ _) E); simpl.
    rewrite (skipn_nth_error _ (tokens p) (pos p)).
    rewrite (proj2 (nth_error_None _ _) E); auto.
Qed.

Lemma advance_cons (p : t) (tok : Token.t) (rest : list Token.t) :
  suffix p = tok :: rest ->
  exists p', advance p = (Some tok, p')
             /\ tokens p' = tokens p /\ suffix p' = rest
             /\ pos p' = S (pos p).
Proof.
  intros S; destruct (advance_suffix p) as [A [B C]].
  rewrite S in A, C; simpl in A, C.
  exists (snd (advance p)); repeat split; auto.
  - destruct (advance p); simpl in *; subst; reflexivity.
  - unfold advance.
    destruct (pos p <? length (tokens p)) eqn:E; [reflexivity|].
    apply Nat.ltb_ge in E; pose proof (length_suffix p) as L.
    rewrite S in L; simpl in L; lia.
Qed.

Lemma is_keyword_value (tok : Token.t) (kw : string) :
  is_keyword tok kw = true <->
  Token.type tok = KEYWORD /\ Token.value tok = units kw.
Proof.
  unfold is_keyword; rewrite andb_true_iff, str_eqb_spec.
  destruct (Token.type tok); simpl; intuition discriminate.
Qed.

Lemma is_identifier_type (tok : Token.t) :
  is_identifier tok = true <-> Token.type tok = IDENTIFIER.
Proof.
  unfold is_identifier; destruct (Token.type tok); simpl;
    intuition discriminate.
Qed.

Lemma is_keyword_other (tok : Token.t) (kw kw' : string) :
  is_keyword tok kw = true -> units kw <> units kw' ->
  is_keyword tok kw' = false.
Proof.
  intros H N; apply is_keyword_value in H; destruct H as [_ H].
  unfold is_keyword; rewrite H, (str_eqb_neq _ _ N); apply andb_false_r.
Qed.

Lemma identifier_not_keyword (tok : Token.t) (kw : string) :
  is_identifier tok = true -> is_keyword tok kw = false.
Proof.
  intros H; apply is_identifier_type in H; unfold is_keyword; rewrite H.
  reflexivity.
Qed.

Lemma identifier_inert (tok : Token.t) : is_identifier tok = true -> inert tok.
Proof.
  intros H; split.
  - intros [nm|]; simpl; [|reflexivity].
    rewrite !(identifier_not_keyword _ _ H); simpl.
    destruct (is_identifier nm); reflexivity.
  - intros rest; unfold loaded; rewrite (identifier_not_keyword _ _ H).
    reflexivity.
Qed.

Ltac other_keyword H :=
  rewrite ?(is_keyword_other _ _ "function" H), ?(is_keyword_other _ _ "let" H),
    ?(is_keyword_other _ _ "struct" H), ?(is_keyword_other _ _ "data" H),
    ?(is_keyword_other _ _ "load" H), ?(is_keyword_other _ _ "system" H)
    by (vm_compute; discriminate).

Lemma system_inert (tok : Token.t) : is_keyword tok "system" = true -> inert tok.
Proof.
  intros H; split.
  - intros [nm|]; simpl; [|reflexivity].
    other_keyword H; simpl; destruct (is_identifier nm); reflexivity.
  - intros rest; unfold loaded; other_keyword H; reflexivity.
Qed.

Lemma not_keyword_inert (tok : Token.t) :
  Token.type tok <> KEYWORD -> inert tok.
Proof.
  intros H.
  assert (K : forall kw, is_keyword tok kw = false).
  { intros kw; unfold is_keyword; destruct (Token.type tok);
      try reflexivity; contradiction. }
  split.
  - intros [nm|]; simpl; [|reflexivity].
    rewrite !K; simpl; destruct (is_identifier nm); reflexivity.
  - intros rest; unfold loaded; rewrite K; reflexivity.
Qed.

Lemma extend_nil (info : DocumentInfo.t) : extend [] info = info.
Proof. destruct info; unfold extend; simpl; rewrite app_nil_r; reflexivity. Qed.

Lemma extend_skip (tok : Token.t) (rest : list Token.t)
  (info : DocumentInfo.t) :
  declared tok (hd_error rest) = None -> loaded tok rest = None ->
  extend (tok :: rest) info = extend rest info.
Proof. intros D L; unfold extend; simpl; rewrite D, L; reflexivity. Qed.

Lemma extend_inert (tok : Token.t) (rest : list Token.t)
  (info : DocumentInfo.t) :
  inert tok -> extend (tok :: rest) info = extend rest info.
Proof. intros [D L]; apply extend_skip; auto. Qed.

Lemma extend_loaded (tok : Token.t) (rest : list Token.t)
  (info : DocumentInfo.t) (module : jsstring) :
  declared tok (hd_error rest) = None -> loaded tok rest = Some module ->
  extend (tok :: rest) info =
  extend rest
    (DocumentInfo.mk (DocumentInfo.symbols info)
       (DocumentInfo.imports info ++ [module])
       (DocumentInfo.functions info) (DocumentInfo.variables info)).
Proof.
  intros D L; unfold extend; simpl; rewrite D, L; simpl.
  rewrite <- app_assoc; reflexivity.
Qed.

Lemma extend_declared (tok : Token.t) (rest : list Token.t)
  (info : DocumentInfo.t) (symbol : AsteroidSymbol.t) :
  declared tok (hd_error rest) = Some symbol -> loaded tok rest = None ->
  extend (tok :: rest) info =
  extend rest
    (DocumentInfo.mk (record (DocumentInfo.symbols info) symbol)
       (DocumentInfo.imports info)
       (if is_function symbol
        then record (DocumentInfo.functions info) symbol
        else DocumentInfo.functions info)
       (if is_variable symbol
        then record (DocumentInfo.variables info) symbol
        else DocumentInfo.variables info)).
Proof.
  intros D L; unfold extend; simpl; rewrite D, L; simpl.
  destruct (is_function symbol), (is_variable symbol); reflexivity.
Qed.
End ParserFacts.

(** ** The parser computes the declarations and the loads *)

Module ParseFacts.
Import AsteroidParser ParserSpec ParserFacts.

Ltac declaration_handler p tok rest S K :=
  destruct (advance_cons p tok rest S) as [p1 [A1 [T1 [S1 _]]]];
  unfold handled; rewrite S, A1; cbn [length];
  rewrite (peek_suffix p1), S1;
  destruct rest as [|nm rest'];
  [ cbn [hd_error]; exists p1; eexists; split; [reflexivity|];
    split; [congruence|]; split; [rewrite S1; simpl; lia|];
    split; [|reflexivity];
    rewrite S1; symmetry; apply extend_skip;
    [ reflexivity | unfold loaded; other_keyword K; reflexivity ]
  | cbn [hd_error]; destruct (is_identifier nm) eqn:I;
    [ destruct (advance_cons p1 nm rest' S1) as [p2 [A2 [T2 [S2 _]]]];
      rewrite A2; cbn [snd]; exists p2; eexists; split; [reflexivity|];
      split; [congruence|]; split; [rewrite S2; simpl; lia|];
      split;
      [ rewrite S2;
        rewrite (extend_declared tok (nm :: rest') _ _
                   ltac:(cbn [declared hd_error]; rewrite I, ?K;
                         other_keyword K; rewrite ?K, ?orb_true_r;
                         cbn [orb]; reflexivity)
                   ltac:(unfold loaded; other_keyword K; reflexivity));
        rewrite (extend_inert nm rest' _ (identifier_inert nm I));
        reflexivity
      | cbn [stored declared hd_error DocumentInfo.symbols];
        rewrite I, ?K; other_keyword K; rewrite ?K, ?orb_true_r;
        cbn [orb]; reflexivity ]
    | exists p1; eexists; split; [reflexivity|];
      split; [congruence|]; split; [rewrite S1; simpl; lia|];
      split;
      [ rewrite S1; symmetry; apply extend_skip;
        [ cbn [declared hd_error]; rewrite I; reflexivity
        | unfold loaded; other_keyword K; reflexivity ]
      | cbn [stored declared hd_error]; rewrite I; reflexivity ] ] ].

Lemma parseFunction_handled (p : t) (info : DocumentInfo.t) (tok : Token.t)
  (rest : list Token.t) :
  suffix p = tok :: rest -> is_keyword tok "function" = true ->
  handled p info (parseFunction p info).
Proof.
  intros S K; unfold parseFunction.
  declaration_handler p tok rest S K.
Qed.

Lemma parseVariable_handled (p : t) (info : DocumentInfo.t) (tok : Token.t)
  (rest : list Token.t) :
  suffix p = tok :: rest -> is_keyword tok "let" = true ->
  handled p info (parseVariable p info).
Proof.
  intros S K; unfold parseVariable.
  declaration_handler p tok rest S K.
Qed.

Lemma parseStruct_handled (p : t) (info : DocumentInfo.t) (tok : Token.t)
  (rest : list Token.t) :
  suffix p = tok :: rest ->
  is_keyword tok "struct" = true \/ is_keyword tok "data" = true ->
  handled p info (parseStruct p info).
Proof.
  intros S [K|K]; unfold parseStruct;
    declaration_handler p tok rest S K.
Qed.

Lemma load_not_declared (tok : Token.t) (next : option Token.t) :
  is_keyword tok "load" = true -> declared tok next = None.
Proof.
  intros K; destruct next as [nm|]; simpl; [|reflexivity].
  other_keyword K; simpl; destruct (is_identifier nm); reflexivity.
Qed.

Lemma parseLoad_handled (p : t) (info : DocumentInfo.t) (tok : Token.t)
  (rest : list Token.t) :
  suffix p = tok :: rest -> is_keyword tok "load" = true ->
  handled p info (Some (parseLoad p info)).
Proof.
  intros S K; unfold parseLoad.
  destruct (advance_cons p tok rest S) as [p1 [A1 [T1 [S1 _]]]].
  unfold handled; rewrite S, A1; cbn [length].
  rewrite (peek_suffix p1), S1.
  assert (Same : forall r (m : JSMap.t AsteroidSymbol.t),
             m = stored (tok :: r) m).
  { intros r m; unfold stored; rewrite load_not_declared by assumption.
    reflexivity. }
  destruct rest as [|s rest1]; cbn [hd_error].
  { exists p1, info; split; [reflexivity|].
    split; [congruence|]; split; [rewrite S1; simpl; lia|].
    split; [|apply Same].
    rewrite S1; symmetry; apply extend_skip;
      [apply load_not_declared; assumption|].
    unfold loaded; rewrite K; reflexivity. }
  destruct (is_keyword s "system") eqn:Ks.
  2:{ exists p1, info; split; [reflexivity|].
      split; [congruence|]; split; [rewrite S1; simpl; lia|].
      split; [|apply Same].
      rewrite S1; symmetry; apply extend_skip;
        [apply load_not_declared; assumption|].
      unfold loaded; rewrite K, Ks; destruct rest1; reflexivity. }
  destruct (advance_cons p1 s rest1 S1) as [p2 [A2 [T2 [S2 _]]]].
  rewrite A2, (peek_suffix p2), S2.
  destruct rest1 as [|m rest2]; cbn [hd_error].
  { exists p2, info; split; [reflexivity|].
    split; [congruence|]; split; [rewrite S2; simpl; lia|].
    split; [|apply Same].
    rewrite S2; symmetry.
    rewrite extend_skip;
      [ apply extend_inert, system_inert; assumption
      | apply load_not_declared; assumption
      | unfold loaded; rewrite K; reflexivity ]. }
  destruct (is_identifier m) eqn:Im.
  - destruct (advance_cons p2 m rest2 S2) as [p3 [A3 [T3 [S3 _]]]].
    rewrite A3; cbn [snd].
    exists p3; eexists; split; [reflexivity|].
    split; [congruence|]; split; [rewrite S3; simpl; lia|].
    split; [|apply Same].
    rewrite S3; symmetry.
    rewrite (extend_loaded tok (s :: m :: rest2) info (Token.value m));
      [ | apply load_not_declared; assumption
        | unfold loaded; rewrite K, Ks, Im; reflexivity ].
    rewrite extend_inert by (apply system_inert; assumption).
    apply extend_inert, identifier_inert; assumption.
  - exists p2, info; split; [reflexivity|].
    split; [congruence|]; split; [rewrite S2; simpl; lia|].
    split; [|apply Same].
    rewrite S2; symmetry.
    rewrite extend_skip;
      [ apply extend_inert, system_inert; assumption
      | apply load_not_declared; assumption
      | unfold loaded; rewrite K, Ks, Im; reflexivity ].
Qed.

Lemma dispatch_handled (p : t) (info : DocumentInfo.t) (tok : Token.t)
  (rest : list Token.t) :
  suffix p = tok :: rest -> handled p info (dispatch tok p info).
Proof.
  intros S; unfold dispatch.
  assert (Skip : inert tok -> handled p info (Some (snd (advance p), info))).
  { intros I; destruct (advance_cons p tok rest S) as [p1 [A1 [T1 [S1 _]]]].
    rewrite A1; exists p1, info; split; [reflexivity|].
    split; [assumption|]; split; [rewrite S, S1; simpl; lia|].
    split; [rewrite S, S1; symmetry; apply extend_inert; assumption|].
    rewrite S; unfold stored; rewrite (proj1 I); reflexivity. }
  destruct (TokenType_eqb (Token.type tok) KEYWORD) eqn:Ty.
  2:{ apply Skip, not_keyword_inert; intros E; rewrite E in Ty; discriminate. }
  assert (K : forall kw, is_keyword tok kw
                         = str_eqb (Token.value tok) (units kw)).
  { intros kw; unfold is_keyword; rewrite Ty; reflexivity. }
  destruct (str_eqb (Token.value tok) (units "load")) eqn:E1.
  { eapply parseLoad_handled; [eassumption | rewrite K; assumption]. }
  destruct (str_eqb (Token.value tok) (units "function")) eqn:E2.
  { eapply parseFunction_handled; [eassumption | rewrite K; assumption]. }
  destruct (str_eqb (Token.value tok) (units "let")) eqn:E3.
  { eapply parseVariable_handled; [eassumption | rewrite K; assumption]. }
  destruct (str_eqb (Token.value tok) (units "struct")) eqn:E4.
  { eapply parseStruct_handled; [eassumption | left; rewrite K; assumption]. }
  destruct (str_eqb (Token.value tok) (units "data")) eqn:E5.
  { eapply parseStruct_handled; [eassumption | right; rewrite K; assumption]. }
  cbn [orb]; apply Skip; split.
  - intros [nm|]; simpl; [|reflexivity].
    rewrite !K, E2, E3, E4, E5; simpl; destruct (is_identifier nm); reflexivity.
  - intros r; unfold loaded; rewrite K, E1; reflexivity.
Qed.

Lemma parse_loop_extend (n : nat) :
  forall (p : t) (info : DocumentInfo.t),
    length (suffix p) < n ->
    parse_loop n p info = Some (extend (suffix p) info).
Proof.
  induction n as [|n IH]; intros p info Hn; [lia|].
  cbn [parse_loop]; rewrite peek_suffix.
  destruct (suffix p) as [|tok rest] eqn:S.
  - cbn [hd_error]; rewrite extend_nil.
    destruct (pos p <? length (tokens p)); reflexivity.
  - assert (L : (pos p <? length (tokens p)) = true).
    { apply Nat.ltb_lt; pose proof (length_suffix p) as L.
      rewrite S in L; simpl in L; lia. }
    rewrite L; cbn [hd_error].
    destruct (dispatch_handled p info tok rest S)
      as [p' [info' [D [T [Hlt [E _]]]]]].
    rewrite D; cbn [bind].
    rewrite IH by (rewrite S in Hlt; simpl in *; lia).
    rewrite E, S; reflexivity.
Qed.

Lemma parse_fuel_extend (n : nat) (toks : list Token.t) :
  length toks < n -> parse_fuel n toks = Some (extend toks empty_info).
Proof.
  intros Hn; unfold parse_fuel; rewrite parse_loop_extend; [reflexivity|].
  unfold suffix; simpl; assumption.
Qed.

(** The parser returns, and returns the declarations and loads of the
    tokens. *)
Lemma parse_extend (toks : list Token.t) :
  parse toks = Some (extend toks empty_info).
Proof. apply parse_fuel_extend; lia. Qed.
End ParseFacts.

(** ** The tables of a document *)

Module TableFacts.
Import ParserSpec.

Lemma last_declared_cons (name : jsstring) (s : AsteroidSymbol.t)
  (decls : list AsteroidSymbol.t) :
  last_declared name (s :: decls) =
  match last_declared name decls with
  | Some x => Some x
  | None => if str_eqb (AsteroidSymbol.name s) name then Some s else None
  end.
Proof.
  unfold last_declared; simpl.
  induction (rev decls) as [|x l IH]; simpl; [reflexivity|].
  destruct (str_eqb (AsteroidSymbol.name x) name); auto.
Qed.

Lemma get_fold_record (name : jsstring) (decls : list AsteroidSymbol.t) :
  forall m,
    JSMap.get name (fold_left record decls m) =
    match last_declared name decls with
    | Some s => Some s
    | None => JSMap.get name m
    end.
Proof.
  induction decls as [|s decls IH]; intros m; [reflexivity|].
  simpl fold_left; rewrite IH, last_declared_cons.
  destruct (last_declared name decls); [reflexivity|].
  unfold record; rewrite JSMapFacts.get_set.
  destruct (str_eqb (AsteroidSymbol.name s) name); reflexivity.
Qed.

Lemma NoDup_fold_record (decls : list AsteroidSymbol.t) :
  forall m,
    NoDup (JSMap.keys m) -> NoDup (JSMap.keys (fold_left record decls m)).
Proof.
  induction decls as [|s decls IH]; intros m H; [assumption|].
  simpl; apply IH, JSMapFacts.NoDup_keys_set; assumption.
Qed.

Lemma last_declared_In (name : jsstring) (decls : list AsteroidSymbol.t)
  (s : AsteroidSymbol.t) :
  last_declared name decls = Some s ->
  In s decls /\ AsteroidSymbol.name s = name.
Proof.
  unfold last_declared; intros H; apply find_some in H.
  destruct H as [H E]; apply in_rev in H; apply str_eqb_spec in E; auto.
Qed.

Lemma last_declared_None (name : jsstring) (decls : list AsteroidSymbol.t) :
  (forall s, In s decls -> AsteroidSymbol.name s <> name) ->
  last_declared name decls = None.
Proof.
  intros H; destruct (last_declared name decls) as [s|] eqn:E; [|reflexivity].
  apply last_declared_In in E; destruct E as [I N].
  exfalso; exact (H s I N).
Qed.

(** The last declaration of a name among those of one kind, against the
    last of any kind. *)
Lemma last_declared_filter (f : AsteroidSymbol.t -> bool) (name : jsstring)
  (decls : list AsteroidSymbol.t) (s : AsteroidSymbol.t) :
  last_declared name (filter f decls) = Some s ->
  exists s', last_declared name decls = Some s' /\ (f s' = true <-> s' = s).
Proof.
  induction decls as [|x decls IH]; simpl; [discriminate|].
  rewrite (last_declared_cons name x decls).
  destruct (f x) eqn:F.
  - rewrite last_declared_cons.
    destruct (last_declared name (filter f decls)) as [y|] eqn:L.
    + intros H; inversion H; subst y.
      destruct (IH eq_refl) as [s' [E I]]; rewrite E; eauto.
    + destruct (str_eqb (AsteroidSymbol.name x) name) eqn:N; [|discriminate].
      intros H; inversion H; subst x.
      destruct (last_declared name decls) as [y|] eqn:L'.
      * exists y; split; [reflexivity|]; split.
        -- intros Fy; exfalso.
           apply last_declared_In in L'; destruct L' as [Iy Ny].
           assert (Z : last_declared name (filter f decls) = None)
             by assumption.
           unfold last_declared in Z.
           assert (C : In y (rev (filter f decls)))
             by (apply in_rev; rewrite rev_involutive;
                 apply filter_In; auto).
           apply (find_none _ _ Z) in C; simpl in C.
           rewrite Ny, str_eqb_refl in C; discriminate.
        -- intros ->; assumption.
      * exists s; split; [reflexivity | tauto].
  - intros H; destruct (IH H) as [s' [E I]]; rewrite E; eauto.
Qed.

Lemma declared_Some (kw : Token.t) (next : option Token.t)
  (s : AsteroidSymbol.t) :
  declared kw next = Some s ->
  exists nm,
    next = Some nm /\ declaration_keyword kw
    /\ Token.type nm = IDENTIFIER
    /\ AsteroidSymbol.name s = Token.value nm
    /\ AsteroidSymbol.range s = declaration_range kw nm
    /\ AsteroidSymbol.selectionRange s = declaration_range kw nm.
Proof.
  destruct next as [nm|]; simpl; [|discriminate].
  destruct (AsteroidParser.is_identifier nm) eqn:I; [|discriminate].
  apply ParserFacts.is_identifier_type in I.
  intros H; exists nm; split; [reflexivity|].
  assert (K : forall kw',
             In (units kw')
               (List.map units ["function"; "let"; "struct"; "data"]%string) ->
             AsteroidParser.is_keyword kw kw' = true ->
             declaration_keyword kw).
  { intros kw' Hin Hk; apply ParserFacts.is_keyword_value in Hk.
    destruct Hk as [Ty V]; split; [assumption | rewrite V; assumption]. }
  destruct (AsteroidParser.is_keyword kw "function") eqn:K1.
  { inversion H; subst; simpl; repeat split; auto.
    all: apply (K "function"%string); simpl; auto. }
  destruct (AsteroidParser.is_keyword kw "let") eqn:K2.
  { inversion H; subst; simpl; repeat split; auto.
    all: apply (K "let"%string); simpl; auto. }
  destruct (AsteroidParser.is_keyword kw "struct") eqn:K3.
  { inversion H; subst; simpl; repeat split; auto.
    all: apply (K "struct"%string); simpl; auto. }
  destruct (AsteroidParser.is_keyword kw "data") eqn:K4; [|discriminate].
  inversion H; subst; simpl; repeat split; auto.
  all: apply (K "data"%string); simpl; auto 6.
Qed.

Lemma declared_total (kw nm : Token.t) :
  declaration_keyword kw -> Token.type nm = IDENTIFIER ->
  exists s, declared kw (Some nm) = Some s.
Proof.
  intros [Ty V] I; apply ParserFacts.is_identifier_type in I.
  simpl; rewrite I.
  assert (K : forall kw', Token.value kw = units kw' ->
                          AsteroidParser.is_keyword kw kw' = true)
    by (intros kw' E; apply ParserFacts.is_keyword_value; auto).
  simpl in V; destruct V as [V|[V|[V|[V|[]]]]]; symmetry in V;
    pose proof (K _ V) as K'.
  - rewrite K'; eauto.
  - ParserFacts.other_keyword K'; rewrite K'; eauto.
  - ParserFacts.other_keyword K'; rewrite K'; simpl; eauto.
  - ParserFacts.other_keyword K'; rewrite K', orb_true_r; eauto.
Qed.

(** The declarations are those of the adjacent pairs of tokens. *)
Lemma declarations_at (toks : list Token.t) (s : AsteroidSymbol.t) :
  In s (declarations toks) <->
  exists i kw,
    nth_error toks i = Some kw /\ declared kw (nth_error toks (S i)) = Some s.
Proof.
  induction toks as [|tok rest IH]; simpl.
  - split; [tauto|]. intros [[|i] [kw [H _]]]; discriminate.
  - assert (Hd : hd_error rest = nth_error rest 0) by (destruct rest; auto).
    split.
    + destruct (declared tok (hd_error rest)) as [s0|] eqn:D.
      * intros [<-|H].
        -- exists 0, tok; rewrite <- Hd; auto.
        -- apply IH in H; destruct H as [i [kw [N E]]].
           exists (S i), kw; auto.
      * intros H; apply IH in H; destruct H as [i [kw [N E]]].
        exists (S i), kw; auto.
    + intros [[|i] [kw [N E]]].
      * change (nth_error (tok :: rest) 1) with (nth_error rest 0) in E.
        inversion N; subst kw; rewrite <- Hd in E; rewrite E; left; auto.
      * change (nth_error (tok :: rest) (S (S i)))
          with (nth_error rest (S i)) in E.
        change (nth_error (tok :: rest) (S i)) with (nth_error rest i) in N.
        assert (In s (declarations rest)) by (apply IH; eauto).
        destruct (declared tok (hd_error rest)); simpl; auto.
Qed.

(** The declaration at [i] is the last of its name when no later pair
    declares the name. *)
Lemma last_declared_at (toks : list Token.t) :
  forall (i : nat) (kw nm : Token.t) (s : AsteroidSymbol.t),
    nth_error toks i = Some kw -> nth_error toks (S i) = Some nm ->
    declared kw (Some nm) = Some s ->
    (forall j, i < j -> ~ declares toks j (Token.value nm)) ->
    last_declared (Token.value nm) (declarations toks) = Some s.
Proof.
  induction toks as [|tok rest IH]; intros i kw nm s N N' D Last;
    [destruct i; discriminate|].
  assert (Hd : hd_error rest = nth_error rest 0) by (destruct rest; auto).
  destruct i as [|i].
  - change (nth_error (tok :: rest) 1) with (nth_error rest 0) in N'.
    inversion N; subst tok; simpl; rewrite Hd, N', D.
    rewrite last_declared_cons, last_declared_None.
    + destruct (declared_Some _ _ _ D) as [nm0 [E [_ [_ [Nm _]]]]].
      inversion E; subst nm0; rewrite Nm, str_eqb_refl; reflexivity.
    + intros s' Hin Nm; apply declarations_at in Hin.
      destruct Hin as [j [kw' [Nj Dj]]].
      destruct (declared_Some _ _ _ Dj) as [nm' [E [K [I [Nm' _]]]]].
      apply (Last (S j)); [lia|].
      exists kw', nm'; simpl; repeat split; auto; try apply K.
      congruence.
  - change (nth_error (tok :: rest) (S (S i)))
      with (nth_error rest (S i)) in N'.
    change (nth_error (tok :: rest) (S i)) with (nth_error rest i) in N.
    assert (L : last_declared (Token.value nm) (declarations rest) = Some s).
    { apply (IH i kw nm s N N' D).
      intros j Hj [kw' [nm' H]]; apply (Last (S j)); [lia|].
      exists kw', nm'; simpl; assumption. }
    simpl; destruct (declared tok (hd_error rest)); [|assumption].
    rewrite last_declared_cons, L; reflexivity.
Qed.
End TableFacts.

(** ** The validator *)

Module ValidateFacts.

(** The diagnostics of one token. *)
Lemma validate_loop_app (tokens : list Token.t) :
  forall diagnostics,
    validate_loop tokens diagnostics =
    diagnostics
    ++ flat_map
         (fun token =>
            (if is_unterminated token then [unterminated_string token]
             else [])
            ++ (if is_invalid_number token then [invalid_number token]
                else []))
         tokens.
Proof.
  induction tokens as [|token rest IH]; intros diagnostics; simpl.
  - rewrite app_nil_r; reflexivity.
  - rewrite IH.
    destruct (is_unterminated token), (is_invalid_number token); simpl;
      rewrite <- ?app_assoc; reflexivity.
Qed.

Lemma validateDocument_cons (token : Token.t) (rest : list Token.t) :
  validateDocument (token :: rest) =
  (if is_unterminated token then [unterminated_string token] else [])
  ++ (if is_invalid_number token then [invalid_number token] else [])
  ++ validateDocument rest.
Proof.
  unfold validateDocument; rewrite !validate_loop_app; simpl.
  rewrite <- app_assoc; reflexivity.
Qed.

Lemma validateDocument_quiet (tokens : list Token.t) :
  Forall (fun token => Token.type token <> STRING
                       /\ Token.type token <> NUMBER) tokens ->
  validateDocument tokens = [].
Proof.
  induction 1 as [|token rest [S N] _ IH]; [reflexivity|].
  rewrite validateDocument_cons, IH.
  unfold is_unterminated, is_invalid_number.
  destruct (Token.type token); try contradiction; reflexivity.
Qed.
End ValidateFacts.

(** ** Completion *)

Module CompletionFacts.

Lemma push_each_app (A : Type) (f : A -> CompletionItem.t) (xs : list A) :
  forall completions,
    push_each f xs completions = completions ++ List.map f xs.
Proof.
  induction xs as [|x xs IH]; intros completions; simpl.
  - rewrite app_nil_r; reflexivity.
  - rewrite IH, <- app_assoc; reflexivity.
Qed.

Lemma onCompletion_items (documentInfos : JSMap.t DocumentInfo.t)
  (params : TextDocumentPositionParams.t) :
  onCompletion documentInfos params =
  List.map keyword_item KEYWORDS
  ++ List.map builtin_item BUILTIN_FUNCTIONS
  ++ List.map module_item SYSTEM_MODULES
  ++ match JSMap.get (TextDocumentPositionParams.uri params) documentInfos with
     | Some docInfo =>
         List.map symbol_item (JSMap.values (DocumentInfo.symbols docInfo))
     | None => []
     end.
Proof.
  unfold onCompletion.
  destruct (JSMap.get (TextDocumentPositionParams.uri params) documentInfos);
    rewrite !push_each_app, <- ?app_assoc, ?app_nil_r; reflexivity.
Qed.
End CompletionFacts.

(** ** Word resolution *)

Module WordFacts.

Lemma len_nonneg (line : jsstring) : (0 <= len line)%Z.
Proof. unfold len; lia. Qed.

Lemma test_word_inside (line : jsstring) (i : Z) :
  test_word (char_at line i) = true -> (0 <= i < len line)%Z.
Proof.
  unfold char_at, len; destruct (i <? 0)%Z eqn:E; [discriminate|].
  apply Z.ltb_ge in E.
  destruct (nth_error line (Z.to_nat i)) eqn:N; [|discriminate].
  intros _; assert (Z.to_nat i < length line)
    by (apply nth_error_Some; congruence).
  lia.
Qed.

(** The loop that finds the start of the word. *)
Lemma start_loop (line : jsstring) (character : Z) (f : nat) :
  (0 <= character < len line)%Z -> length line < f ->
  exists start,
    while f
      (fun start => (0 <? start)%Z && test_word (char_at line (start - 1)))
      (fun start => (start - 1)%Z) character = Some start
    /\ (0 <= start <= character)%Z
    /\ (forall i, (start <= i < character)%Z ->
                  test_word (char_at line i) = true)
    /\ (start = 0%Z \/ test_word (char_at line (start - 1)) = false).
Proof.
  intros Hc Hf.
  set (cond := fun start : Z =>
                 (0 <? start)%Z && test_word (char_at line (start - 1))).
  set (body := fun start : Z => (start - 1)%Z).
  set (Inv := fun start : Z =>
                (0 <= start <= character)%Z
                /\ forall i, (start <= i < character)%Z ->
                             test_word (char_at line i) = true).
  assert (Step : forall s, Inv s -> cond s = true -> Inv (body s)).
  { intros s [B A] C; unfold cond in C; apply andb_true_iff in C.
    destruct C as [C1 C2]; apply Z.ltb_lt in C1; unfold body.
    split; [lia|]; intros i Hi.
    destruct (Z.eq_dec i (s - 1)) as [->|]; [assumption | apply A; lia]. }
  assert (I0 : Inv character) by (split; [lia | intros i Hi; lia]).
  destruct (while_total Z cond body Inv Step Z.to_nat) with (f := f)
    (s := character) as [start W]; auto.
  { intros s [B _] C; unfold cond in C; apply andb_true_iff in C.
    destruct C as [C1 _]; apply Z.ltb_lt in C1; unfold body; lia. }
  { unfold len in Hc; lia. }
  exists start; split; [exact W|].
  destruct (while_inv Z cond body Inv Step f character start I0 W)
    as [[B A] C].
  split; [assumption|]; split; [assumption|].
  unfold cond in C; apply andb_false_iff in C; destruct C as [C|C]; auto.
  apply Z.ltb_ge in C; left; lia.
Qed.

(** The loop that finds the end of the word. *)
Lemma end_loop (line : jsstring) (character : Z) (f : nat) :
  (0 <= character < len line)%Z -> length line < f ->
  exists end_,
    while f
      (fun end_ => (end_ <? len line)%Z && test_word (char_at line end_))
      (fun end_ => (end_ + 1)%Z) character = Some end_
    /\ (character <= end_ <= len line)%Z
    /\ (forall i, (character <= i < end_)%Z ->
                  test_word (char_at line i) = true)
    /\ (end_ = len line \/ test_word (char_at line end_) = false).
Proof.
  intros Hc Hf.
  set (cond := fun end_ : Z =>
                 (end_ <? len line)%Z && test_word (char_at line end_)).
  set (body := fun end_ : Z => (end_ + 1)%Z).
  set (Inv := fun end_ : Z =>
                (character <= end_ <= len line)%Z
                /\ forall i, (character <= i < end_)%Z ->
                             test_word (char_at line i) = true).
  assert (Step : forall s, Inv s -> cond s = true -> Inv (body s)).
  { intros s [B A] C; unfold cond in C; apply andb_true_iff in C.
    destruct C as [C1 C2]; apply Z.ltb_lt in C1; unfold body.
    split; [lia|]; intros i Hi.
    destruct (Z.eq_dec i s) as [->|]; [assumption | apply A; lia]. }
  assert (I0 : Inv character) by (split; [lia | intros i Hi; lia]).
  destruct (while_total Z cond body Inv Step
              (fun end_ => Z.to_nat (len line - end_))) with (f := f)
    (s := character) as [end_ W]; auto.
  { intros s [B _] C; unfold cond in C; apply andb_true_iff in C.
    destruct C as [C1 _]; apply Z.ltb_lt in C1; unfold body; lia. }
  { unfold len in *; lia. }
  exists end_; split; [exact W|].
  destruct (while_inv Z cond body Inv Step f character end_ I0 W)
    as [[B A] C].
  split; [assumption|]; split; [assumption|].
  unfold cond in C; apply andb_false_iff in C; destruct C as [C|C]; auto.
  apply Z.ltb_ge in C; left; lia.
Qed.

Lemma getWordRangeAtPosition_fuel_word (f : nat) (line : jsstring)
  (character : Z) :
  test_word (char_at line character) = true -> length line < f ->
  exists start end_,
    getWordRangeAtPosition_fuel f line character
      = Some (Some (WordRange.mk start end_))
    /\ (0 <= start <= character)%Z /\ (character < end_ <= len line)%Z
    /\ (forall i, (start <= i < end_)%Z -> test_word (char_at line i) = true)
    /\ (start = 0%Z \/ test_word (char_at line (start - 1)) = false)
    /\ (end_ = len line \/ test_word (char_at line end_) = false).
Proof.
  intros Hw Hf; pose proof (test_word_inside _ _ Hw) as Hc.
  destruct (start_loop line character f Hc Hf) as [start [Ws [Bs [As Ms]]]].
  destruct (end_loop line character f Hc Hf) as [end_ [We [Be [Ae Me]]]].
  assert (Lt : (character < end_)%Z).
  { destruct (Z.eq_dec end_ character) as [->|]; [|lia].
    destruct Me as [Me|Me]; [lia | congruence]. }
  exists start, end_; unfold getWordRangeAtPosition_fuel.
  replace ((character <? 0)%Z || (len line <=? character)%Z) with false
    by (symmetry; apply orb_false_iff; split;
        [apply Z.ltb_ge | apply Z.leb_gt]; lia).
  rewrite Ws; cbn [bind]; rewrite We; cbn [bind].
  replace (start =? end_)%Z with false by (symmetry; apply Z.eqb_neq; lia).
  split; [reflexivity|].
  split; [assumption|]; split; [lia|]; split; [|auto].
  intros i Hi; destruct (Z_lt_ge_dec i character);
    [apply As | apply Ae]; lia.
Qed.

Lemma char_at_middle (pre w post : jsstring) (i : Z) :
  forallb is_word w = true ->
  (len pre <= i < len pre + len w)%Z ->
  test_word (char_at (pre ++ w ++ post) i) = true.
Proof.
  intros Hw Hi; unfold char_at, len in *.
  replace (i <? 0)%Z with false by (symmetry; apply Z.ltb_ge; lia).
  rewrite nth_error_app2 by lia.
  rewrite nth_error_app1 by lia.
  destruct (nth_error w (Z.to_nat i - length pre)) as [c|] eqn:N.
  - simpl; rewrite forallb_forall in Hw; apply Hw.
    eapply nth_error_In; eassumption.
  - apply nth_error_None in N; lia.
Qed.

(** A word between two code units outside the class, or the ends of the
    line, is resolved whole from any of its offsets. *)
Lemma word_resolved_whole (pre w post : jsstring) (character : Z) :
  forallb is_word w = true ->
  test_word (char_at (pre ++ w ++ post) (len pre - 1)) = false ->
  test_word (char_at (pre ++ w ++ post) (len pre + len w)) = false ->
  (len pre <= character < len pre + len w)%Z ->
  getWordRangeAtPosition (pre ++ w ++ post) character
    = Some (Some (WordRange.mk (len pre) (len pre + len w)))
  /\ substring (pre ++ w ++ post) (Z.to_nat (len pre))
       (Z.to_nat (len pre + len w)) = w.
Proof.
  intros Hw Hl Hr Hc; split.
  - pose proof (char_at_middle pre w post) as Mid.
    destruct (getWordRangeAtPosition_fuel_word
                (S (length (pre ++ w ++ post))) (pre ++ w ++ post) character)
      as [start [end_ [G [Bs [Be [A [Ms Me]]]]]]];
      [apply Mid; assumption | lia |].
    assert (Es : start = len pre).
    { destruct (Z_lt_ge_dec start (len pre)) as [Lt|Ge].
      - rewrite A in Hl by lia; discriminate.
      - destruct (Z.eq_dec start (len pre)); [assumption|].
        destruct Ms as [Ms|Ms]; [pose proof (len_nonneg pre); lia|].
        rewrite Mid in Ms by (assumption || lia); discriminate. }
    assert (Ee : end_ = (len pre + len w)%Z).
    { destruct (Z_lt_ge_dec (len pre + len w) end_) as [Lt|Ge].
      - rewrite A in Hr by lia; discriminate.
      - destruct (Z.eq_dec end_ (len pre + len w)); [assumption|].
        destruct Me as [Me|Me].
        + unfold len in *; rewrite !length_app in Me; lia.
        + rewrite Mid in Me by (assumption || lia); discriminate. }
    subst; exact G.
  - unfold substring, len.
    replace (Z.to_nat (Z.of_nat (length pre) + Z.of_nat (length w))
             - Z.to_nat (Z.of_nat (length pre))) with (length w) by lia.
    rewrite Nat2Z.id, skipn_app, Nat.sub_diag, skipn_all; simpl.
    rewrite firstn_app, Nat.sub_diag, firstn_all; simpl.
    apply app_nil_r.
Qed.

Lemma getWordRangeAtPosition_fuel_mono (f f' : nat) (line : jsstring)
  (character : Z) (r : option WordRange.t) :
  getWordRangeAtPosition_fuel f line character = Some r -> f <= f' ->
  getWordRangeAtPosition_fuel f' line character = Some r.
Proof.
  unfold getWordRangeAtPosition_fuel; intros H Hle; revert H.
  destruct ((character <? 0)%Z || (len line <=? character)%Z); [auto|].
  apply bind_mono; [intros a H; eapply while_mono; eassumption|].
  intros start b; apply bind_mono; [|auto].
  intros a H; eapply while_mono; eassumption.
Qed.
End WordFacts.

(** ** Regular expressions *)

Module RegexFacts.
Import RegexSpec.

Lemma lang_Void_inv (v : jsstring) : lang Void v -> False.
Proof. intros H; inversion H. Qed.

Lemma lang_Eps_inv (v : jsstring) : lang Eps v -> v = [].
Proof. intros H; inversion H; reflexivity. Qed.

Lemma lang_Class_inv (p : char -> bool) (v : jsstring) :
  lang (Class p) v -> exists c, v = [c] /\ p c = true.
Proof. intros H; inversion H; subst; eauto. Qed.

Lemma lang_Seq_inv (a b : regex) (v : jsstring) :
  lang (Seq a b) v -> exists s t, v = s ++ t /\ lang a s /\ lang b t.
Proof. intros H; inversion H; subst; eauto. Qed.

Lemma lang_Alt_inv (a b : regex) (v : jsstring) :
  lang (Alt a b) v -> lang a v \/ lang b v.
Proof. intros H; inversion H; subst; auto. Qed.

Lemma lang_Seq_nil (a b : regex) : lang a [] -> lang b [] -> lang (Seq a b) [].
Proof.
  intros Ha Hb; change (@nil char) with (@nil char ++ []).
  constructor; assumption.
Qed.

Lemma lang_Seq_cons (a b : regex) (c : char) (s t : jsstring) :
  lang a (c :: s) -> lang b t -> lang (Seq a b) (c :: s ++ t).
Proof.
  intros Ha Hb; change (c :: s ++ t) with ((c :: s) ++ t).
  constructor; assumption.
Qed.

Lemma nullable_lang (r : regex) : nullable r = true <-> lang r [].
Proof.
  induction r as [| |p|a IHa b IHb|a IHa b IHb|a IHa]; simpl.
  - split; [discriminate | intros H; destruct (lang_Void_inv _ H)].
  - split; [constructor | reflexivity].
  - split; [discriminate|].
    intros H; apply lang_Class_inv in H; destruct H as [c [E _]].
    discriminate.
  - rewrite andb_true_iff, IHa, IHb; split.
    + intros [Ha Hb]; apply lang_Seq_nil; assumption.
    + intros H; apply lang_Seq_inv in H; destruct H as [s [t [E [Ha Hb]]]].
      symmetry in E; apply app_eq_nil in E; destruct E; subst; auto.
  - rewrite orb_true_iff, IHa, IHb; split.
    + intros [H|H]; [apply lang_Alt_l | apply lang_Alt_r]; assumption.
    + apply lang_Alt_inv.
  - split; [constructor | reflexivity].
Qed.

(** A non-empty match of a star starts with a non-empty match of its
    body. *)
Lemma lang_Star_cons (a : regex) (s : jsstring) :
  lang (Star a) s ->
  forall c s', s = c :: s' ->
    exists s1 s2, s' = s1 ++ s2 /\ lang a (c :: s1) /\ lang (Star a) s2.
Proof.
  intros H; remember (Star a) as r eqn:R.
  induction H as [| | | | | |a' s t Ha _ Hs IH]; try discriminate.
  inversion R; subst a'; intros c s' E.
  destruct s as [|x s].
  - simpl in E; apply (IH eq_refl c s' E).
  - simpl in E; inversion E; subst.
    exists s, t; auto.
Qed.

Lemma deriv_lang (c : char) (r : regex) :
  forall s, lang (deriv c r) s <-> lang r (c :: s).
Proof.
  induction r as [| |p|a IHa b IHb|a IHa b IHb|a IHa]; intros s; simpl.
  - split; intros H; destruct (lang_Void_inv _ H).
  - split; intros H; [destruct (lang_Void_inv _ H)|].
    apply lang_Eps_inv in H; discriminate.
  - destruct (p c) eqn:E; split; intros H.
    + apply lang_Eps_inv in H; subst; constructor; assumption.
    + apply lang_Class_inv in H; destruct H as [c' [E' _]].
      inversion E'; subst; constructor.
    + destruct (lang_Void_inv _ H).
    + apply lang_Class_inv in H; destruct H as [c' [E' P]].
      inversion E'; subst; congruence.
  - assert (Fwd : lang (Seq (deriv c a) b) s -> lang (Seq a b) (c :: s)).
    { intros H; apply lang_Seq_inv in H; destruct H as [s1 [t [E [Ha Hb]]]].
      subst; apply lang_Seq_cons; [apply IHa|]; assumption. }
    assert (Bwd : lang (Seq a b) (c :: s) ->
                  lang (Seq (deriv c a) b) s
                  \/ (lang a [] /\ lang b (c :: s))).
    { intros H; apply lang_Seq_inv in H; destruct H as [s1 [t [E [Ha Hb]]]].
      destruct s1 as [|x s1]; simpl in E.
      - right; subst; auto.
      - inversion E; subst; left; constructor; [apply IHa|]; assumption. }
    destruct (nullable a) eqn:Na.
    + split.
      * intros H; apply lang_Alt_inv in H; destruct H as [H|H]; [auto|].
        change (c :: s) with ([] ++ c :: s); constructor;
          [apply nullable_lang | apply IHb]; assumption.
      * intros H; destruct (Bwd H) as [H'|[_ H']];
          [apply lang_Alt_l | apply lang_Alt_r; apply IHb]; assumption.
    + split; [assumption|].
      intros H; destruct (Bwd H) as [H'|[H' _]]; [assumption|].
      apply nullable_lang in H'; congruence.
  - split; intros H; apply lang_Alt_inv in H; destruct H as [H|H];
      solve [apply lang_Alt_l, IHa; assumption
            | apply lang_Alt_r, IHb; assumption].
  - split.
    + intros H; apply lang_Seq_inv in H; destruct H as [s1 [t [E [Ha Hb]]]].
      subst; change (c :: s1 ++ t) with ((c :: s1) ++ t).
      constructor; [apply IHa|]; assumption.
    + intros H.
      destruct (lang_Star_cons _ _ H c s eq_refl) as [s1 [s2 [E [H1 H2]]]].
      subst; constructor; [apply IHa|]; assumption.
Qed.

(** The anchored test decides the language. *)
Lemma test_anchored_lang (s : jsstring) :
  forall r, test_anchored r s = true <-> lang r s.
Proof.
  induction s as [|c s IH]; intros r; simpl.
  - apply nullable_lang.
  - rewrite IH; apply deriv_lang.
Qed.

Lemma lang_Star_class (p : char -> bool) (s : jsstring) :
  lang (Star (Class p)) s <-> forallb p s = true.
Proof.
  split.
  - intros H; remember (Star (Class p)) as r eqn:R.
    induction H as [| | | | | |a s t Ha _ Hs IH]; try discriminate.
    + reflexivity.
    + inversion R; subst a.
      apply lang_Class_inv in Ha; destruct Ha as [c [E P]]; subst; simpl.
      rewrite P; apply IH; reflexivity.
  - induction s as [|c s IH]; simpl; [constructor|].
    intros H; apply andb_true_iff in H; destruct H as [Hc Hs].
    change (c :: s) with ([c] ++ s); constructor; [constructor|]; auto.
Qed.

Lemma lang_Plus_class (p : char -> bool) (s : jsstring) :
  lang (Plus (Class p)) s <-> s <> [] /\ forallb p s = true.
Proof.
  unfold Plus; split.
  - intros H; apply lang_Seq_inv in H; destruct H as [s1 [t [E [Ha Hb]]]].
    apply lang_Class_inv in Ha; destruct Ha as [c [E' P]]; subst; simpl.
    apply lang_Star_class in Hb.
    rewrite P, Hb; split; [discriminate | reflexivity].
  - intros [N H]; destruct s as [|c s]; [contradiction|].
    simpl in H; apply andb_true_iff in H; destruct H as [Hc Hs].
    change (c :: s) with ([c] ++ s); constructor;
      [constructor | apply lang_Star_class]; assumption.
Qed.

Lemma lang_dot (s : jsstring) : lang (Class (char_eqb DOT)) s <-> s = [DOT].
Proof.
  split.
  - intros H; apply lang_Class_inv in H; destruct H as [c [E P]]; subst.
    unfold char_eqb in P; apply N.eqb_eq in P; subst; reflexivity.
  - intros ->; constructor; reflexivity.
Qed.

Lemma forallb_app_true (p : char -> bool) (s t : jsstring) :
  forallb p s = true -> forallb p t = true -> forallb p (s ++ t) = true.
Proof. intros Hs Ht; rewrite forallb_app, Hs, Ht; reflexivity. Qed.

(** The pattern of the validator accepts [digits '.'? digits*]. *)
Lemma number_pattern_loose (v : jsstring) :
  test_anchored number_pattern v = true <-> loose_number v.
Proof.
  rewrite test_anchored_lang; unfold number_pattern, loose_number, all_digits.
  split.
  - intros H; apply lang_Seq_inv in H; destruct H as [ds [t [E [Hd Ht]]]].
    apply lang_Plus_class in Hd; destruct Hd as [Nd Hd].
    apply lang_Seq_inv in Ht; destruct Ht as [o [fs [E' [Ho Hf]]]].
    apply lang_Star_class in Hf; subst.
    apply lang_Alt_inv in Ho; destruct Ho as [Ho|Ho].
    + apply lang_dot in Ho; subst o.
      exists ds, fs; repeat split; auto.
    + apply lang_Eps_inv in Ho; subst o; simpl.
      exists (ds ++ fs), []; repeat split; auto.
      * intros E; apply app_eq_nil in E; destruct E; contradiction.
      * apply forallb_app_true; assumption.
  - intros [ds [fs [Nd [Hd [Hf [E|E]]]]]]; subst v.
    + rewrite <- (app_nil_r ds); constructor;
        [apply lang_Plus_class; auto|].
      apply lang_Seq_nil; [apply lang_Alt_r; constructor | constructor].
    + constructor; [apply lang_Plus_class; auto|].
      change (DOT :: fs) with ([DOT] ++ fs); constructor;
        [apply lang_Alt_l, lang_dot; reflexivity
        | apply lang_Star_class; assumption].
Qed.

(** The strict pattern accepts [digits ('.' digits)?]. *)
Lemma strict_pattern_strict (v : jsstring) :
  test_anchored strict_number_pattern v = true <-> strict_number v.
Proof.
  rewrite test_anchored_lang.
  unfold strict_number_pattern, strict_number, all_digits.
  split.
  - intros H; apply lang_Seq_inv in H; destruct H as [ds [t [E [Hd Ht]]]].
    apply lang_Plus_class in Hd; destruct Hd as [Nd Hd]; subst.
    apply lang_Alt_inv in Ht; destruct Ht as [Ht|Ht].
    + apply lang_Seq_inv in Ht; destruct Ht as [o [fs [E' [Ho Hf]]]].
      apply lang_dot in Ho; subst.
      apply lang_Plus_class in Hf; destruct Hf as [Nf Hf].
      exists ds, fs; repeat split; auto.
    + apply lang_Eps_inv in Ht; subst; rewrite app_nil_r.
      exists ds, []; repeat split; auto.
  - intros [ds [fs [Nd [Hd [Hf [E|[Nf E]]]]]]]; subst v.
    + rewrite <- (app_nil_r ds); constructor;
        [apply lang_Plus_class; auto | apply lang_Alt_r; constructor].
    + constructor; [apply lang_Plus_class; auto|].
      apply lang_Alt_l.
      change (DOT :: fs) with ([DOT] ++ fs); constructor;
        [apply lang_dot; reflexivity | apply lang_Plus_class; auto].
Qed.
End RegexFacts.

(** * Main results *)

(** ** The tokenizer *)

(** C1, as the code has it. The string scan begun at a quote [q] stops
    only on the first matching unescaped quote or at the end of the text;
    the end of a line does not stop it. The token is a String token at the
    position of the opening quote; it is valid exactly when such a quote
    exists in the rest of the text, and the scan then ends just past it;
    otherwise the scan ends at the end of the text and the token is
    invalid. *)
Theorem string_scan_stops_at_quote_or_end_of_text
  (f : nat) (l : AsteroidLexer.t) (q : char) :
  AsteroidLexer.peek l = Some q ->
  q = DQUOTE \/ q = SQUOTE ->
  LexerSpec.remaining l <= f ->
  exists value valid r,
    AsteroidLexer.nextToken f l =
      Some (Token.mk STRING value (AsteroidLexer.line l)
              (AsteroidLexer.column l) (Some valid), r)
    /\ AsteroidLexer.text r = AsteroidLexer.text l
    /\ match LexerSpec.unescaped_quote q
               (skipn (S (AsteroidLexer.pos l)) (AsteroidLexer.text l)) with
       | Some k => valid = true
                   /\ AsteroidLexer.pos r = AsteroidLexer.pos l + k + 2
       | None => valid = false
                 /\ AsteroidLexer.pos r = length (AsteroidLexer.text l)
       end.
Proof.
  intros P Hq Hf.
  destruct (StringScanFacts.readString_stops q f l P Hf)
    as [value [valid [r [R [T U]]]]].
  exists value, valid, r; split; [|split; assumption].
  unfold AsteroidLexer.nextToken; rewrite P.
  replace (char_eqb q DQUOTE || char_eqb q SQUOTE) with true
    by (destruct Hq; subst; reflexivity).
  rewrite R; reflexivity.
Qed.

Lemma string_scan_stops_at_quote_or_end_of_text_witness :
  AsteroidLexer.peek (AsteroidLexer.new (units "'a'b")) = Some SQUOTE
  /\ (SQUOTE = DQUOTE \/ SQUOTE = SQUOTE)
  /\ LexerSpec.remaining (AsteroidLexer.new (units "'a'b")) <= 4
  /\ exists value valid r,
       AsteroidLexer.nextToken 4 (AsteroidLexer.new (units "'a'b")) =
         Some (Token.mk STRING value 0 0 (Some valid), r)
       /\ AsteroidLexer.text r = units "'a'b"
       /\ valid = true /\ AsteroidLexer.pos r = 3.
Proof.
  split; [reflexivity|].
  split; [right; reflexivity|].
  split; [vm_compute; lia|].
  apply (string_scan_stops_at_quote_or_end_of_text 4
           (AsteroidLexer.new (units "'a'b")) SQUOTE).
  - reflexivity.
  - right; reflexivity.
  - vm_compute; lia.
Defined.

(** C1, as stated, fails: in the text ['ab], newline, [cd'] no closing
    quote stands before the end of the first line, and yet the scan goes on
    over the newline and yields one valid String token. *)
Lemma string_scan_ignores_end_of_line :
  LexerSpec.unescaped_quote_on_line SQUOTE
    (units "ab" ++ [NEWLINE] ++ units "cd'") = None
  /\ AsteroidLexer.tokenize (units "'ab" ++ [NEWLINE] ++ units "cd'") =
       Some [Token.mk STRING (units "ab" ++ [NEWLINE] ++ units "cd") 0 0
               (Some true)].
Proof. split; vm_compute; reflexivity. Qed.

(** C3 at the input [%c], newline, [x]: the comment is skipped up to the
    newline, the newline is not skipped again, and it is pushed as a
    Punctuation token although it is white space. *)
Theorem newline_after_comment_is_a_token :
  is_space NEWLINE = true
  /\ AsteroidLexer.tokenize (units "%c" ++ [NEWLINE] ++ units "x") =
       Some [Token.mk PUNCTUATION [NEWLINE] 0 2 None;
             Token.mk IDENTIFIER (units "x") 1 0 None].
Proof. split; vm_compute; reflexivity. Qed.

(** C10. [tokenize] returns a token sequence on every text: the fuel
    [S (length txt)] is enough and more fuel gives the same sequence. Every
    iteration of its loop entered before the end of the text ends at a
    strictly greater position, still inside the text; so does the scan of
    one token, in each of its branches; and the two skips never move
    backward. *)
Theorem tokenize_terminates (txt : jsstring) :
  (exists toks,
      AsteroidLexer.tokenize txt = Some toks
      /\ forall f, length txt < f ->
                   AsteroidLexer.tokenize_fuel f txt = Some toks)
  /\ (forall f l,
         AsteroidLexer.text l = txt -> AsteroidLexer.pos l < length txt ->
         length txt < f ->
         exists l' pushed,
           AsteroidLexer.iteration f l = Some (l', pushed)
           /\ AsteroidLexer.text l' = txt
           /\ AsteroidLexer.pos l < AsteroidLexer.pos l' <= length txt)
  /\ (forall f l tok l',
         AsteroidLexer.text l = txt -> AsteroidLexer.pos l < length txt ->
         AsteroidLexer.nextToken f l = Some (tok, l') ->
         AsteroidLexer.text l' = txt
         /\ AsteroidLexer.pos l < AsteroidLexer.pos l' <= length txt)
  /\ (forall f l l',
         AsteroidLexer.text l = txt -> AsteroidLexer.pos l <= length txt ->
         AsteroidLexer.skipWhitespace f l = Some l'
         \/ AsteroidLexer.skipComment f l = Some l' ->
         AsteroidLexer.text l' = txt
         /\ AsteroidLexer.pos l <= AsteroidLexer.pos l' <= length txt).
Proof.
  split; [|split; [|split]].
  - destruct (TokenizeFacts.tokenize_total txt) as [toks E].
    exists toks; split; [assumption|].
    intros f Hf; rewrite TokenizeFacts.tokenize_fuel_enough; assumption.
  - intros f l T Hlt Hf; subst txt.
    destruct (TokenizeFacts.iteration_total f l Hlt Hf) as [[l' pushed] I].
    exists l', pushed; split; [assumption|].
    apply TokenizeFacts.iteration_within in I; [|assumption].
    destruct I as [T ?]; split; [assumption | lia].
  - intros f l tok l' T Hlt N; subst txt.
    apply (TokenizeFacts.nextToken_within (AsteroidLexer.text l)
             (AsteroidLexer.pos l)) in N;
      [ | apply LexerFacts.within_refl; lia | assumption ].
    destruct N as [T ?]; split; [assumption | lia].
  - intros f l l' T Hle H; subst txt.
    pose proof (LexerFacts.within_refl l Hle) as W.
    destruct H as [H|H];
      [ apply (LexerFacts.skipWhitespace_within _ _ _ _ _ W) in H
      | apply (LexerFacts.skipComment_within _ _ _ _ _ W) in H ];
      destruct H as [T ?]; (split; [assumption | lia]).
Qed.

Lemma tokenize_terminates_witness :
  AsteroidLexer.text (AsteroidLexer.new (units "let x")) = units "let x"
  /\ AsteroidLexer.pos (AsteroidLexer.new (units "let x"))
     < length (units "let x")
  /\ length (units "let x") < 6
  /\ exists l' pushed,
       AsteroidLexer.iteration 6 (AsteroidLexer.new (units "let x"))
         = Some (l', pushed)
       /\ AsteroidLexer.text l' = units "let x"
       /\ AsteroidLexer.pos (AsteroidLexer.new (units "let x"))
          < AsteroidLexer.pos l' <= length (units "let x").
Proof.
  split; [reflexivity|].
  split; [vm_compute; lia|].
  split; [vm_compute; lia|].
  apply (proj1 (proj2 (tokenize_terminates (units "let x"))) 6
           (AsteroidLexer.new (units "let x")));
    [reflexivity | vm_compute; lia | vm_compute; lia].
Defined.

(** ** The symbol extractor *)

(** The parser returns, and its main table maps a name to the last
    declaration of it. *)
Lemma main_table_lookup (toks : list Token.t) :
  exists info,
    AsteroidParser.parse toks = Some info
    /\ forall name,
         JSMap.get name (DocumentInfo.symbols info) =
         ParserSpec.last_declared name (ParserSpec.declarations toks).
Proof.
  exists (ParserSpec.extend toks AsteroidParser.empty_info).
  split; [apply ParseFacts.parse_extend|].
  intros name; simpl; rewrite TableFacts.get_fold_record.
  destruct (ParserSpec.last_declared name (ParserSpec.declarations toks));
    reflexivity.
Qed.

(** C5. The main table of the document extracted from any token sequence
    holds one Symbol per name at most, and the entry of a name is the
    Symbol of the last declaration of that name, whatever the kinds of the
    declarations. *)
Theorem last_declaration_wins (toks : list Token.t) :
  exists info,
    AsteroidParser.parse toks = Some info
    /\ NoDup (JSMap.keys (DocumentInfo.symbols info))
    /\ forall name,
         JSMap.get name (DocumentInfo.symbols info) =
         ParserSpec.last_declared name (ParserSpec.declarations toks).
Proof.
  exists (ParserSpec.extend toks AsteroidParser.empty_info).
  split; [apply ParseFacts.parse_extend|]; split.
  - apply TableFacts.NoDup_fold_record; constructor.
  - intros name; simpl; rewrite TableFacts.get_fold_record.
    destruct (ParserSpec.last_declared name (ParserSpec.declarations toks));
      reflexivity.
Qed.

(** [let x = 1] and then [let x = 2]: one entry for [x], with the range of
    the second declaration. *)
Example redeclared_variable :
  option_map DocumentInfo.symbols
    (bind (AsteroidLexer.tokenize (units "let x = 1 let x = 2"))
       AsteroidParser.parse)
  = Some [(units "x",
           AsteroidSymbol.mk (units "x") SymbolKind_Variable
             (Range.mk (Position.mk 0 10) (Position.mk 0 15))
             (Range.mk (Position.mk 0 10) (Position.mk 0 15))
             None (Some (units "variable")))].
Proof. vm_compute; reflexivity. Qed.

(** C4, as the code has it. The entry of a name in the functions (resp.
    variables) sub-map is the Symbol of the last function (resp. [let])
    declaration of the name, the entry in the main table the Symbol of its
    last declaration of any kind. So a name of a sub-map is in the main
    table, and the two Symbols are the same exactly when the Symbol of the
    main table is a Function (resp. a Variable). *)
Theorem sub_maps_keep_last_of_their_kind (toks : list Token.t) :
  exists info,
    AsteroidParser.parse toks = Some info
    /\ forall name,
         JSMap.get name (DocumentInfo.functions info) =
           ParserSpec.last_declared name
             (filter ParserSpec.is_function (ParserSpec.declarations toks))
         /\ JSMap.get name (DocumentInfo.variables info) =
              ParserSpec.last_declared name
                (filter ParserSpec.is_variable (ParserSpec.declarations toks))
         /\ (forall s,
               JSMap.get name (DocumentInfo.functions info) = Some s ->
               exists s',
                 JSMap.get name (DocumentInfo.symbols info) = Some s'
                 /\ (AsteroidSymbol.kind s' = SymbolKind_Function <-> s' = s))
         /\ (forall s,
               JSMap.get name (DocumentInfo.variables info) = Some s ->
               exists s',
                 JSMap.get name (DocumentInfo.symbols info) = Some s'
                 /\ (AsteroidSymbol.kind s' = SymbolKind_Variable <-> s' = s)).
Proof.
  exists (ParserSpec.extend toks AsteroidParser.empty_info).
  split; [apply ParseFacts.parse_extend|].
  intros name; simpl; rewrite !TableFacts.get_fold_record.
  assert (E : forall d,
             match ParserSpec.last_declared name d with
             | Some s => Some s
             | None => JSMap.get name (JSMap.empty AsteroidSymbol.t)
             end = ParserSpec.last_declared name d)
    by (intros d; destruct (ParserSpec.last_declared name d); reflexivity).
  rewrite !E; split; [reflexivity|]; split; [reflexivity|]; split.
  - intros s H; apply TableFacts.last_declared_filter in H.
    destruct H as [s' [L I]]; exists s'; split; [assumption|].
    rewrite <- I; unfold ParserSpec.is_function.
    destruct (AsteroidSymbol.kind s'); split; (discriminate || reflexivity).
  - intros s H; apply TableFacts.last_declared_filter in H.
    destruct H as [s' [L I]]; exists s'; split; [assumption|].
    rewrite <- I; unfold ParserSpec.is_variable.
    destruct (AsteroidSymbol.kind s'); split; (discriminate || reflexivity).
Qed.

Lemma sub_maps_keep_last_of_their_kind_witness :
  exists info,
    AsteroidParser.parse
      [Token.mk KEYWORD (units "let") 0 0 None;
       Token.mk IDENTIFIER (units "x") 0 4 None] = Some info
    /\ exists s',
         JSMap.get (units "x") (DocumentInfo.symbols info) = Some s'
         /\ (AsteroidSymbol.kind s' = SymbolKind_Variable <->
             s' = AsteroidSymbol.mk (units "x") SymbolKind_Variable
                    (Range.mk (Position.mk 0 0) (Position.mk 0 5))
                    (Range.mk (Position.mk 0 0) (Position.mk 0 5))
                    None (Some (units "variable"))).
Proof.
  destruct (sub_maps_keep_last_of_their_kind
              [Token.mk KEYWORD (units "let") 0 0 None;
               Token.mk IDENTIFIER (units "x") 0 4 None])
    as [info [P H]].
  exists info; split; [exact P|].
  destruct (H (units "x")) as [_ [V [_ M]]].
  exact (M (AsteroidSymbol.mk (units "x") SymbolKind_Variable
              (Range.mk (Position.mk 0 0) (Position.mk 0 5))
              (Range.mk (Position.mk 0 0) (Position.mk 0 5))
              None (Some (units "variable"))) V).
Defined.

(** C4, as stated, fails: after [let x] and then [function x] the variables
    sub-map still holds the Variable Symbol of [x], and the main table
    holds the Function Symbol. *)
Lemma stale_variable_after_function :
  exists info sv sf,
    bind (AsteroidLexer.tokenize (units "let x function x"))
      AsteroidParser.parse = Some info
    /\ JSMap.get (units "x") (DocumentInfo.variables info) = Some sv
    /\ JSMap.get (units "x") (DocumentInfo.symbols info) = Some sf
    /\ AsteroidSymbol.kind sv = SymbolKind_Variable
    /\ AsteroidSymbol.kind sf = SymbolKind_Function
    /\ sv <> sf.
Proof.
  do 3 eexists.
  split; [lazy; reflexivity|].
  split; [lazy; reflexivity|].
  split; [lazy; reflexivity|].
  split; [reflexivity|]; split; [reflexivity|].
  discriminate.
Qed.

(** C6. Let the tokens at [i] and [i + 1] be a declaration keyword and an
    Identifier. Handling the keyword at [i] stores, under the identifier's
    text, a Symbol whose range starts at the keyword's own line and column
    and ends at the identifier's own line, at its column plus the length of
    its text; and that Symbol is the entry of the final table when no later
    pair of tokens declares the same name. *)
Theorem declaration_range_from_keyword_to_identifier
  (toks : list Token.t) (i : nat) (kw nm : Token.t) :
  nth_error toks i = Some kw ->
  nth_error toks (S i) = Some nm ->
  ParserSpec.declaration_keyword kw ->
  Token.type nm = IDENTIFIER ->
  let range :=
    Range.mk (Position.mk (Token.line kw) (Token.column kw))
      (Position.mk (Token.line nm)
         (Token.column nm + length (Token.value nm))) in
  (forall info,
      exists p' info' symbol,
        AsteroidParser.dispatch kw (AsteroidParser.mk toks i) info
          = Some (p', info')
        /\ JSMap.get (Token.value nm) (DocumentInfo.symbols info')
           = Some symbol
        /\ AsteroidSymbol.name symbol = Token.value nm
        /\ AsteroidSymbol.range symbol = range
        /\ AsteroidSymbol.selectionRange symbol = range)
  /\ ((forall j, i < j -> ~ ParserSpec.declares toks j (Token.value nm)) ->
      exists info symbol,
        AsteroidParser.parse toks = Some info
        /\ JSMap.get (Token.value nm) (DocumentInfo.symbols info)
           = Some symbol
        /\ AsteroidSymbol.name symbol = Token.value nm
        /\ AsteroidSymbol.range symbol = range
        /\ AsteroidSymbol.selectionRange symbol = range).
Proof.
  intros N N' K I range.
  destruct (TableFacts.declared_total kw nm K I) as [s D].
  destruct (TableFacts.declared_Some _ _ _ D)
    as [nm0 [E [_ [_ [Nm [R R']]]]]].
  inversion E; subst nm0; clear E.
  change (ParserSpec.declaration_range kw nm) with range in R, R'.
  split.
  - intros info.
    assert (Sx : ParserSpec.suffix (AsteroidParser.mk toks i)
                 = kw :: skipn (S i) toks).
    { unfold ParserSpec.suffix; simpl.
      rewrite ParserFacts.skipn_nth_error, N; reflexivity. }
    destruct (ParseFacts.dispatch_handled _ info _ _ Sx)
      as [p' [info' [Dp [_ [_ [_ St]]]]]].
    exists p', info', s; split; [assumption|].
    rewrite St, Sx; unfold ParserSpec.stored.
    replace (hd_error (skipn (S i) toks)) with (Some nm)
      by (rewrite ParserFacts.skipn_nth_error, N'; reflexivity).
    rewrite D; unfold ParserSpec.record.
    rewrite Nm, JSMapFacts.get_set_same; auto.
  - intros Last.
    destruct (main_table_lookup toks) as [info [P G]].
    exists info, s; split; [assumption|].
    rewrite G, (TableFacts.last_declared_at toks i kw nm s); auto.
Qed.

Lemma declaration_range_from_keyword_to_identifier_witness :
  let kw := Token.mk KEYWORD (units "function") 0 0 None in
  let nm := Token.mk IDENTIFIER (units "foo") 1 2 None in
  AsteroidLexer.tokenize (units "function" ++ [NEWLINE] ++ units "  foo")
    = Some [kw; nm]
  /\ exists info symbol,
       AsteroidParser.parse [kw; nm] = Some info
       /\ JSMap.get (units "foo") (DocumentInfo.symbols info) = Some symbol
       /\ AsteroidSymbol.name symbol = units "foo"
       /\ AsteroidSymbol.range symbol
          = Range.mk (Position.mk 0 0) (Position.mk 1 5)
       /\ AsteroidSymbol.selectionRange symbol
          = Range.mk (Position.mk 0 0) (Position.mk 1 5).
Proof.
  intros kw nm; split; [vm_compute; reflexivity|].
  refine (proj2 (declaration_range_from_keyword_to_identifier
                   [kw; nm] 0 kw nm eq_refl eq_refl _ eq_refl) _).
  - split; [reflexivity | simpl; auto].
  - intros j Hj [kw' [nm' [_ [H _]]]].
    destruct j as [|[|j]]; [lia | discriminate | discriminate].
Defined.

(** C8. Handling a [load] keyword leaves the three tables as they were.
    When the next token is the keyword [system] and the one after it an
    Identifier, the identifier's text is appended to the import list;
    otherwise the document is left as it was. The validator is silent on
    keywords and identifiers. *)
Theorem load_records_system_module
  (p : AsteroidParser.t) (info : DocumentInfo.t) (loadToken : Token.t) :
  AsteroidParser.peek p = Some loadToken ->
  AsteroidParser.is_keyword loadToken "load" = true ->
  let followed (module : jsstring) : Prop :=
    exists systemToken moduleToken,
      nth_error (AsteroidParser.tokens p) (S (AsteroidParser.pos p))
        = Some systemToken
      /\ Token.type systemToken = KEYWORD
      /\ Token.value systemToken = units "system"
      /\ nth_error (AsteroidParser.tokens p) (S (S (AsteroidParser.pos p)))
         = Some moduleToken
      /\ Token.type moduleToken = IDENTIFIER
      /\ Token.value moduleToken = module in
  (exists p' info',
      AsteroidParser.dispatch loadToken p info = Some (p', info')
      /\ DocumentInfo.symbols info' = DocumentInfo.symbols info
      /\ DocumentInfo.functions info' = DocumentInfo.functions info
      /\ DocumentInfo.variables info' = DocumentInfo.variables info
      /\ ((exists module,
              followed module
              /\ DocumentInfo.imports info'
                 = DocumentInfo.imports info ++ [module])
          \/ ((forall module, ~ followed module) /\ info' = info)))
  /\ (forall toks,
         Forall (fun tok => Token.type tok = KEYWORD
                            \/ Token.type tok = IDENTIFIER) toks ->
         validateDocument toks = []).
Proof.
  intros P K followed; split.
  2:{ intros toks H; apply ValidateFacts.validateDocument_quiet.
      eapply Forall_impl; [|exact H].
      intros tok [E|E]; rewrite E; split; discriminate. }
  pose proof (proj1 (ParserFacts.is_keyword_value _ _) K) as [Ty V].
  unfold AsteroidParser.dispatch; rewrite Ty, V; simpl.
  exists (fst (AsteroidParser.parseLoad p info)),
    (snd (AsteroidParser.parseLoad p info)).
  split; [destruct (AsteroidParser.parseLoad p info); reflexivity|].
  assert (Lt : AsteroidParser.pos p < length (AsteroidParser.tokens p)).
  { unfold AsteroidParser.peek in P.
    destruct (AsteroidParser.pos p <? length (AsteroidParser.tokens p)) eqn:E;
      [apply Nat.ltb_lt in E; assumption | discriminate]. }
  assert (Pk : forall q,
             AsteroidParser.peek (AsteroidParser.mk (AsteroidParser.tokens p) q)
             = nth_error (AsteroidParser.tokens p) q).
  { intros q; unfold AsteroidParser.peek; simpl.
    destruct (q <? length (AsteroidParser.tokens p)) eqn:E; [reflexivity|].
    apply Nat.ltb_ge in E; symmetry; apply nth_error_None; assumption. }
  assert (Ad : forall q,
             q < length (AsteroidParser.tokens p) ->
             snd (AsteroidParser.advance
                    (AsteroidParser.mk (AsteroidParser.tokens p) q))
             = AsteroidParser.mk (AsteroidParser.tokens p) (S q)).
  { intros q Hq; unfold AsteroidParser.advance; simpl.
    apply Nat.ltb_lt in Hq; rewrite Hq; reflexivity. }
  unfold AsteroidParser.parseLoad.
  replace (AsteroidParser.advance p)
    with (AsteroidParser.advance
            (AsteroidParser.mk (AsteroidParser.tokens p)
               (AsteroidParser.pos p)))
    by (destruct p; reflexivity).
  rewrite (surjective_pairing (AsteroidParser.advance _)), (Ad _ Lt), Pk.
  destruct (nth_error (AsteroidParser.tokens p) (S (AsteroidParser.pos p)))
    as [systemToken|] eqn:N1.
  2:{ cbn [fst snd DocumentInfo.symbols DocumentInfo.functions
           DocumentInfo.variables DocumentInfo.imports];
      repeat split; auto.
      right; split; [|reflexivity].
      intros m [s [t [H _]]]; unfold followed in *; congruence. }
  destruct (AsteroidParser.is_keyword systemToken "system") eqn:Ks.
  2:{ cbn [fst snd DocumentInfo.symbols DocumentInfo.functions
           DocumentInfo.variables DocumentInfo.imports];
      repeat split; auto.
      right; split; [|reflexivity].
      intros m [s [t [H [Ts [Vs _]]]]].
      inversion H; subst s.
      assert (AsteroidParser.is_keyword systemToken "system" = true)
        by (apply ParserFacts.is_keyword_value; auto).
      congruence. }
  assert (Lt1 : S (AsteroidParser.pos p) < length (AsteroidParser.tokens p))
    by (apply nth_error_Some; congruence).
  rewrite (surjective_pairing (AsteroidParser.advance _)), (Ad _ Lt1), Pk.
  destruct (nth_error (AsteroidParser.tokens p)
              (S (S (AsteroidParser.pos p)))) as [moduleToken|] eqn:N2.
  2:{ cbn [fst snd DocumentInfo.symbols DocumentInfo.functions
           DocumentInfo.variables DocumentInfo.imports];
      repeat split; auto.
      right; split; [|reflexivity].
      intros m [s [t [_ [_ [_ [H _]]]]]]; congruence. }
  destruct (AsteroidParser.is_identifier moduleToken) eqn:Im.
  - cbn [fst snd DocumentInfo.symbols DocumentInfo.functions
           DocumentInfo.variables DocumentInfo.imports];
      repeat split; auto.
    left; exists (Token.value moduleToken); split; [|reflexivity].
    apply ParserFacts.is_keyword_value in Ks; destruct Ks.
    apply ParserFacts.is_identifier_type in Im.
    exists systemToken, moduleToken; repeat split; auto.
  - cbn [fst snd DocumentInfo.symbols DocumentInfo.functions
           DocumentInfo.variables DocumentInfo.imports];
      repeat split; auto.
    right; split; [|reflexivity].
    intros m [s [t [_ [_ [_ [H [Tt _]]]]]]].
    inversion H; subst t.
    apply ParserFacts.is_identifier_type in Tt; congruence.
Qed.

Lemma load_records_system_module_witness :
  let p :=
    AsteroidParser.new
      [Token.mk KEYWORD (units "load") 0 0 None;
       Token.mk KEYWORD (units "system") 0 5 None;
       Token.mk IDENTIFIER (units "io") 0 12 None] in
  let loadToken := Token.mk KEYWORD (units "load") 0 0 None in
  AsteroidParser.peek p = Some loadToken
  /\ AsteroidParser.is_keyword loadToken "load" = true
  /\ exists p' info',
       AsteroidParser.dispatch loadToken p AsteroidParser.empty_info
         = Some (p', info')
       /\ DocumentInfo.symbols info' = []
       /\ DocumentInfo.imports info' = [units "io"].
Proof.
  intros p loadToken.
  split; [reflexivity|]; split; [reflexivity|].
  destruct (load_records_system_module p AsteroidParser.empty_info loadToken
              eq_refl eq_refl) as [[p' [info' [D [Sy [_ [_ I]]]]]] _].
  exists p', info'; split; [exact D|]; split; [exact Sy|].
  destruct I as [[module [[s [t [_ [_ [_ [Nt [_ Vt]]]]]]] I]]|[No _]].
  - rewrite I; inversion Nt; subst t; rewrite <- Vt; reflexivity.
  - exfalso; apply (No (units "io")).
    exists (Token.mk KEYWORD (units "system") 0 5 None),
      (Token.mk IDENTIFIER (units "io") 0 12 None).
    repeat split; reflexivity.
Defined.

(** [load system io] records ["io"]; [load system] records nothing, and
    no diagnostic is sent for either. *)
Example load_system_io :
  analyzeDocument [] (units "file:///a.ast") (units "load system io")
  = Some ([(units "file:///a.ast",
            DocumentInfo.mk [] [units "io"] [] [])], []).
Proof. vm_compute; reflexivity. Qed.

Example load_system_alone :
  analyzeDocument [] (units "file:///a.ast") (units "load system")
  = Some ([(units "file:///a.ast", DocumentInfo.mk [] [] [] [])], []).
Proof. vm_compute; reflexivity. Qed.

(** ** The validator *)

(** C2, as the code has it. The "Invalid number format" diagnostics of a
    token sequence are, in order, one for each Number token whose text is
    not of the form [digits '.'? digits*], with severity Error and a range
    from the token's column to its column plus the length of its text. *)
Theorem invalid_number_diagnostics (tokens : list Token.t) :
  filter RegexSpec.is_number_diagnostic (validateDocument tokens)
  = List.map invalid_number (filter is_invalid_number tokens)
  /\ (forall token,
         is_invalid_number token = true <->
         Token.type token = NUMBER
         /\ ~ RegexSpec.loose_number (Token.value token))
  /\ (forall token,
         invalid_number token
         = Diagnostic.mk Severity_Error
             (Range.mk
                (Position.mk (Token.line token) (Token.column token))
                (Position.mk (Token.line token)
                   (Token.column token + length (Token.value token))))
             (units "Invalid number format") (units "asteroid-lsp")).
Proof.
  split; [|split].
  - induction tokens as [|token rest IH]; [reflexivity|].
    rewrite ValidateFacts.validateDocument_cons, !filter_app, IH.
    cbn [filter].
    destruct (is_unterminated token), (is_invalid_number token); reflexivity.
  - intros token; unfold is_invalid_number.
    rewrite andb_true_iff, negb_true_iff.
    rewrite <- RegexFacts.number_pattern_loose.
    destruct (test_anchored number_pattern (Token.value token));
      destruct (Token.type token); simpl;
      intuition (discriminate || congruence).
  - reflexivity.
Qed.

Lemma invalid_number_diagnostics_witness :
  is_invalid_number (Token.mk NUMBER (units "1.2.3") 0 0 None) = true
  /\ Token.type (Token.mk NUMBER (units "1.2.3") 0 0 None) = NUMBER
  /\ ~ RegexSpec.loose_number (units "1.2.3").
Proof.
  split; [reflexivity|].
  apply (proj1 (proj1 (proj2 (invalid_number_diagnostics []))
                  (Token.mk NUMBER (units "1.2.3") 0 0 None))).
  reflexivity.
Defined.

(** C2, as stated, fails: the text [1.] is one Number token, it is not of
    the strict form [digits ('.' digits)?], and the validator emits no
    diagnostic for it. *)
Lemma number_with_trailing_dot_passes :
  AsteroidLexer.tokenize (units "1.")
    = Some [Token.mk NUMBER (units "1.") 0 0 None]
  /\ ~ RegexSpec.strict_number (units "1.")
  /\ validateDocument [Token.mk NUMBER (units "1.") 0 0 None] = [].
Proof.
  split; [vm_compute; reflexivity|]; split; [|vm_compute; reflexivity].
  intros H; apply RegexFacts.strict_pattern_strict in H.
  vm_compute in H; discriminate.
Qed.

(** [1.2.3] is one Number token and gets the diagnostic, over its five
    code units. *)
Example number_with_two_dots :
  option_map validateDocument (AsteroidLexer.tokenize (units "1.2.3"))
  = Some [Diagnostic.mk Severity_Error
            (Range.mk (Position.mk 0 0) (Position.mk 0 5))
            (units "Invalid number format") (units "asteroid-lsp")].
Proof. vm_compute; reflexivity. Qed.

(** ** The providers *)

(** C9. Whatever the store and the request, the completion result holds an
    item for each keyword, each builtin function, each system module and
    each Symbol of the document's table, each with its kind and its detail
    string; it has as many items as those lists and that table together,
    so at least as many as the three fixed lists; and it is the same for
    any two cursor positions. *)
Theorem completion_holds_all_fixed_items
  (documentInfos : JSMap.t DocumentInfo.t)
  (params : TextDocumentPositionParams.t) :
  let result := onCompletion documentInfos params in
  let uri := TextDocumentPositionParams.uri params in
  (forall keyword,
      In keyword KEYWORDS ->
      In (CompletionItem.mk keyword CompletionItemKind_Keyword
            (units "Asteroid keyword: " ++ keyword)) result)
  /\ (forall func,
         In func BUILTIN_FUNCTIONS ->
         In (CompletionItem.mk func CompletionItemKind_Function
               (units "Built-in function: " ++ func)) result)
  /\ (forall module,
         In module SYSTEM_MODULES ->
         In (CompletionItem.mk module CompletionItemKind_Module
               (units "System module: " ++ module)) result)
  /\ (forall docInfo name symbol,
         JSMap.get uri documentInfos = Some docInfo ->
         In (name, symbol) (DocumentInfo.symbols docInfo) ->
         In (CompletionItem.mk (AsteroidSymbol.name symbol)
               (match AsteroidSymbol.kind symbol with
                | SymbolKind_Function => CompletionItemKind_Function
                | SymbolKind_Variable => CompletionItemKind_Variable
                | SymbolKind_Struct => CompletionItemKind_Class
                end)
               (interpolate (AsteroidSymbol.type symbol) ++ units ": "
                  ++ AsteroidSymbol.name symbol)) result)
  /\ length result
     = length KEYWORDS + length BUILTIN_FUNCTIONS + length SYSTEM_MODULES
       + match JSMap.get uri documentInfos with
         | Some docInfo => JSMap.size (DocumentInfo.symbols docInfo)
         | None => 0
         end
  /\ length KEYWORDS + length BUILTIN_FUNCTIONS + length SYSTEM_MODULES
     <= length result
  /\ (forall line character,
         onCompletion documentInfos
           (TextDocumentPositionParams.mk uri line character) = result).
Proof.
  intros result uri.
  assert (R : result
              = List.map keyword_item KEYWORDS
                ++ List.map builtin_item BUILTIN_FUNCTIONS
                ++ List.map module_item SYSTEM_MODULES
                ++ match JSMap.get uri documentInfos with
                   | Some docInfo =>
                       List.map symbol_item
                         (JSMap.values (DocumentInfo.symbols docInfo))
                   | None => []
                   end)
    by apply CompletionFacts.onCompletion_items.
  assert (L : length result
              = length KEYWORDS + length BUILTIN_FUNCTIONS
                + length SYSTEM_MODULES
                + match JSMap.get uri documentInfos with
                  | Some docInfo => JSMap.size (DocumentInfo.symbols docInfo)
                  | None => 0
                  end).
  { rewrite R, !length_app, !length_map.
    destruct (JSMap.get uri documentInfos); unfold JSMap.values, JSMap.size;
      rewrite ?length_map; simpl; lia. }
  refine (conj _ (conj _ (conj _ (conj _ (conj L (conj _ _)))))).
  - intros keyword H; rewrite R; apply in_or_app; left.
    apply (in_map keyword_item); assumption.
  - intros func H; rewrite R; apply in_or_app; right; apply in_or_app; left.
    apply (in_map builtin_item); assumption.
  - intros module H; rewrite R.
    apply in_or_app; right; apply in_or_app; right; apply in_or_app; left.
    apply (in_map module_item); assumption.
  - intros docInfo name symbol G H; rewrite R, G.
    apply in_or_app; right; apply in_or_app; right; apply in_or_app; right.
    apply (in_map symbol_item (JSMap.values (DocumentInfo.symbols docInfo))
             symbol).
    unfold JSMap.values; change symbol with (snd (name, symbol)).
    apply in_map; assumption.
  - rewrite L; lia.
  - intros line character; rewrite R.
    apply CompletionFacts.onCompletion_items.
Qed.

Lemma completion_holds_all_fixed_items_witness :
  In (units "and") KEYWORDS
  /\ In (CompletionItem.mk (units "and") CompletionItemKind_Keyword
           (units "Asteroid keyword: and"))
       (onCompletion [] (TextDocumentPositionParams.mk (units "a") 0 0)).
Proof.
  split; [left; reflexivity|].
  apply (proj1 (completion_holds_all_fixed_items []
                  (TextDocumentPositionParams.mk (units "a") 0 0))
           (units "and")).
  left; reflexivity.
Defined.

(** Hovering anywhere inside [factorial123] resolves the whole word. *)
Example hover_inside_factorial123 (character : Z) :
  (4 <= character < 16)%Z ->
  word_at_cursor (units "let factorial123 = 5") 0 character
  = Some (Some (units "factorial123")).
Proof.
  intros H.
  assert (E : In character [4; 5; 6; 7; 8; 9; 10; 11; 12; 13; 14; 15]%Z)
    by (simpl; lia).
  simpl in E.
  repeat (destruct E as [<-|E]; [vm_compute; reflexivity|]).
  contradiction.
Qed.

(** After the analysis of [function factorial123 with n do end], hovering
    anywhere inside [factorial123] describes that function, over the range
    of the whole word. *)
Example hover_describes_factorial123 (character : Z) :
  (9 <= character < 21)%Z ->
  let uri := units "file:///a.ast" in
  let text := units "function factorial123 with n do end" in
  option_map
    (fun r => onHover [(uri, text)] (fst r)
                (TextDocumentPositionParams.mk uri 0 character))
    (analyzeDocument [] uri text)
  = Some (Some (Some (Hover.mk (units "**factorial123** - function")
                        (Range.mk (Position.mk 0 9) (Position.mk 0 21))))).
Proof.
  intros H.
  assert (E : In character
                [9; 10; 11; 12; 13; 14; 15; 16; 17; 18; 19; 20]%Z)
    by (simpl; lia).
  simpl in E.
  repeat (destruct E as [<-|E]; [vm_compute; reflexivity|]).
  contradiction.
Qed.

(** * Further properties *)

(** ** What every function of the lexer keeps *)

Module KeepFacts.
Import AsteroidLexer LexerSpec LexerFacts ReaderFacts.

Section AdvanceClosed.
Variable I : t -> Prop.
Hypothesis I_advance : forall l, I l -> I (advance l).

Lemma advance_loop_keeps (cond : t -> bool) (f : nat) (l r : t) :
  I l -> while f cond advance l = Some r -> I r.
Proof.
  intros Hl H.
  apply (while_inv _ cond advance I) in H; [tauto | | assumption].
  intros s Hs _; apply I_advance; assumption.
Qed.

Lemma skipWhitespace_keeps (f : nat) (l r : t) :
  I l -> skipWhitespace f l = Some r -> I r.
Proof. apply advance_loop_keeps. Qed.

Lemma skipComment_keeps (f : nat) (l r : t) :
  I l -> skipComment f l = Some r -> I r.
Proof.
  unfold skipComment; destruct (peek_is l (char_eqb PERCENT)).
  - apply advance_loop_keeps.
  - intros H E; inversion E; subst; assumption.
Qed.

Lemma readString_body_keeps (s : t * jsstring) :
  I (fst s) -> I (fst (readString_body s)).
Proof.
  destruct s as [l v]; unfold readString_body; simpl; intros H.
  destruct (peek_is l (char_eqb BACKSLASH)).
  - destruct (peek (advance l)); simpl; auto.
  - destruct (peek l); simpl; auto.
Qed.

Lemma read_body_keeps (s : t * jsstring) :
  I (fst s) -> I (fst (read_body s)).
Proof.
  destruct s as [l v]; unfold read_body; simpl; intros H.
  destruct (peek l); simpl; auto.
Qed.

Lemma readString_keeps (f : nat) (l r : t) (value : jsstring)
  (valid : bool) :
  I l -> readString f l = Some (value, valid, r) -> I r.
Proof.
  intros Hl; rewrite readString_unfold.
  intros H; apply bind_Some in H; destruct H as [[l1 v] [W H]].
  apply (while_inv _ _ _ (fun s => I (fst s))) in W;
    [ | intros s Hs _; apply readString_body_keeps; assumption
      | simpl; auto ].
  destruct W as [W _]; simpl in W.
  destruct (peek l1) as [c|], (peek l) as [q|];
    [destruct (char_eqb c q)| | |]; inversion H; subst; auto.
Qed.

Lemma read_class_keeps (p : char -> bool) (f : nat) (l r : t)
  (value : jsstring) :
  I l -> read_class p f l = Some (value, r) -> I r.
Proof.
  intros Hl; unfold read_class.
  intros H; apply bind_Some in H; destruct H as [[l1 v] [W H]].
  apply (while_inv _ _ _ (fun s => I (fst s))) in W;
    [ | intros s Hs _; apply read_body_keeps; assumption | simpl; auto ].
  destruct W as [W _]; inversion H; subst; assumption.
Qed.

Lemma advance_n_keeps (n : nat) (l : t) : I l -> I (advance_n n l).
Proof. revert l; induction n as [|n IH]; simpl; auto. Qed.

Lemma nextToken_keeps (f : nat) (l r : t) (tok : Token.t) :
  I l -> nextToken f l = Some (tok, r) -> I r.
Proof.
  intros Hl; unfold nextToken.
  destruct (peek l) as [c|];
    [|intros H; inversion H; subst; auto].
  destruct (char_eqb c DQUOTE || char_eqb c SQUOTE).
  { intros H; apply bind_Some in H; destruct H as [[[v b] l1] [R H]].
    inversion H; subst; eapply readString_keeps; eauto. }
  destruct (is_digit c).
  { rewrite readNumber_class.
    intros H; apply bind_Some in H; destruct H as [[v l1] [R H]].
    inversion H; subst; eapply read_class_keeps; eauto. }
  destruct (is_ident_start c).
  { rewrite readIdentifier_class.
    intros H; apply bind_Some in H; destruct H as [[v l1] [R H]].
    inversion H; subst; eapply read_class_keeps; eauto. }
  destruct (char_eqb c AT_SIGN).
  { intros H; inversion H; subst; auto. }
  destruct (match_operator operators l);
    intros H; inversion H; subst; auto using advance_n_keeps.
Qed.

(** An iteration that pushes a token: the two skips, then the token. *)
Lemma iteration_pushes (f : nat) (l r : t) (tok : Token.t) :
  iteration f l = Some (r, Some tok) ->
  exists l1 l2,
    skipWhitespace f l = Some l1 /\ skipComment f l1 = Some l2
    /\ pos l2 < length (text l2) /\ nextToken f l2 = Some (tok, r).
Proof.
  unfold iteration; intros H.
  apply bind_Some in H; destruct H as [l1 [W H]].
  apply bind_Some in H; destruct H as [l2 [C H]].
  destruct (length (text l2) <=? pos l2) eqn:E; [discriminate|].
  apply Nat.leb_gt in E.
  apply bind_Some in H; destruct H as [[tok' l3] [N H]].
  inversion H; subst; eauto 6.
Qed.

Lemma iteration_keeps (f : nat) (l r : t) (tok : Token.t) :
  I l -> iteration f l = Some (r, Some tok) -> I r.
Proof.
  intros Hl H; apply iteration_pushes in H.
  destruct H as [l1 [l2 [W [C [_ N]]]]].
  eapply nextToken_keeps; [|eassumption].
  eapply skipComment_keeps; [|eassumption].
  eapply skipWhitespace_keeps; eassumption.
Qed.

(** What holds of every token an iteration pushes holds of every token of
    the loop. *)
Lemma tokenize_loop_Forall (P : Token.t -> Prop) (f : nat) :
  (forall l r tok, I l -> iteration f l = Some (r, Some tok) -> P tok) ->
  forall n l tokens result,
    I l -> Forall P tokens ->
    tokenize_loop f n l tokens = Some result -> Forall P result.
Proof.
  intros Step; induction n as [|n IH]; intros l tokens result Hl Ht H;
    [discriminate|].
  simpl in H; destruct (pos l <? length (text l)).
  - apply bind_Some in H; destruct H as [[l1 pushed] [It H]].
    destruct pushed as [tok|]; [|inversion H; subst; assumption].
    apply (IH l1 (tokens ++ [tok]) result); auto.
    + eapply iteration_keeps; eassumption.
    + apply Forall_app; split; [assumption|].
      constructor; [|constructor]; eapply Step; eassumption.
  - inversion H; subst; assumption.
Qed.
End AdvanceClosed.
End KeepFacts.

(** ** Lines and columns *)

Module PositionFacts.
Import AsteroidLexer LexerSpec LexerFacts ReaderFacts PositionSpec.

Lemma firstn_S_nth_error (A : Type) (l : list A) (n : nat) (x : A) :
  nth_error l n = Some x -> firstn (S n) l = firstn n l ++ [x].
Proof.
  revert n; induction l as [|y l IH]; intros [|n] H; simpl in *;
    try discriminate.
  - inversion H; reflexivity.
  - rewrite (IH n H); reflexivity.
Qed.

Lemma count_newlines_snoc (s : jsstring) (c : char) :
  count_newlines (s ++ [c]) =
  count_newlines s + (if char_eqb c NEWLINE then 1 else 0).
Proof.
  unfold count_newlines; rewrite filter_app, length_app; cbn [filter].
  replace (char_eqb NEWLINE c) with (char_eqb c NEWLINE)
    by apply N.eqb_sym.
  destruct (char_eqb c NEWLINE); reflexivity.
Qed.

Lemma char_eqb_eq (a b : char) : char_eqb a b = true <-> a = b.
Proof. apply N.eqb_eq. Qed.

(** [advance] keeps the line and the column in step with the offset. *)
Lemma located_advance (l : t) : located l -> located (advance l).
Proof.
  unfold located, position_of, advance.
  intros [L [C [R S]]].
  destruct (nth_error (text l) (pos l)) as [c|] eqn:N.
  - destruct (char_eqb c NEWLINE) eqn:E; cbn [text pos line column];
      rewrite (firstn_S_nth_error _ _ _ _ N), count_newlines_snoc, E.
    + apply char_eqb_eq in E; subst c.
      split; [lia|]; split; [lia|]; split; [intros i Hi; lia|].
      right.
      replace (Datatypes.S (pos l) - 0 - 1) with (pos l) by lia.
      assumption.
    + split; [lia|]; split; [lia|]; split.
      * intros i Hi; destruct (Nat.eq_dec i (pos l)) as [->|].
        -- rewrite N; intros H; inversion H; subst.
           unfold char_eqb in E; rewrite N.eqb_refl in E; discriminate.
        -- apply R; lia.
      * destruct S as [S|S]; [left; lia | right].
        replace (Datatypes.S (pos l) - Datatypes.S (column l) - 1)
          with (pos l - column l - 1) by lia.
        assumption.
  - cbn [text pos line column].
    assert (Le : length (text l) <= pos l) by (apply nth_error_None; auto).
    rewrite !firstn_all2 in * by lia.
    split; [assumption|]; split; [lia|]; split.
    + intros i Hi; destruct (Nat.eq_dec i (pos l)) as [->|].
      * rewrite N; discriminate.
      * apply R; lia.
    + destruct S as [S|S]; [left; lia | right].
      replace (Datatypes.S (pos l) - Datatypes.S (column l) - 1)
        with (pos l - column l - 1) by lia.
      assumption.
Qed.

Lemma located_new (txt : jsstring) : located (new txt).
Proof.
  unfold located, position_of; simpl.
  split; [reflexivity|]; split; [lia|]; split; [intros i Hi; lia | auto].
Qed.
End PositionFacts.

(** ** The text of a token *)

Module TokenTextFacts.
Import AsteroidLexer LexerSpec LexerFacts ReaderFacts TokenizeFacts.
Import PositionSpec PositionFacts.

Lemma substr_S (txt : jsstring) (a k : nat) (c : char) :
  nth_error txt (a + k) = Some c ->
  substr txt a (S k) = substr txt a k ++ [c].
Proof.
  intros H; unfold substr; apply firstn_S_nth_error.
  rewrite nth_error_skipn; assumption.
Qed.

Lemma length_substr (txt : jsstring) (a k : nat) :
  a + k <= length txt -> length (substr txt a k) = k.
Proof.
  intros H; unfold substr; rewrite length_firstn, length_skipn; lia.
Qed.

Lemma substr_peek (l : t) (c : char) :
  peek l = Some c -> substr (text l) (pos l) 1 = [c].
Proof.
  intros P; unfold substr; rewrite (StringScanFacts.skipn_peek _ _ P).
  reflexivity.
Qed.

(** The loop of [readNumber] and [readIdentifier] reads the longest run of
    the class, and its value is the text it has passed. *)
Lemma read_loop_value (p : char -> bool) (f : nat) (l0 r : t)
  (v0 v : jsstring) :
  pos l0 <= length (text l0) ->
  while f (class_cond p) read_body (l0, v0) = Some (r, v) ->
  text r = text l0
  /\ pos l0 <= pos r <= length (text l0)
  /\ v = v0 ++ substr (text l0) (pos l0) (pos r - pos l0)
  /\ forallb p (substr (text l0) (pos l0) (pos r - pos l0)) = true
  /\ peek_is r p = false.
Proof.
  intros Hle W.
  apply (while_inv _ _ _
           (fun s =>
              text (fst s) = text l0
              /\ pos l0 <= pos (fst s) <= length (text l0)
              /\ snd s = v0 ++ substr (text l0) (pos l0)
                                 (pos (fst s) - pos l0)
              /\ forallb p (substr (text l0) (pos l0)
                              (pos (fst s) - pos l0)) = true)) in W.
  - destruct W as [[T [B [V F]]] C]; simpl in *; auto 6.
  - intros [l v'] [T [B [V F]]] C; cbn [fst snd] in *.
    unfold class_cond, peek_is in C; cbn [fst] in C.
    destruct (peek l) as [c|] eqn:P; [|discriminate].
    pose proof (peek_Some _ _ P) as [Lt N].
    unfold read_body; rewrite P; cbn [fst snd].
    rewrite advance_pos, advance_text, T in *.
    replace (S (pos l) - pos l0) with (S (pos l - pos l0)) by lia.
    assert (N' : nth_error (text l0) (pos l0 + (pos l - pos l0)) = Some c)
      by (replace (pos l0 + (pos l - pos l0)) with (pos l) by lia;
          assumption).
    rewrite (substr_S _ _ _ _ N'), forallb_app, F, V; simpl.
    rewrite C, app_assoc; repeat split; auto; lia.
  - simpl; rewrite Nat.sub_diag; unfold substr; simpl.
    rewrite app_nil_r; repeat split; auto; lia.
Qed.

Lemma read_class_value (p : char -> bool) (f : nat) (l r : t)
  (value : jsstring) :
  pos l < length (text l) -> peek_is l p = true ->
  read_class p f l = Some (value, r) ->
  value <> []
  /\ substr (text l) (pos l) (length value) = value
  /\ forallb p value = true
  /\ pos r = pos l + length value
  /\ peek_is r p = false.
Proof.
  intros Hlt C H.
  pose proof (read_class_within p (text l) (pos l) f l value r
                (within_refl l (Nat.lt_le_incl _ _ Hlt)) C H) as [_ B].
  unfold read_class in H; apply bind_Some in H.
  destruct H as [[l1 v] [W H]]; inversion H; subst; clear H.
  apply read_loop_value in W; [|lia].
  destruct W as [T [B' [V [F E]]]]; simpl in V; subst value.
  assert (L : length (substr (text l) (pos l) (pos r - pos l))
              = pos r - pos l) by (apply length_substr; lia).
  rewrite L; repeat split; auto; try lia.
  intros Z; rewrite Z in L; simpl in L; lia.
Qed.

(** The token scanned at a position: where it says it stands, and what
    text it holds. *)
Lemma nextToken_content (f : nat) (l r : t) (tok : Token.t) :
  pos l < length (text l) -> nextToken f l = Some (tok, r) ->
  Token.line tok = line l /\ Token.column tok = column l
  /\ match Token.type tok with
     | STRING =>
         nth_error (text l) (pos l) = Some DQUOTE
         \/ nth_error (text l) (pos l) = Some SQUOTE
     | _ =>
         Token.value tok <> []
         /\ substr (text l) (pos l) (length (Token.value tok)) = Token.value tok
     end.
Proof.
  intros Hlt; unfold nextToken.
  destruct (peek l) as [c|] eqn:P; [|apply peek_None in P; lia].
  pose proof (peek_Some _ _ P) as [_ N].
  destruct (char_eqb c DQUOTE || char_eqb c SQUOTE) eqn:Q.
  { intros H; apply bind_Some in H; destruct H as [[[v b] l1] [R H]].
    inversion H; subst; simpl; repeat split; auto.
    apply orb_true_iff in Q; destruct Q as [Q|Q];
      apply char_eqb_eq in Q; subst c; auto. }
  destruct (is_digit c) eqn:D.
  { rewrite readNumber_class.
    intros H; apply bind_Some in H; destruct H as [[v l1] [R H]].
    apply (read_class_value is_number_char f l l1 v Hlt) in R;
      [|unfold peek_is; rewrite P; apply is_digit_number_char; assumption].
    inversion H; subst; simpl; repeat split; tauto. }
  destruct (is_ident_start c) eqn:I.
  { rewrite readIdentifier_class.
    intros H; apply bind_Some in H; destruct H as [[v l1] [R H]].
    apply (read_class_value is_word f l l1 v Hlt) in R;
      [|unfold peek_is; rewrite P; apply is_ident_start_word; assumption].
    cbv zeta in H; destruct (includes KEYWORDS v); inversion H; subst;
      cbn [Token.type Token.value Token.line Token.column];
      repeat split; tauto. }
  destruct (char_eqb c AT_SIGN) eqn:A.
  { intros H; inversion H; subst; simpl.
    apply char_eqb_eq in A; subst c.
    repeat split; [discriminate | apply (substr_peek _ _ P)]. }
  destruct (match_operator operators l) as [op|] eqn:M.
  - intros H; inversion H; subst; simpl.
    pose proof (operator_fits _ _ M) as [L _].
    apply match_operator_Some in M; destruct M as [_ M].
    repeat split; [|assumption].
    intros Z; rewrite Z in L; discriminate.
  - intros H; inversion H; subst; simpl.
    repeat split; [discriminate | apply (substr_peek _ _ P)].
Qed.
(** The token scanned at a position takes as many code units as its text
    has, and a run of digits and dots, or of word code units, is taken to
    its end. *)
Lemma nextToken_consumes (f : nat) (l r : t) (tok : Token.t) :
  pos l < length (text l) -> nextToken f l = Some (tok, r) ->
  match Token.type tok with
  | STRING => pos l + length (Token.value tok) < pos r
  | NUMBER =>
      pos r = pos l + length (Token.value tok)
      /\ peek_is r is_number_char = false
  | IDENTIFIER | KEYWORD =>
      pos r = pos l + length (Token.value tok) /\ peek_is r is_word = false
  | _ => pos r = pos l + length (Token.value tok)
  end.
Proof.
  intros Hlt; unfold nextToken.
  destruct (peek l) as [c|] eqn:P; [|apply peek_None in P; lia].
  destruct (char_eqb c DQUOTE || char_eqb c SQUOTE) eqn:Q.
  { intros H; apply bind_Some in H; destruct H as [[[v b] l1] [R H]].
    inversion H; subst; cbn [Token.type Token.value].
    rewrite readString_unfold in R; apply bind_Some in R.
    destruct R as [[l2 v'] [W R]].
    apply (while_inv _ _ _
             (fun s => S (pos l) + length (snd s) <= pos (fst s)))
      in W; [| |cbn [fst snd length]; rewrite advance_pos; lia].
    - destruct W as [W _]; cbn [fst snd] in W.
      destruct (peek l2) as [c2|], (peek l) as [q|];
        [destruct (char_eqb c2 q)| | |]; inversion R; subst;
        rewrite ?advance_pos; lia.
    - intros [l3 v3] I _; cbn [fst snd] in I; unfold readString_body.
      destruct (peek_is l3 (char_eqb BACKSLASH)).
      + destruct (peek (advance l3)); cbn [fst snd];
          rewrite ?length_app, ?advance_pos; cbn [length]; lia.
      + destruct (peek l3); cbn [fst snd];
          rewrite ?length_app, ?advance_pos; cbn [length]; lia. }
  destruct (is_digit c) eqn:D.
  { rewrite readNumber_class.
    intros H; apply bind_Some in H; destruct H as [[v l1] [R H]].
    apply (read_class_value is_number_char f l l1 v Hlt) in R;
      [|unfold peek_is; rewrite P; apply is_digit_number_char; assumption].
    inversion H; subst; cbn [Token.type Token.value]; tauto. }
  destruct (is_ident_start c) eqn:I.
  { rewrite readIdentifier_class.
    intros H; apply bind_Some in H; destruct H as [[v l1] [R H]].
    apply (read_class_value is_word f l l1 v Hlt) in R;
      [|unfold peek_is; rewrite P; apply is_ident_start_word; assumption].
    cbv zeta in H; destruct (includes KEYWORDS v); inversion H; subst;
      cbn [Token.type Token.value]; tauto. }
  destruct (char_eqb c AT_SIGN) eqn:A.
  { intros H; inversion H; subst; cbn [Token.type Token.value].
    rewrite advance_pos; simpl; lia. }
  destruct (match_operator operators l) as [op|] eqn:M.
  - intros H; inversion H; subst; cbn [Token.type Token.value].
    rewrite advance_n_pos; lia.
  - intros H; inversion H; subst; cbn [Token.type Token.value].
    rewrite advance_pos; simpl; lia.
Qed.
End TokenTextFacts.

(** ** Results on the tokenizer *)

(** X1. Every token of [tokenize] stands at an offset of the text whose line
    and column are the token's: as many newlines stand before the offset as
    the token's line says, and the token's column counts the code units
    back to the previous newline, or to the start of the text. The text at
    that offset is the token's text, or the opening quote of a String
    token. *)
Theorem tokens_stand_at_their_positions (txt : jsstring) :
  exists toks,
    AsteroidLexer.tokenize txt = Some toks
    /\ Forall (fun tok => exists p, PositionSpec.token_at txt tok p) toks.
Proof.
  destruct (TokenizeFacts.tokenize_total txt) as [toks E].
  exists toks; split; [assumption|].
  apply (KeepFacts.tokenize_loop_Forall
           (fun l => PositionSpec.located l /\ AsteroidLexer.text l = txt))
    with (f := S (length txt)) (n := S (length txt))
         (l := AsteroidLexer.new txt) (tokens := []);
    [ | | split; [apply PositionFacts.located_new | reflexivity]
      | constructor | exact E ].
  - intros l [L T]; split;
      [apply PositionFacts.located_advance; assumption|].
    rewrite LexerFacts.advance_text; assumption.
  - intros l r tok Hl It.
    assert (Adv : forall l0 : AsteroidLexer.t,
               PositionSpec.located l0 /\ AsteroidLexer.text l0 = txt ->
               PositionSpec.located (AsteroidLexer.advance l0)
               /\ AsteroidLexer.text (AsteroidLexer.advance l0) = txt).
    { intros l0 [L T]; split;
        [apply PositionFacts.located_advance; assumption|].
      rewrite LexerFacts.advance_text; assumption. }
    apply KeepFacts.iteration_pushes in It.
    destruct It as [l1 [l2 [W [C [Lt N]]]]].
    pose proof (KeepFacts.skipWhitespace_keeps _ Adv _ _ _ Hl W) as H1.
    pose proof (KeepFacts.skipComment_keeps _ Adv _ _ _ H1 C) as [L2 T2].
    destruct (TokenTextFacts.nextToken_content _ _ _ _ Lt N) as [Ln [Cl Ct]].
    exists (AsteroidLexer.pos l2); unfold PositionSpec.token_at.
    rewrite Ln, Cl, <- T2; auto.
Qed.

(** X2. The scan of one token passes as many code units as the token's
    text has: it is the text between the two positions. A Number takes
    every digit and dot that follows, an Identifier or Keyword every word
    code unit. A String token passes more than its value has, by the
    quotes and the backslashes. *)
Theorem token_takes_its_text (f : nat) (l r : AsteroidLexer.t)
  (tok : Token.t) :
  AsteroidLexer.pos l < length (AsteroidLexer.text l) ->
  AsteroidLexer.nextToken f l = Some (tok, r) ->
  match Token.type tok with
  | STRING =>
      AsteroidLexer.pos l + length (Token.value tok) < AsteroidLexer.pos r
  | NUMBER =>
      AsteroidLexer.pos r = AsteroidLexer.pos l + length (Token.value tok)
      /\ AsteroidLexer.peek_is r is_number_char = false
  | IDENTIFIER | KEYWORD =>
      AsteroidLexer.pos r = AsteroidLexer.pos l + length (Token.value tok)
      /\ AsteroidLexer.peek_is r is_word = false
  | _ =>
      AsteroidLexer.pos r = AsteroidLexer.pos l + length (Token.value tok)
  end
  /\ (Token.type tok <> STRING ->
      substr (AsteroidLexer.text l) (AsteroidLexer.pos l)
        (AsteroidLexer.pos r - AsteroidLexer.pos l) = Token.value tok).
Proof.
  intros Hlt N.
  pose proof (TokenTextFacts.nextToken_consumes f l r tok Hlt N) as C.
  pose proof (TokenTextFacts.nextToken_content f l r tok Hlt N)
    as [_ [_ T]].
  split; [exact C|].
  intros Ty; destruct (Token.type tok); try contradiction;
    destruct T as [_ T];
    match goal with
    | C : _ /\ _ |- _ => destruct C as [C _]
    | _ => idtac
    end;
    rewrite C, Nat.add_comm, Nat.add_sub; exact T.
Qed.

Lemma token_takes_its_text_witness :
  let l := AsteroidLexer.new (units "12.5+x") in
  let r := AsteroidLexer.mk (units "12.5+x") 4 0 4 in
  AsteroidLexer.pos l < length (AsteroidLexer.text l)
  /\ AsteroidLexer.nextToken 7 l
     = Some (Token.mk NUMBER (units "12.5") 0 0 None, r)
  /\ AsteroidLexer.pos r = 4
  /\ AsteroidLexer.peek_is r is_number_char = false.
Proof.
  intros l r.
  assert (Lt : AsteroidLexer.pos l < length (AsteroidLexer.text l))
    by (vm_compute; lia).
  assert (N : AsteroidLexer.nextToken 7 l
              = Some (Token.mk NUMBER (units "12.5") 0 0 None, r))
    by (vm_compute; reflexivity).
  split; [exact Lt|]; split; [exact N|].
  exact (proj1 (token_takes_its_text 7 l r _ Lt N)).
Defined.

(** ** The shape of tokens *)

Module ShapeFacts.
Import AsteroidLexer LexerSpec LexerFacts ReaderFacts TokenizeFacts.
Import PositionFacts TokenTextFacts TokenSpec.

(** After the two skips the lexer is at the end of the text or on a code
    unit that is no [%] and no white space, the newline that ends a comment
    apart. *)
Lemma skips_start (f : nat) (l l1 l2 : t) (c : char) :
  skipWhitespace f l = Some l1 -> skipComment f l1 = Some l2 ->
  peek l2 = Some c ->
  c <> PERCENT /\ (is_space c = true -> c = NEWLINE).
Proof.
  intros W C P.
  apply (while_inv _ _ _ (fun _ => True)) in W; [|auto|auto].
  destruct W as [_ W]; unfold skipComment in C.
  destruct (peek_is l1 (char_eqb PERCENT)) eqn:E.
  - apply (while_inv _ _ _ (fun _ => True)) in C; [|auto|auto].
    destruct C as [_ C]; unfold peek_is in C; rewrite P in C.
    apply negb_false_iff, char_eqb_eq in C; subst c.
    split; [discriminate | reflexivity].
  - inversion C; subst l2; unfold peek_is in *; rewrite P in *.
    split; [|congruence].
    intros ->; unfold char_eqb in E; rewrite N.eqb_refl in E; discriminate.
Qed.

Lemma head_of_value (l : t) (c : char) (value : jsstring) :
  peek l = Some c -> value <> [] ->
  substr (text l) (pos l) (length value) = value ->
  exists rest, value = c :: rest.
Proof.
  intros P N S; destruct value as [|x rest]; [contradiction|].
  unfold substr in S; rewrite (StringScanFacts.skipn_peek _ _ P) in S.
  simpl in S; inversion S; eauto.
Qed.

Lemma read_class_shape (p : char -> bool) (f : nat) (l r : t) (c : char)
  (value : jsstring) :
  peek l = Some c -> p c = true ->
  read_class p f l = Some (value, r) ->
  exists rest, value = c :: rest /\ forallb p rest = true.
Proof.
  intros P Pc R; pose proof (peek_Some _ _ P) as [Lt _].
  apply read_class_value in R;
    [ | assumption | unfold peek_is; rewrite P; assumption ].
  destruct R as [N [S [F _]]].
  destruct (head_of_value _ _ _ P N S) as [rest ->].
  exists rest; split; [reflexivity|].
  simpl in F; apply andb_true_iff in F; tauto.
Qed.

Lemma char_eqb_false (a b : char) : char_eqb a b = false -> a <> b.
Proof.
  intros E ->; unfold char_eqb in E; rewrite N.eqb_refl in E; discriminate.
Qed.

Lemma nextToken_shape (f : nat) (l r : t) (tok : Token.t) (c : char) :
  peek l = Some c ->
  c <> PERCENT /\ (is_space c = true -> c = NEWLINE) ->
  nextToken f l = Some (tok, r) -> token_shape tok.
Proof.
  intros P [NP Sp]; unfold nextToken, token_shape; rewrite P.
  destruct (char_eqb c DQUOTE || char_eqb c SQUOTE) eqn:Q.
  { intros H; apply bind_Some in H; destruct H as [[[v b] l1] [R H]].
    inversion H; subst; cbn [Token.type Token.valid]; eauto. }
  apply orb_false_iff in Q; destruct Q as [Q1 Q2].
  destruct (is_digit c) eqn:D.
  { rewrite readNumber_class.
    intros H; apply bind_Some in H; destruct H as [[v l1] [R H]].
    apply (read_class_shape is_number_char _ _ _ c) in R;
      [ | assumption | apply is_digit_number_char; assumption ].
    destruct R as [rest [-> F]].
    inversion H; subst; cbn [Token.type Token.valid Token.value]; eauto 6. }
  destruct (is_ident_start c) eqn:I.
  { rewrite readIdentifier_class.
    intros H; apply bind_Some in H; destruct H as [[v l1] [R H]].
    apply (read_class_shape is_word _ _ _ c) in R;
      [ | assumption | apply is_ident_start_word; assumption ].
    destruct R as [rest [E F]].
    cbv zeta in H; destruct (includes KEYWORDS v) eqn:K;
      inversion H; subst;
      cbn [Token.type Token.valid Token.value]; rewrite ?K; eauto 8. }
  destruct (char_eqb c AT_SIGN) eqn:A.
  { intros H; inversion H; subst; cbn [Token.type Token.valid Token.value].
    auto. }
  destruct (match_operator operators l) as [op|] eqn:M.
  - intros H; inversion H; subst; cbn [Token.type Token.valid Token.value].
    apply match_operator_Some in M; tauto.
  - intros H; inversion H; subst; cbn [Token.type Token.valid Token.value].
    split; [reflexivity|]; exists c.
    repeat split; auto using char_eqb_false.
Qed.
Lemma tokenize_loop_shape (f n : nat) (l : t) (tokens result : list Token.t) :
  Forall token_shape tokens ->
  tokenize_loop f n l tokens = Some result -> Forall token_shape result.
Proof.
  intros Ht H.
  apply (KeepFacts.tokenize_loop_Forall (fun _ => True)) with (P := token_shape)
    in H; auto.
  intros l0 r tok _ It.
  apply KeepFacts.iteration_pushes in It.
  destruct It as [l1 [l2 [W [C [Lt N]]]]].
  destruct (peek_lt _ Lt) as [c P].
  eapply nextToken_shape; [exact P | | exact N].
  eapply skips_start; eassumption.
Qed.

Lemma tokenize_shape (txt : jsstring) (toks : list Token.t) :
  tokenize txt = Some toks -> Forall token_shape toks.
Proof.
  intros H; unfold tokenize, tokenize_fuel in H.
  eapply tokenize_loop_shape; [|exact H]; constructor.
Qed.
End ShapeFacts.

(** X3. Every token of [tokenize] has the shape of its kind: a Number is a
    digit followed by digits and dots; an Identifier is a letter or
    underscore followed by word code units and is no reserved word; a
    Keyword is a reserved word; an At token is [@]; an Operator is one of
    the six two-character operators; a Punctuation token is one code unit
    that is none of the above, never [%], and white space only when it is a
    newline; the validity flag is set on String tokens and on no other. *)
Theorem tokens_have_the_shape_of_their_kind (txt : jsstring) :
  exists toks,
    AsteroidLexer.tokenize txt = Some toks
    /\ Forall TokenSpec.token_shape toks.
Proof.
  destruct (TokenizeFacts.tokenize_total txt) as [toks E].
  exists toks; split; [assumption|].
  apply (ShapeFacts.tokenize_shape txt); assumption.
Qed.

(** ** Blank texts, the number of tokens, unterminated strings *)

Module CountFacts.
Import AsteroidLexer LexerSpec LexerFacts ReaderFacts TokenizeFacts.

Lemma skipWhitespace_stops (f : nat) (l r : t) :
  skipWhitespace f l = Some r -> peek_is r is_space = false.
Proof.
  intros W; apply (while_inv _ _ _ (fun _ => True)) in W; tauto.
Qed.

Lemma iteration_blank (f : nat) (l : t) :
  forallb is_space (text l) = true -> pos l <= length (text l) ->
  length (text l) < f ->
  exists r, iteration f l = Some (r, None).
Proof.
  intros B Hle Hf; unfold iteration.
  pose proof (within_refl l Hle) as W0.
  destruct (skipWhitespace_total _ _ f l W0) as [l1 W]; [lia|].
  rewrite W; cbn [bind].
  pose proof (skipWhitespace_within _ _ _ _ _ W0 W) as [T1 B1].
  pose proof (skipWhitespace_stops _ _ _ W) as S1.
  assert (P1 : peek l1 = None).
  { destruct (peek l1) as [c|] eqn:P; [|reflexivity].
    unfold peek_is in S1; rewrite P in S1.
    apply peek_Some in P; destruct P as [_ P]; apply nth_error_In in P.
    rewrite T1, forallb_forall in *; rewrite (B c P) in S1; discriminate. }
  unfold skipComment, peek_is; rewrite P1; cbn [bind].
  apply peek_None in P1; apply Nat.leb_le in P1; rewrite P1; eauto.
Qed.

(** The tokens pushed are no more than the code units passed. *)
Lemma tokenize_loop_count (f n : nat) :
  forall l tokens result,
    pos l <= length (text l) ->
    tokenize_loop f n l tokens = Some result ->
    length result + pos l <= length tokens + length (text l).
Proof.
  induction n as [|n IH]; intros l tokens result Hle H; [discriminate|].
  simpl in H; destruct (pos l <? length (text l)) eqn:E.
  - apply Nat.ltb_lt in E.
    apply bind_Some in H; destruct H as [[l1 pushed] [It H]].
    apply iteration_within in It; [|assumption].
    destruct It as [T B].
    destruct pushed as [tok|]; [|inversion H; subst; lia].
    apply IH in H; [|rewrite T; lia].
    rewrite length_app, T in H; simpl in H; lia.
  - inversion H; subst; lia.
Qed.

(** A String token without its closing quote ends the text. *)
Lemma readString_invalid_ends (f : nat) (l r : t) (q : char)
  (value : jsstring) :
  peek l = Some q -> readString f l = Some (value, false, r) ->
  peek r = None.
Proof.
  intros P; rewrite readString_unfold, P.
  intros H; apply bind_Some in H; destruct H as [[l1 v] [W H]].
  apply (while_inv _ _ _ (fun _ => True)) in W; [|auto|auto].
  destruct W as [_ C]; unfold string_cond in C; cbn [fst] in C.
  destruct (peek l1) as [c|] eqn:P1.
  - apply negb_false_iff in C; rewrite C in H; inversion H.
  - inversion H; subst; assumption.
Qed.

Lemma nextToken_unterminated_ends (f : nat) (l r : t) (tok : Token.t) :
  nextToken f l = Some (tok, r) -> is_unterminated tok = true ->
  peek r = None.
Proof.
  unfold nextToken, is_unterminated.
  destruct (peek l) as [c|] eqn:P;
    [|intros H; inversion H; subst; discriminate].
  destruct (char_eqb c DQUOTE || char_eqb c SQUOTE).
  { intros H; apply bind_Some in H; destruct H as [[[v b] l1] [R H]].
    inversion H; subst; cbn [Token.type Token.valid TokenType_eqb andb].
    destruct b; [discriminate|].
    intros _; eapply readString_invalid_ends; eassumption. }
  destruct (is_digit c).
  { intros H; apply bind_Some in H; destruct H as [[v l1] [R H]].
    inversion H; subst; discriminate. }
  destruct (is_ident_start c).
  { intros H; apply bind_Some in H; destruct H as [[v l1] [R H]].
    cbv zeta in H; destruct (includes KEYWORDS v);
      inversion H; subst; discriminate. }
  destruct (char_eqb c AT_SIGN);
    [intros H; inversion H; subst; discriminate|].
  destruct (match_operator operators l);
    intros H; inversion H; subst; discriminate.
Qed.

Lemma tokenize_loop_unterminated (f n : nat) :
  forall l tokens result,
    Forall (fun tok => is_unterminated tok = false) tokens ->
    tokenize_loop f n l tokens = Some result ->
    Forall (fun tok => is_unterminated tok = false) (removelast result).
Proof.
  induction n as [|n IH]; intros l tokens result Ht H; [discriminate|].
  assert (Rl : forall ts : list Token.t,
             Forall (fun tok => is_unterminated tok = false) ts ->
             Forall (fun tok => is_unterminated tok = false) (removelast ts)).
  { intros ts F; rewrite Forall_forall in *.
    intros x Hx; apply F.
    destruct ts as [|t ts]; [destruct Hx|].
    rewrite (app_removelast_last t) at 1 by discriminate.
    apply in_or_app; auto. }
  simpl in H; destruct (pos l <? length (text l)).
  2:{ inversion H; subst; auto. }
  apply bind_Some in H; destruct H as [[l1 pushed] [It H]].
  destruct pushed as [tok|]; [|inversion H; subst; auto].
  destruct (is_unterminated tok) eqn:U.
  - apply KeepFacts.iteration_pushes in It.
    destruct It as [l' [l2 [_ [_ [_ N]]]]].
    pose proof (nextToken_unterminated_ends _ _ _ _ N U) as P.
    apply peek_None in P.
    destruct n as [|n]; [discriminate|]; simpl in H.
    replace (pos l1 <? length (text l1)) with false in H
      by (symmetry; apply Nat.ltb_ge; assumption).
    inversion H; subst; rewrite removelast_last; assumption.
  - apply (IH l1 (tokens ++ [tok])); [|assumption].
    apply Forall_app; split; [assumption | repeat constructor; assumption].
Qed.
Lemma filter_none (A : Type) (f : A -> bool) (l : list A) :
  Forall (fun x => f x = false) l -> filter f l = [].
Proof.
  induction 1 as [|x l Hx _ IH]; [reflexivity|].
  simpl; rewrite Hx; assumption.
Qed.
End CountFacts.

(** X4. A text of white space only has no tokens. *)
Theorem blank_text_has_no_tokens (txt : jsstring) :
  forallb is_space txt = true -> AsteroidLexer.tokenize txt = Some [].
Proof.
  intros B; unfold AsteroidLexer.tokenize, AsteroidLexer.tokenize_fuel.
  cbn [AsteroidLexer.tokenize_loop].
  destruct (AsteroidLexer.pos (AsteroidLexer.new txt)
            <? length (AsteroidLexer.text (AsteroidLexer.new txt)));
    [|reflexivity].
  destruct (CountFacts.iteration_blank (S (length txt))
              (AsteroidLexer.new txt)) as [r It];
    [assumption | simpl; lia | simpl; lia |].
  rewrite It; reflexivity.
Qed.

Lemma blank_text_has_no_tokens_witness :
  forallb is_space (units "  " ++ [NEWLINE; 160%N]) = true
  /\ AsteroidLexer.tokenize (units "  " ++ [NEWLINE; 160%N]) = Some [].
Proof.
  split; [reflexivity|].
  apply (blank_text_has_no_tokens (units "  " ++ [NEWLINE; 160%N])).
  reflexivity.
Defined.

(** X5. [tokenize] makes no more tokens than the text has code units. *)
Theorem tokens_are_no_more_than_code_units (txt : jsstring) :
  exists toks,
    AsteroidLexer.tokenize txt = Some toks /\ length toks <= length txt.
Proof.
  destruct (TokenizeFacts.tokenize_total txt) as [toks E].
  exists toks; split; [assumption|].
  apply CountFacts.tokenize_loop_count in E; simpl in *; lia.
Qed.

(** X6. Only the last token of a text can be a String token without its
    closing quote, so the validator sends one "Unterminated string literal"
    diagnostic for a text at most. *)
Theorem unterminated_string_is_last (txt : jsstring) :
  exists toks,
    AsteroidLexer.tokenize txt = Some toks
    /\ (forall before tok after,
           toks = before ++ tok :: after -> is_unterminated tok = true ->
           after = [])
    /\ length (filter is_unterminated toks) <= 1.
Proof.
  destruct (TokenizeFacts.tokenize_total txt) as [toks E].
  exists toks; split; [assumption|].
  apply CountFacts.tokenize_loop_unterminated in E; [|constructor].
  split.
  - intros before tok after -> U.
    destruct after as [|a after]; [reflexivity|exfalso].
    rewrite Forall_forall in E.
    assert (In tok (removelast (before ++ tok :: a :: after))).
    { rewrite removelast_app by discriminate.
      apply in_or_app; right; simpl; auto. }
    rewrite (E tok H) in U; discriminate.
  - destruct toks as [|t toks]; [simpl; lia|].
    rewrite (app_removelast_last t (l := t :: toks)) by discriminate.
    rewrite filter_app, length_app.
    replace (filter is_unterminated (removelast (t :: toks))) with
      (@nil Token.t).
    + simpl; destruct (is_unterminated _); simpl; lia.
    + symmetry; apply CountFacts.filter_none; assumption.
Qed.

(** ** Numbers, strings and the validator *)

Module NumberFacts.
Import RegexSpec ValidateSpec.

Lemma digit_not_dot (c : char) : is_digit c = true -> char_eqb DOT c = false.
Proof.
  unfold is_digit, in_range, char_eqb, DOT; intros H.
  apply andb_true_iff in H; destruct H as [H _].
  apply N.leb_le in H; apply N.eqb_neq; lia.
Qed.

Lemma number_char_cases (c : char) :
  is_number_char c = true -> is_digit c = true \/ c = DOT.
Proof.
  unfold is_number_char; intros H; apply orb_true_iff in H.
  destruct H as [H|H]; [auto | right; apply N.eqb_eq; assumption].
Qed.

Lemma dots_cons (c : char) (s : jsstring) :
  dots (c :: s) = (if char_eqb DOT c then 1 else 0) + dots s.
Proof.
  unfold dots; cbn [filter]; destruct (char_eqb DOT c); reflexivity.
Qed.

Lemma dots_dot (s : jsstring) : dots (DOT :: s) = S (dots s).
Proof. rewrite dots_cons; reflexivity. Qed.

Lemma all_digits_cons (c : char) (s : jsstring) :
  all_digits (c :: s) <-> is_digit c = true /\ all_digits s.
Proof. unfold all_digits; cbn [forallb]; apply andb_true_iff. Qed.

Lemma dots_digits (s : jsstring) : all_digits s -> dots s = 0.
Proof.
  induction s as [|c s IH]; [reflexivity|].
  intros H; apply all_digits_cons in H; destruct H as [Hc Hs].
  rewrite dots_cons, (digit_not_dot _ Hc); auto.
Qed.

Lemma dots_app (a b : jsstring) : dots (a ++ b) = dots a + dots b.
Proof. unfold dots; rewrite filter_app, length_app; reflexivity. Qed.

Lemma no_dots_digits (s : jsstring) :
  forallb is_number_char s = true -> dots s = 0 -> all_digits s.
Proof.
  induction s as [|c s IH]; [reflexivity|].
  cbn [forallb]; intros H D; apply andb_true_iff in H; destruct H as [Hc Hs].
  destruct (number_char_cases _ Hc) as [Dc| ->].
  - rewrite dots_cons, (digit_not_dot _ Dc) in D.
    apply all_digits_cons; auto.
  - rewrite dots_dot in D; discriminate.
Qed.

Lemma one_dot_split (s : jsstring) :
  forallb is_number_char s = true -> dots s <= 1 ->
  all_digits s
  \/ exists a b, s = a ++ DOT :: b /\ all_digits a /\ all_digits b.
Proof.
  induction s as [|c s IH]; [left; reflexivity|].
  cbn [forallb]; intros H D; apply andb_true_iff in H; destruct H as [Hc Hs].
  destruct (number_char_cases _ Hc) as [Dc| ->].
  - rewrite dots_cons, (digit_not_dot _ Dc) in D.
    destruct (IH Hs D) as [A|[a [b [-> [Aa Ab]]]]].
    + left; apply all_digits_cons; auto.
    + right; exists (c :: a), b; repeat split; auto.
      apply all_digits_cons; auto.
  - rewrite dots_dot in D.
    right; exists [], s; repeat split; auto.
    apply no_dots_digits; [assumption | lia].
Qed.

(** For the text of a Number token the pattern of the validator says: one
    dot at most. *)
Lemma loose_number_dots (d : char) (rest : jsstring) :
  is_digit d = true -> forallb is_number_char rest = true ->
  loose_number (d :: rest) <-> dots (d :: rest) <= 1.
Proof.
  intros Dd Hr; split.
  - intros [ds [fs [_ [Hd [Hf [E|E]]]]]]; rewrite E.
    + rewrite dots_digits; auto.
    + rewrite dots_app, (dots_digits ds Hd), dots_dot, (dots_digits fs Hf).
      lia.
  - intros D.
    destruct (one_dot_split (d :: rest)) as [A|[a [b [E [Aa Ab]]]]]; auto.
    + cbn [forallb]; unfold is_number_char at 1; rewrite Dd; assumption.
    + exists (d :: rest), []; repeat split; auto; discriminate.
    + exists a, b; repeat split; auto.
      intros ->; cbn [app] in E; inversion E; subst.
      discriminate Dd.
Qed.
End NumberFacts.

Module StringValueFacts.
Import AsteroidLexer LexerSpec LexerFacts ReaderFacts StringScanFacts.
Import TokenSpec.

(** The loop of [readString] appends the unescaped content, and stops on
    the closing quote when there is one. *)
Lemma string_loop_value (q : char) (f : nat) :
  forall (l l' : t) (v v' : jsstring),
    pos l <= length (text l) ->
    while f (string_cond (Some q)) readString_body (l, v) = Some (l', v') ->
    v' = v ++ unescape q (skipn (pos l) (text l))
    /\ match unescaped_quote q (skipn (pos l) (text l)) with
       | Some _ => peek l' = Some q
       | None => peek l' = None
       end.
Proof.
  induction f as [|f IH]; intros l l' v v' Hle W; [discriminate|].
  cbn [while] in W; unfold string_cond at 1 in W; cbn [fst] in W.
  destruct (peek l) as [c|] eqn:P.
  2:{ inversion W; subst; rewrite (skipn_past _ P); simpl.
      rewrite app_nil_r; auto. }
  rewrite (skipn_peek _ _ P); cbn [unescape unescaped_quote].
  pose proof (peek_Some _ _ P) as [Hlt _].
  destruct (char_eqb c q) eqn:Q; cbn [negb] in W.
  { inversion W; subst; rewrite app_nil_r.
    apply PositionFacts.char_eqb_eq in Q; subst c; auto. }
  rewrite (readString_body_at _ v _ P) in W.
  destruct (char_eqb c BACKSLASH).
  - destruct (peek (advance l)) as [c2|] eqn:P2.
    + pose proof (peek_Some _ _ P2) as [Hlt2 _].
      pose proof (skipn_peek _ _ P2) as S2.
      rewrite advance_pos, advance_text in *.
      apply IH in W; [|rewrite !advance_pos, !advance_text; lia].
      rewrite !advance_pos, !advance_text in W; rewrite S2.
      destruct W as [-> W]; rewrite <- app_assoc; split; [reflexivity|].
      destruct (unescaped_quote q (skipn (S (S (pos l))) (text l)));
        assumption.
    + pose proof (skipn_past _ P2) as S2.
      rewrite advance_pos, advance_text in S2.
      apply IH in W; [|rewrite advance_pos, advance_text; lia].
      rewrite advance_pos, advance_text, S2 in W; rewrite S2; assumption.
  - apply IH in W; [|rewrite advance_pos, advance_text; lia].
    rewrite advance_pos, advance_text in W.
    destruct W as [-> W]; rewrite <- app_assoc; split; [reflexivity|].
    destruct (unescaped_quote q (skipn (S (pos l)) (text l))); assumption.
Qed.

Lemma readString_value (q : char) (f : nat) (l r : t) (value : jsstring)
  (valid : bool) :
  peek l = Some q -> readString f l = Some (value, valid, r) ->
  value = unescape q (skipn (S (pos l)) (text l))
  /\ (valid = true <->
      unescaped_quote q (skipn (S (pos l)) (text l)) <> None).
Proof.
  intros P; pose proof (peek_Some _ _ P) as [Hlt _].
  rewrite readString_unfold, P.
  intros H; apply bind_Some in H; destruct H as [[l1 v] [W H]].
  apply string_loop_value in W; [|rewrite advance_pos, advance_text; lia].
  rewrite advance_pos, advance_text in W; destruct W as [V W].
  simpl in V; subst v.
  destruct (unescaped_quote q (skipn (S (pos l)) (text l))) as [k|];
    rewrite W in H.
  - unfold char_eqb in H; rewrite N.eqb_refl in H.
    inversion H; subst; split; [reflexivity|].
    split; [discriminate | reflexivity].
  - inversion H; subst; split; [reflexivity|].
    split; [discriminate | intros N; contradiction].
Qed.

(** A content without quote and backslash is its own unescaped content, and
    the quote after it closes the literal. *)
Lemma unescape_plain (q : char) (content rest : jsstring) :
  Forall (fun c => c <> q /\ c <> BACKSLASH) content ->
  unescape q (content ++ q :: rest) = content
  /\ unescaped_quote q (content ++ q :: rest) = Some (length content).
Proof.
  induction 1 as [|c content [Nq Nb] _ [IH1 IH2]]; cbn [app unescape
    unescaped_quote length].
  - unfold char_eqb; rewrite N.eqb_refl; auto.
  - replace (char_eqb c q) with false
      by (symmetry; apply N.eqb_neq; assumption).
    replace (char_eqb c BACKSLASH) with false
      by (symmetry; apply N.eqb_neq; assumption).
    rewrite IH1, IH2; auto.
Qed.
End StringValueFacts.

(** X7. The value of a String token is the content of the literal with
    each escaping backslash dropped and the code unit after it kept as it
    is. A literal whose content has neither the quote nor a backslash, and
    is followed by the quote, gives that content, as a valid token. *)
Theorem string_value_is_unescaped_content
  (f : nat) (l r : AsteroidLexer.t) (q : char) (tok : Token.t) :
  AsteroidLexer.peek l = Some q ->
  q = DQUOTE \/ q = SQUOTE ->
  AsteroidLexer.nextToken f l = Some (tok, r) ->
  Token.type tok = STRING
  /\ Token.value tok
     = TokenSpec.unescape q
         (skipn (S (AsteroidLexer.pos l)) (AsteroidLexer.text l))
  /\ (forall content rest,
         skipn (S (AsteroidLexer.pos l)) (AsteroidLexer.text l)
         = content ++ q :: rest ->
         Forall (fun c => c <> q /\ c <> BACKSLASH) content ->
         Token.value tok = content /\ Token.valid tok = Some true).
Proof.
  intros P Hq; unfold AsteroidLexer.nextToken; rewrite P.
  replace (char_eqb q DQUOTE || char_eqb q SQUOTE) with true
    by (destruct Hq; subst; reflexivity).
  intros H; apply bind_Some in H; destruct H as [[[v b] l1] [R H]].
  inversion H; subst; cbn [Token.type Token.value Token.valid].
  destruct (StringValueFacts.readString_value _ _ _ _ _ _ P R) as [V B].
  split; [reflexivity|]; split; [assumption|].
  intros content rest E F.
  destruct (StringValueFacts.unescape_plain q content rest F) as [U1 U2].
  rewrite E, U1, U2 in *; split; [assumption|].
  f_equal; apply B; discriminate.
Qed.

Lemma string_value_is_unescaped_content_witness :
  let l := AsteroidLexer.new (units "'a\'b' c") in
  AsteroidLexer.peek l = Some SQUOTE
  /\ (SQUOTE = DQUOTE \/ SQUOTE = SQUOTE)
  /\ exists r,
       AsteroidLexer.nextToken 9 l
       = Some (Token.mk STRING (units "a'b") 0 0 (Some true), r)
       /\ Token.value (Token.mk STRING (units "a'b") 0 0 (Some true))
          = TokenSpec.unescape SQUOTE (units "a\'b' c").
Proof.
  intros l; split; [reflexivity|]; split; [right; reflexivity|].
  eexists; split; [vm_compute; reflexivity|].
  refine (proj1 (proj2 (string_value_is_unescaped_content 9 l _ SQUOTE _
                          eq_refl (or_intror eq_refl) _))).
  vm_compute; reflexivity.
Defined.

(** X8. The validator reports a Number token of [tokenize] exactly when
    its text has two dots or more. *)
Theorem lexed_number_is_invalid_with_two_dots (txt : jsstring) :
  exists toks,
    AsteroidLexer.tokenize txt = Some toks
    /\ Forall (fun tok =>
                 Token.type tok = NUMBER ->
                 (is_invalid_number tok = true <->
                  2 <= ValidateSpec.dots (Token.value tok))) toks.
Proof.
  destruct (TokenizeFacts.tokenize_total txt) as [toks E].
  exists toks; split; [assumption|].
  eapply Forall_impl; [|apply (ShapeFacts.tokenize_shape txt); assumption].
  intros tok Sh Ty; unfold TokenSpec.token_shape in Sh; rewrite Ty in Sh.
  destruct Sh as [_ [d [rest [V [Dd Hr]]]]].
  unfold is_invalid_number; rewrite Ty, V; cbn [TokenType_eqb andb].
  rewrite negb_true_iff.
  pose proof (NumberFacts.loose_number_dots d rest Dd Hr) as L.
  rewrite <- RegexFacts.number_pattern_loose in L.
  destruct (test_anchored number_pattern (d :: rest)); split; intros H;
    try discriminate; try reflexivity.
  - assert (ValidateSpec.dots (d :: rest) <= 1) by (apply L; reflexivity).
    lia.
  - destruct (le_lt_dec (ValidateSpec.dots (d :: rest)) 1) as [Le|Lt];
      [|lia].
    apply L in Le; discriminate.
Qed.

(** ** Results on the validator *)

(** X9. The validator goes token by token: the diagnostics of two token
    sequences in a row are those of the first and then those of the
    second; a token gives one diagnostic at most; and each diagnostic is an
    Error of the server on one line, starting at the position of a token of
    the sequence. *)
Theorem validator_goes_token_by_token (tokens more : list Token.t) :
  validateDocument (tokens ++ more)
  = validateDocument tokens ++ validateDocument more
  /\ length (validateDocument tokens) <= length tokens
  /\ Forall (fun d =>
               exists tok,
                 In tok tokens /\ ValidateSpec.diagnostic_of tok d)
       (validateDocument tokens).
Proof.
  split; [|split].
  - induction tokens as [|tok rest IH]; [reflexivity|].
    cbn [app]; rewrite !ValidateFacts.validateDocument_cons, IH.
    rewrite <- !app_assoc; reflexivity.
  - induction tokens as [|tok rest IH]; [simpl; lia|].
    rewrite ValidateFacts.validateDocument_cons, !length_app.
    unfold is_unterminated, is_invalid_number.
    destruct (Token.type tok); simpl;
      repeat match goal with
             | |- context [match ?x with _ => _ end] => destruct x; simpl
             end; lia.
  - induction tokens as [|tok rest IH]; [constructor|].
    rewrite ValidateFacts.validateDocument_cons.
    apply Forall_app; split; [|apply Forall_app; split].
    + destruct (is_unterminated tok); constructor; [|constructor].
      exists tok; split; [left; reflexivity|].
      unfold ValidateSpec.diagnostic_of; simpl; repeat split; lia.
    + destruct (is_invalid_number tok); constructor; [|constructor].
      exists tok; split; [left; reflexivity|].
      unfold ValidateSpec.diagnostic_of; simpl; repeat split; lia.
    + eapply Forall_impl; [|exact IH].
      intros d [t [Hin D]]; exists t; split; [right; assumption|assumption].
Qed.

(** X10. The "Unterminated string literal" diagnostics of a token sequence
    are, in order, one for each String token whose validity flag is
    [false], from the token's column to one past the end of its value. *)
Theorem unterminated_string_diagnostics (tokens : list Token.t) :
  filter ValidateSpec.is_string_diagnostic (validateDocument tokens)
  = List.map unterminated_string (filter is_unterminated tokens)
  /\ (forall token,
         is_unterminated token = true <->
         Token.type token = STRING /\ Token.valid token = Some false)
  /\ (forall token,
         unterminated_string token
         = Diagnostic.mk Severity_Error
             (Range.mk
                (Position.mk (Token.line token) (Token.column token))
                (Position.mk (Token.line token)
                   (Token.column token + length (Token.value token) + 1)))
             (units "Unterminated string literal") (units "asteroid-lsp")).
Proof.
  split; [|split].
  - induction tokens as [|token rest IH]; [reflexivity|].
    rewrite ValidateFacts.validateDocument_cons, !filter_app, IH.
    cbn [filter].
    destruct (is_unterminated token), (is_invalid_number token); reflexivity.
  - intros token; unfold is_unterminated.
    destruct (Token.type token), (Token.valid token) as [[|]|]; simpl;
      intuition (discriminate || congruence).
  - reflexivity.
Qed.

(** ** Results on the symbol extractor *)

Module ExtractFacts.
Import AsteroidParser ParserSpec ParserFacts ParseFacts TableFacts TableSpec.

Lemma loaded_Some (tok : Token.t) (rest : list Token.t) (module : jsstring) :
  loaded tok rest = Some module <->
  is_keyword tok "load" = true
  /\ exists systemToken moduleToken rest',
       rest = systemToken :: moduleToken :: rest'
       /\ is_keyword systemToken "system" = true
       /\ Token.type moduleToken = IDENTIFIER
       /\ Token.value moduleToken = module.
Proof.
  unfold loaded; split.
  - destruct (is_keyword tok "load"); [|discriminate].
    destruct rest as [|s [|t rest']]; try discriminate.
    destruct (is_keyword s "system") eqn:Ks; [|discriminate].
    destruct (is_identifier t) eqn:It; [|discriminate].
    intros H; inversion H; subst; split; [reflexivity|].
    apply is_identifier_type in It; eauto 8.
  - intros [K [s [t [rest' [-> [Ks [It <-]]]]]]].
    apply is_identifier_type in It; rewrite K, Ks, It; reflexivity.
Qed.

(** The loads are those of the triples of tokens. *)
Lemma loads_In (toks : list Token.t) (module : jsstring) :
  In module (loads toks) <-> exists i, loads_at toks i module.
Proof.
  induction toks as [|tok rest IH]; simpl.
  - split; [tauto|].
    intros [i [l [s [t [H _]]]]]; destruct i; discriminate.
  - split.
    + intros H.
      assert (C : loaded tok rest = Some module
                  \/ In module (loads rest)).
      { destruct (loaded tok rest) as [m|] eqn:L; [|auto].
        destruct H as [<-|H]; auto. }
      destruct C as [L|H'].
      * apply loaded_Some in L.
        destruct L as [K [s [t [rest' [-> [Ks [It V]]]]]]].
        exists 0, tok, s, t; repeat split; auto.
      * apply IH in H'; destruct H' as [i [l [s [t H']]]].
        exists (S i), l, s, t; exact H'.
    + intros [[|i] [l [s [t [Nl [Ns [Nt [K [Ks [It V]]]]]]]]]].
      * change (nth_error (tok :: rest) 1) with (nth_error rest 0) in Ns.
        change (nth_error (tok :: rest) 2) with (nth_error rest 1) in Nt.
        inversion Nl; subst l.
        destruct rest as [|s' [|t' rest']]; try discriminate.
        inversion Ns; inversion Nt; subst.
        replace (loaded tok (s :: t :: rest'))
          with (Some (Token.value t))
          by (symmetry; apply loaded_Some; eauto 9).
        left; reflexivity.
      * assert (H : In module (loads rest)).
        { apply IH; exists i, l, s, t; repeat split; auto. }
        destruct (loaded tok rest); simpl; auto.
Qed.

Lemma declared_ok (kw : Token.t) (next : option Token.t)
  (s : AsteroidSymbol.t) :
  declared kw next = Some s -> symbol_ok s.
Proof.
  destruct next as [nm|]; simpl; [|discriminate].
  destruct (is_identifier nm); [|discriminate].
  destruct (is_keyword kw "function");
    [intros H; inversion H; subst; repeat split|].
  destruct (is_keyword kw "let");
    [intros H; inversion H; subst; repeat split|].
  destruct (is_keyword kw "struct") eqn:K1.
  { intros H; inversion H; subst; repeat split; simpl.
    apply is_keyword_value in K1; left; f_equal; tauto. }
  destruct (is_keyword kw "data") eqn:K2; [|discriminate].
  intros H; inversion H; subst; repeat split; simpl.
  apply is_keyword_value in K2; right; f_equal; tauto.
Qed.

(** An entry of a table made of declarations is one of them, under its
    own name. *)
Lemma In_fold_record (decls : list AsteroidSymbol.t) (k : jsstring)
  (s : AsteroidSymbol.t) :
  In (k, s) (fold_left record decls (JSMap.empty AsteroidSymbol.t)) ->
  In s decls /\ AsteroidSymbol.name s = k.
Proof.
  intros H; apply JSMapFacts.In_get in H;
    [|apply NoDup_fold_record; constructor].
  rewrite get_fold_record in H.
  destruct (last_declared k decls) as [x|] eqn:L; [|discriminate].
  inversion H; subst x; apply last_declared_In; assumption.
Qed.

Lemma keys_are_names (decls : list AsteroidSymbol.t) :
  JSMap.keys (fold_left record decls (JSMap.empty AsteroidSymbol.t))
  = List.map AsteroidSymbol.name
      (JSMap.values
         (fold_left record decls (JSMap.empty AsteroidSymbol.t))).
Proof.
  pose proof (In_fold_record decls) as H.
  unfold JSMap.keys, JSMap.values; rewrite map_map.
  apply map_ext_in; intros [k s] Hin; simpl.
  symmetry; apply (H k s Hin).
Qed.
End ExtractFacts.

(** X11. [parse] returns on every token sequence and throws on none: the
    fuel [S (length toks)] is enough and more fuel gives the same document;
    handling a token moves the parser forward and keeps its tokens. *)
Theorem parse_terminates (toks : list Token.t) :
  (exists info,
      AsteroidParser.parse toks = Some info
      /\ forall n, length toks < n ->
                   AsteroidParser.parse_fuel n toks = Some info)
  /\ (forall p info tok,
         AsteroidParser.tokens p = toks ->
         AsteroidParser.peek p = Some tok ->
         exists p' info',
           AsteroidParser.dispatch tok p info = Some (p', info')
           /\ AsteroidParser.tokens p' = toks
           /\ AsteroidParser.pos p < AsteroidParser.pos p').
Proof.
  split.
  - exists (ParserSpec.extend toks AsteroidParser.empty_info).
    split; [apply ParseFacts.parse_extend|].
    intros n Hn; apply ParseFacts.parse_fuel_extend; assumption.
  - intros p info tok T P.
    rewrite ParserFacts.peek_suffix in P.
    destruct (ParserSpec.suffix p) as [|tok' rest] eqn:S; [discriminate|].
    inversion P; subst tok'.
    destruct (ParseFacts.dispatch_handled p info tok rest S)
      as [p' [info' [D [T' [Lt _]]]]].
    exists p', info'; split; [assumption|]; split; [congruence|].
    rewrite S, !ParserFacts.length_suffix, T' in *.
    pose proof (ParserFacts.length_suffix p) as L; rewrite S in L.
    simpl in *; lia.
Qed.

Lemma parse_terminates_witness :
  let toks := [Token.mk KEYWORD (units "let") 0 0 None;
               Token.mk IDENTIFIER (units "x") 0 4 None] in
  AsteroidParser.tokens (AsteroidParser.new toks) = toks
  /\ AsteroidParser.peek (AsteroidParser.new toks)
     = Some (Token.mk KEYWORD (units "let") 0 0 None)
  /\ exists p' info',
       AsteroidParser.dispatch (Token.mk KEYWORD (units "let") 0 0 None)
         (AsteroidParser.new toks) AsteroidParser.empty_info
       = Some (p', info')
       /\ AsteroidParser.tokens p' = toks
       /\ AsteroidParser.pos (AsteroidParser.new toks) < AsteroidParser.pos p'.
Proof.
  intros toks; split; [reflexivity|]; split; [reflexivity|].
  apply (proj2 (parse_terminates toks) (AsteroidParser.new toks)
           AsteroidParser.empty_info
           (Token.mk KEYWORD (units "let") 0 0 None));
    reflexivity.
Defined.

(** X12. The import list of the extracted document holds, in order, the
    text of the Identifier of each [load system <name>] of the tokens, and
    nothing else. *)
Theorem imports_are_the_loaded_modules (toks : list Token.t) :
  exists info,
    AsteroidParser.parse toks = Some info
    /\ DocumentInfo.imports info = ParserSpec.loads toks
    /\ forall module,
         In module (DocumentInfo.imports info) <->
         exists i, TableSpec.loads_at toks i module.
Proof.
  exists (ParserSpec.extend toks AsteroidParser.empty_info).
  split; [apply ParseFacts.parse_extend|].
  split; [reflexivity|].
  intros module; apply ExtractFacts.loads_In.
Qed.

(** X13. Every entry of the three tables of the extracted document is
    stored under its own name and is a Symbol as the handlers build it; the
    functions sub-map holds Function symbols only, the variables sub-map
    Variable symbols only, and no sub-map has two entries for a name. *)
Theorem table_entries_are_well_formed (toks : list Token.t) :
  exists info,
    AsteroidParser.parse toks = Some info
    /\ (forall k s,
           In (k, s) (DocumentInfo.symbols info) ->
           AsteroidSymbol.name s = k /\ TableSpec.symbol_ok s)
    /\ (forall k s,
           In (k, s) (DocumentInfo.functions info) ->
           AsteroidSymbol.name s = k /\ TableSpec.symbol_ok s
           /\ AsteroidSymbol.kind s = SymbolKind_Function)
    /\ (forall k s,
           In (k, s) (DocumentInfo.variables info) ->
           AsteroidSymbol.name s = k /\ TableSpec.symbol_ok s
           /\ AsteroidSymbol.kind s = SymbolKind_Variable)
    /\ NoDup (JSMap.keys (DocumentInfo.functions info))
    /\ NoDup (JSMap.keys (DocumentInfo.variables info)).
Proof.
  exists (ParserSpec.extend toks AsteroidParser.empty_info).
  split; [apply ParseFacts.parse_extend|].
  assert (Ok : forall s, In s (ParserSpec.declarations toks) ->
                         TableSpec.symbol_ok s).
  { intros s H; apply TableFacts.declarations_at in H.
    destruct H as [i [kw [_ D]]]; eapply ExtractFacts.declared_ok; eauto. }
  assert (Sub : forall (f : AsteroidSymbol.t -> bool) k s,
             In (k, s)
               (fold_left ParserSpec.record
                  (filter f (ParserSpec.declarations toks))
                  (JSMap.empty AsteroidSymbol.t)) ->
             AsteroidSymbol.name s = k /\ TableSpec.symbol_ok s
             /\ f s = true).
  { intros f k s H; apply ExtractFacts.In_fold_record in H.
    destruct H as [H N]; apply filter_In in H; destruct H; auto. }
  simpl; split; [|split; [|split; [|split]]].
  - intros k s H; apply ExtractFacts.In_fold_record in H.
    destruct H; auto.
  - intros k s H; apply Sub in H; destruct H as [N [O F]].
    split; [assumption|]; split; [assumption|].
    unfold ParserSpec.is_function in F.
    destruct (AsteroidSymbol.kind s); (discriminate || reflexivity).
  - intros k s H; apply Sub in H; destruct H as [N [O F]].
    split; [assumption|]; split; [assumption|].
    unfold ParserSpec.is_variable in F.
    destruct (AsteroidSymbol.kind s); (discriminate || reflexivity).
  - apply TableFacts.NoDup_fold_record; constructor.
  - apply TableFacts.NoDup_fold_record; constructor.
Qed.

Module NameFacts.
Import AsteroidParser ParserSpec ParserFacts ParseFacts TableFacts TableSpec.

Lemma identifier_shape_name (tok : Token.t) :
  TokenSpec.token_shape tok -> Token.type tok = IDENTIFIER ->
  identifier_name (Token.value tok).
Proof.
  unfold TokenSpec.token_shape; intros Sh Ty; rewrite Ty in Sh.
  destruct Sh as [_ Sh]; exact Sh.
Qed.

(** The names of a table made of the declarations of [toks]. *)
Lemma keys_declared (toks : list Token.t) (name : jsstring) :
  In name
    (JSMap.keys
       (fold_left record (declarations toks) (JSMap.empty AsteroidSymbol.t)))
  <-> exists i, declares toks i name.
Proof.
  split.
  - intros H; apply in_map_iff in H; destruct H as [[k s] [E H]].
    simpl in E; subst k.
    apply ExtractFacts.In_fold_record in H; destruct H as [H N].
    apply declarations_at in H; destruct H as [i [kw [Ni D]]].
    destruct (declared_Some _ _ _ D) as [nm [Nn [K [I [Nm _]]]]].
    exists i, kw, nm; repeat split; try tauto; try apply K; congruence.
  - intros [i [kw [nm [Ni [Nn [K [I V]]]]]]].
    destruct (declared_total kw nm K I) as [s D].
    destruct (declared_Some _ _ _ D) as [nm' [E [_ [_ [Nm _]]]]].
    inversion E; subst nm'.
    assert (Hin : In s (declarations toks)).
    { apply declarations_at; exists i, kw; rewrite Nn; auto. }
    destruct (JSMap.get name
                (fold_left record (declarations toks)
                   (JSMap.empty AsteroidSymbol.t))) as [x|] eqn:G.
    + apply JSMapFacts.get_In in G.
      apply in_map_iff; exists (name, x); auto.
    + exfalso; rewrite get_fold_record in G.
      destruct (last_declared name (declarations toks)) eqn:L;
        [discriminate|].
      unfold last_declared in L.
      assert (C : In s (rev (declarations toks)))
        by (apply in_rev; rewrite rev_involutive; assumption).
      apply (find_none _ _ L) in C; simpl in C.
      rewrite Nm, V, str_eqb_refl in C; discriminate.
Qed.
End NameFacts.

(** X14. The names and the imports that the extractor records from the
    tokens of a text are Identifier texts: none is a reserved word, and
    each is a letter or underscore followed by word code units. *)
Theorem recorded_names_are_identifiers (txt : jsstring) :
  exists toks info,
    AsteroidLexer.tokenize txt = Some toks
    /\ AsteroidParser.parse toks = Some info
    /\ forall name,
         In name (JSMap.keys (DocumentInfo.symbols info))
         \/ In name (DocumentInfo.imports info) ->
         TableSpec.identifier_name name.
Proof.
  destruct (TokenizeFacts.tokenize_total txt) as [toks E].
  exists toks, (ParserSpec.extend toks AsteroidParser.empty_info).
  split; [assumption|]; split; [apply ParseFacts.parse_extend|].
  pose proof (ShapeFacts.tokenize_shape txt toks E) as Sh.
  rewrite Forall_forall in Sh.
  intros name [H|H]; simpl in H.
  - apply NameFacts.keys_declared in H.
    destruct H as [i [kw [nm [_ [Nn [_ [I V]]]]]]].
    rewrite <- V; apply NameFacts.identifier_shape_name; [|assumption].
    apply Sh; eapply nth_error_In; eassumption.
  - apply ExtractFacts.loads_In in H.
    destruct H as [i [l [s [t [_ [_ [Nt [_ [_ [I V]]]]]]]]]].
    rewrite <- V; apply NameFacts.identifier_shape_name; [|assumption].
    apply Sh; eapply nth_error_In; eassumption.
Qed.

(** ** Results on the providers *)

Module ProviderFacts.

Lemma push_outline_app (values : list AsteroidSymbol.t) :
  forall symbols,
    push_outline values symbols = symbols ++ List.map outline_item values.
Proof.
  induction values as [|v values IH]; intros symbols; simpl.
  - rewrite app_nil_r; reflexivity.
  - rewrite IH, <- app_assoc; reflexivity.
Qed.

Lemma set_set (V : Type) (k : jsstring) (v v' : V) (m : JSMap.t V) :
  JSMap.set k v (JSMap.set k v' m) = JSMap.set k v m.
Proof.
  induction m as [|[k0 v0] m IH]; simpl.
  - rewrite str_eqb_refl; reflexivity.
  - destruct (str_eqb k0 k) eqn:E; simpl; rewrite E; [reflexivity|].
    rewrite IH; reflexivity.
Qed.

Lemma analyzeDocument_result (documentInfos : JSMap.t DocumentInfo.t)
  (uri text : jsstring) :
  exists toks,
    AsteroidLexer.tokenize text = Some toks
    /\ analyzeDocument documentInfos uri text
       = Some (JSMap.set uri
                 (ParserSpec.extend toks AsteroidParser.empty_info)
                 documentInfos,
               validateDocument toks).
Proof.
  destruct (TokenizeFacts.tokenize_total text) as [toks E].
  exists toks; split; [assumption|].
  unfold analyzeDocument; rewrite E; cbn [bind].
  rewrite ParseFacts.parse_extend; reflexivity.
Qed.
End ProviderFacts.

(** X15. Word resolution returns on every line and offset. It finds no word
    exactly when the offset is outside the line, or neither the code unit
    at the offset nor the one before it is a word code unit; a range it
    returns is not empty, lies inside the line, holds word code units only
    and has the offset inside it or at its end. *)
Theorem word_range_is_defined_next_to_a_word (line : jsstring)
  (character : Z) :
  exists r,
    getWordRangeAtPosition line character = Some r
    /\ (r = None <->
        (character < 0)%Z \/ (len line <= character)%Z
        \/ (test_word (char_at line character) = false
            /\ test_word (char_at line (character - 1)) = false))
    /\ (forall range,
           r = Some range ->
           (0 <= WordRange.start range <= character)%Z
           /\ (character <= WordRange.end_ range <= len line)%Z
           /\ (WordRange.start range < WordRange.end_ range)%Z
           /\ forall i,
                (WordRange.start range <= i < WordRange.end_ range)%Z ->
                test_word (char_at line i) = true).
Proof.
  unfold getWordRangeAtPosition, getWordRangeAtPosition_fuel.
  destruct ((character <? 0)%Z || (len line <=? character)%Z) eqn:G.
  { exists None; split; [reflexivity|]; split; [|discriminate].
    split; [|reflexivity]; intros _.
    apply orb_true_iff in G; destruct G as [G|G];
      [apply Z.ltb_lt in G | apply Z.leb_le in G]; auto. }
  apply orb_false_iff in G; destruct G as [G1 G2].
  apply Z.ltb_ge in G1; apply Z.leb_gt in G2.
  destruct (WordFacts.start_loop line character (S (length line)))
    as [start [Ws [Bs [As Ms]]]]; [lia | lia |].
  destruct (WordFacts.end_loop line character (S (length line)))
    as [end_ [We [Be [Ae Me]]]]; [lia | lia |].
  rewrite Ws; cbn [bind]; rewrite We; cbn [bind].
  assert (Es : start = character
               <-> test_word (char_at line (character - 1)) = false).
  { split.
    - intros ->; destruct Ms as [->|Ms]; [reflexivity | assumption].
    - intros F; destruct (Z.eq_dec start character); [assumption|].
      rewrite As in F by lia; discriminate. }
  assert (Ee : end_ = character
               <-> test_word (char_at line character) = false).
  { split.
    - intros ->; destruct Me as [Me|Me]; [lia | assumption].
    - intros F; destruct (Z.eq_dec end_ character); [assumption|].
      rewrite Ae in F by lia; discriminate. }
  destruct (start =? end_)%Z eqn:Q.
  - apply Z.eqb_eq in Q; exists None; split; [reflexivity|].
    split; [|discriminate].
    split; [|reflexivity]; intros _; right; right.
    split; [apply Ee | apply Es]; lia.
  - apply Z.eqb_neq in Q; eexists; split; [reflexivity|]; split.
    + split; [discriminate|].
      intros [H|[H|[F1 F2]]]; [lia | lia |].
      apply Ee in F1; apply Es in F2; lia.
    + intros range E; inversion E; subst range; simpl.
      split; [lia|]; split; [lia|]; split; [lia|].
      intros i Hi; destruct (Z_lt_ge_dec i character);
        [apply As | apply Ae]; lia.
Qed.

(** X16. Where go-to-definition finds a location, hover finds a
    description at the same position; the location is in the document of
    the request and its range is the range of a Symbol of that document's
    table. *)
Theorem definition_found_implies_hover_found
  (documents : JSMap.t jsstring) (documentInfos : JSMap.t DocumentInfo.t)
  (params : TextDocumentPositionParams.t) (location : Location.t) :
  onDefinition documents documentInfos params = Some (Some location) ->
  (exists hover, onHover documents documentInfos params = Some (Some hover))
  /\ Location.uri location = TextDocumentPositionParams.uri params
  /\ exists docInfo name symbol,
       JSMap.get (TextDocumentPositionParams.uri params) documentInfos
       = Some docInfo
       /\ JSMap.get name (DocumentInfo.symbols docInfo) = Some symbol
       /\ Location.range location = AsteroidSymbol.range symbol.
Proof.
  unfold onDefinition, onHover.
  destruct (JSMap.get (TextDocumentPositionParams.uri params) documents)
    as [text|]; [|discriminate].
  cbv zeta.
  destruct (length (split_lines text [])
            <=? TextDocumentPositionParams.line params); [discriminate|].
  destruct (nth_error (split_lines text [])
              (TextDocumentPositionParams.line params)) as [line|];
    [|discriminate].
  destruct (getWordRangeAtPosition line
              (TextDocumentPositionParams.character params))
    as [[range|]|]; cbn [bind]; try discriminate.
  destruct (JSMap.get (TextDocumentPositionParams.uri params) documentInfos)
    as [docInfo|]; [|discriminate].
  destruct (JSMap.get
              (substring line (Z.to_nat (WordRange.start range))
                 (Z.to_nat (WordRange.end_ range)))
              (DocumentInfo.symbols docInfo)) as [symbol|] eqn:G;
    [|discriminate].
  intros H; inversion H; subst; cbn [Location.uri Location.range].
  split; [|split; [reflexivity | eauto 6]].
  destruct (includes KEYWORDS _); [eauto|].
  destruct (includes BUILTIN_FUNCTIONS _); eauto.
Qed.

Lemma definition_found_implies_hover_found_witness :
  let uri := units "a" in
  let text := units "let x = 1" in
  let info :=
    DocumentInfo.mk
      [(units "x",
        AsteroidSymbol.mk (units "x") SymbolKind_Variable
          (Range.mk (Position.mk 0 0) (Position.mk 0 5))
          (Range.mk (Position.mk 0 0) (Position.mk 0 5))
          None (Some (units "variable")))] [] [] [] in
  onDefinition [(uri, text)] [(uri, info)]
    (TextDocumentPositionParams.mk uri 0 4)
  = Some (Some (Location.mk uri
                  (Range.mk (Position.mk 0 0) (Position.mk 0 5))))
  /\ exists hover,
       onHover [(uri, text)] [(uri, info)]
         (TextDocumentPositionParams.mk uri 0 4) = Some (Some hover).
Proof.
  intros uri text info.
  assert (D : onDefinition [(uri, text)] [(uri, info)]
                (TextDocumentPositionParams.mk uri 0 4)
              = Some (Some (Location.mk uri
                              (Range.mk (Position.mk 0 0)
                                 (Position.mk 0 5)))))
    by (vm_compute; reflexivity).
  split; [exact D|].
  exact (proj1 (definition_found_implies_hover_found _ _ _ _ D)).
Defined.

(** X17. The analysis of a text always returns. It stores the document
    extracted from the tokens of the text under the document's URI, leaves
    the entry of every other URI as it was, returns the diagnostics of the
    validator on those tokens, and done again on the same text it changes
    nothing. *)
Theorem analysis_replaces_one_entry
  (documentInfos : JSMap.t DocumentInfo.t) (uri text : jsstring) :
  exists toks info store,
    AsteroidLexer.tokenize text = Some toks
    /\ AsteroidParser.parse toks = Some info
    /\ analyzeDocument documentInfos uri text
       = Some (store, validateDocument toks)
    /\ JSMap.get uri store = Some info
    /\ (forall other, other <> uri ->
                      JSMap.get other store = JSMap.get other documentInfos)
    /\ JSMap.size documentInfos <= JSMap.size store
    /\ analyzeDocument store uri text = Some (store, validateDocument toks).
Proof.
  destruct (ProviderFacts.analyzeDocument_result documentInfos uri text)
    as [toks [E A]].
  exists toks, (ParserSpec.extend toks AsteroidParser.empty_info),
    (JSMap.set uri (ParserSpec.extend toks AsteroidParser.empty_info)
       documentInfos).
  split; [assumption|]; split; [apply ParseFacts.parse_extend|].
  split; [assumption|]; split; [apply JSMapFacts.get_set_same|].
  split; [intros other N; apply JSMapFacts.get_set_other; congruence|].
  split; [apply JSMapFacts.size_set_ge|].
  destruct (ProviderFacts.analyzeDocument_result
              (JSMap.set uri
                 (ParserSpec.extend toks AsteroidParser.empty_info)
                 documentInfos) uri text) as [toks' [E' A']].
  rewrite E in E'; inversion E'; subst toks'.
  rewrite A', ProviderFacts.set_set; reflexivity.
Qed.

(** X18. After the analysis of a text the outline of the document lists
    the names that its tokens declare, each once, in the order of the
    table; each item carries the kind and the ranges of the table's
    Symbol of that name. *)
Theorem outline_lists_declared_names_once
  (documentInfos : JSMap.t DocumentInfo.t) (uri text : jsstring) :
  exists toks info store diagnostics,
    AsteroidLexer.tokenize text = Some toks
    /\ analyzeDocument documentInfos uri text = Some (store, diagnostics)
    /\ JSMap.get uri store = Some info
    /\ List.map DocumentSymbol.name (onDocumentSymbol store uri)
       = JSMap.keys (DocumentInfo.symbols info)
    /\ NoDup (List.map DocumentSymbol.name (onDocumentSymbol store uri))
    /\ (forall name,
           In name (List.map DocumentSymbol.name (onDocumentSymbol store uri))
           <-> exists i, ParserSpec.declares toks i name)
    /\ (forall item,
           In item (onDocumentSymbol store uri) ->
           exists symbol,
             JSMap.get (DocumentSymbol.name item)
               (DocumentInfo.symbols info) = Some symbol
             /\ DocumentSymbol.kind item = AsteroidSymbol.kind symbol
             /\ DocumentSymbol.range item = AsteroidSymbol.range symbol
             /\ DocumentSymbol.selectionRange item
                = AsteroidSymbol.range symbol).
Proof.
  destruct (ProviderFacts.analyzeDocument_result documentInfos uri text)
    as [toks [E A]].
  set (info := ParserSpec.extend toks AsteroidParser.empty_info) in *.
  exists toks, info, (JSMap.set uri info documentInfos),
    (validateDocument toks).
  split; [assumption|]; split; [assumption|].
  split; [apply JSMapFacts.get_set_same|].
  assert (O : onDocumentSymbol (JSMap.set uri info documentInfos) uri
              = List.map outline_item
                  (JSMap.values (DocumentInfo.symbols info))).
  { unfold onDocumentSymbol; rewrite JSMapFacts.get_set_same.
    apply ProviderFacts.push_outline_app. }
  assert (K : List.map DocumentSymbol.name
                (onDocumentSymbol (JSMap.set uri info documentInfos) uri)
              = JSMap.keys (DocumentInfo.symbols info)).
  { rewrite O, map_map; unfold info; simpl.
    rewrite ExtractFacts.keys_are_names; reflexivity. }
  split; [exact K|]; rewrite K; split; [|split].
  - apply TableFacts.NoDup_fold_record; constructor.
  - intros name; apply NameFacts.keys_declared.
  - intros item H; rewrite O in H; apply in_map_iff in H.
    destruct H as [symbol [<- H]].
    unfold JSMap.values in H; apply in_map_iff in H.
    destruct H as [[k s] [Es H]]; simpl in Es; subst s.
    pose proof H as H'; unfold info in H'; simpl in H'.
    apply ExtractFacts.In_fold_record in H'; destruct H' as [Hd Nm].
    exists symbol; simpl; rewrite Nm.
    split; [|split; [reflexivity|split; [reflexivity|]]].
    + apply JSMapFacts.In_get; [|assumption].
      apply TableFacts.NoDup_fold_record; constructor.
    + apply TableFacts.declarations_at in Hd.
      destruct Hd as [i [kw [_ D]]].
      apply ExtractFacts.declared_ok in D; apply D.
Qed.

(** X19. After the analysis of a text, completion in that document offers
    every name that the tokens declare, and has as many items as the three
    fixed lists and the table of the document together. *)
Theorem completion_offers_declared_names
  (documentInfos : JSMap.t DocumentInfo.t) (uri text : jsstring) :
  exists toks info store diagnostics,
    AsteroidLexer.tokenize text = Some toks
    /\ analyzeDocument documentInfos uri text = Some (store, diagnostics)
    /\ JSMap.get uri store = Some info
    /\ forall line character,
         let result :=
           onCompletion store
             (TextDocumentPositionParams.mk uri line character) in
         (forall name,
             (exists i, ParserSpec.declares toks i name) ->
             In name (List.map CompletionItem.label result))
         /\ length result
            = length KEYWORDS + length BUILTIN_FUNCTIONS
              + length SYSTEM_MODULES
              + length (JSMap.keys (DocumentInfo.symbols info)).
Proof.
  destruct (ProviderFacts.analyzeDocument_result documentInfos uri text)
    as [toks [E A]].
  set (info := ParserSpec.extend toks AsteroidParser.empty_info) in *.
  exists toks, info, (JSMap.set uri info documentInfos),
    (validateDocument toks).
  split; [assumption|]; split; [assumption|].
  split; [apply JSMapFacts.get_set_same|].
  intros line character result; unfold result.
  rewrite CompletionFacts.onCompletion_items.
  cbn [TextDocumentPositionParams.uri]; rewrite JSMapFacts.get_set_same.
  split.
  - intros name H; apply NameFacts.keys_declared in H.
    rewrite !map_app; apply in_or_app; right; apply in_or_app; right.
    apply in_or_app; right; rewrite map_map.
    change (fun x => CompletionItem.label (symbol_item x))
      with AsteroidSymbol.name.
    unfold info; simpl; rewrite <- ExtractFacts.keys_are_names; assumption.
  - rewrite !length_app, !length_map.
    unfold JSMap.values, JSMap.keys; rewrite !length_map; lia.
Qed.

(** ** Looking a word up after the analysis *)

Module LookupFacts.
Import AsteroidParser ParserSpec ParserFacts ParseFacts TableFacts.
Import LookupSpec.

Lemma declared_display (kw nm : Token.t) (s : AsteroidSymbol.t) :
  declared kw (Some nm) = Some s ->
  AsteroidSymbol.type s = Some (display_type kw).
Proof.
  unfold declared, display_type.
  destruct (is_identifier nm); [|discriminate].
  destruct (is_keyword kw "function");
    [intros H; inversion H; reflexivity|].
  destruct (is_keyword kw "let");
    [intros H; inversion H; reflexivity|].
  destruct (is_keyword kw "struct" || is_keyword kw "data");
    [intros H; inversion H; reflexivity | discriminate].
Qed.

Lemma declares_cons (tok : Token.t) (rest : list Token.t) (j : nat)
  (name : jsstring) :
  declares (tok :: rest) (S j) name <-> declares rest j name.
Proof. unfold declares; simpl; tauto. Qed.

(** No declaration of [name] is left out of the list. *)
Lemma last_declared_none_iff (toks : list Token.t) (name : jsstring) :
  last_declared name (declarations toks) = None
  <-> forall i, ~ declares toks i name.
Proof.
  split.
  - intros L i [kw [nm [Ni [Nn [K [I V]]]]]].
    destruct (declared_total kw nm K I) as [s D].
    destruct (declared_Some _ _ _ D) as [nm' [E [_ [_ [Nm _]]]]].
    inversion E; subst nm'.
    assert (Hin : In s (declarations toks)).
    { apply declarations_at; exists i, kw; rewrite Nn; auto. }
    unfold last_declared in L.
    assert (C : In s (rev (declarations toks)))
      by (apply in_rev; rewrite rev_involutive; assumption).
    apply (find_none _ _ L) in C; simpl in C.
    rewrite Nm, V, str_eqb_refl in C; discriminate.
  - intros No; apply last_declared_None; intros s Hin E.
    apply declarations_at in Hin; destruct Hin as [i [kw [Ni D]]].
    destruct (declared_Some _ _ _ D) as [nm [Nn [K [I [Nm _]]]]].
    apply (No i); exists kw, nm; repeat split; try tauto; try apply K.
    congruence.
Qed.

(** The Symbol that the table holds for [name] comes from the last pair of
    tokens that declares [name]. *)
Lemma last_declared_from (toks : list Token.t) (name : jsstring) :
  forall s,
    last_declared name (declarations toks) = Some s ->
    exists i kw nm,
      last_declares toks i kw nm name /\ declared kw (Some nm) = Some s.
Proof.
  induction toks as [|tok rest IH]; intros s L; [discriminate|].
  assert (Shift : forall s',
             last_declared name (declarations rest) = Some s' ->
             exists i kw nm,
               last_declares (tok :: rest) i kw nm name
               /\ declared kw (Some nm) = Some s').
  { intros s' L'; destruct (IH s' L') as [i [kw [nm [Ld D]]]].
    exists (S i), kw, nm; split; [|assumption].
    destruct Ld as [Ni [Nn [K [I [V Last]]]]].
    unfold last_declares; cbn [nth_error].
    refine (conj Ni (conj Nn (conj K (conj I (conj V _))))).
    intros [|j] Hj; [lia|]; rewrite declares_cons; apply Last; lia. }
  cbn [declarations] in L.
  destruct (declared tok (hd_error rest)) as [s0|] eqn:D0;
    [|apply Shift; assumption].
  rewrite last_declared_cons in L.
  destruct (last_declared name (declarations rest)) as [x|] eqn:Lr.
  - inversion L; subst x; apply Shift; reflexivity.
  - destruct (str_eqb (AsteroidSymbol.name s0) name) eqn:E; [|discriminate].
    inversion L; subst s0; apply str_eqb_spec in E.
    destruct (declared_Some _ _ _ D0) as [nm [Nn [K [I [Nm _]]]]].
    exists 0, tok, nm; rewrite Nn in D0; split; [|assumption].
    unfold last_declares; cbn [nth_error].
    replace (nth_error rest 0) with (hd_error rest)
      by (destruct rest; reflexivity).
    refine (conj eq_refl (conj Nn (conj K (conj I (conj _ _)))));
      [congruence|].
    intros [|j] Hj; [lia|]; rewrite declares_cons.
    apply (proj1 (last_declared_none_iff rest name) Lr).
Qed.

(** The table of the document that the analysis stores. *)
Lemma analysed_lookup (documentInfos : JSMap.t DocumentInfo.t)
  (uri : jsstring) (toks : list Token.t) (word : jsstring) :
  match
    JSMap.get uri
      (JSMap.set uri (extend toks empty_info) documentInfos)
  with
  | Some docInfo => JSMap.get word (DocumentInfo.symbols docInfo)
  | None => None
  end = last_declared word (declarations toks).
Proof.
  rewrite JSMapFacts.get_set_same; cbn [extend DocumentInfo.symbols].
  rewrite get_fold_record.
  destruct (last_declared word (declarations toks)); reflexivity.
Qed.

Lemma getWordRangeAtPosition_total (line : jsstring) (character : Z) :
  exists r, getWordRangeAtPosition line character = Some r.
Proof.
  unfold getWordRangeAtPosition, getWordRangeAtPosition_fuel.
  destruct ((character <? 0)%Z || (len line <=? character)%Z) eqn:G;
    [eauto|].
  apply orb_false_iff in G; destruct G as [G1 G2].
  apply Z.ltb_ge in G1; apply Z.leb_gt in G2.
  destruct (WordFacts.start_loop line character (S (length line)))
    as [start [Ws _]]; [lia | lia |].
  destruct (WordFacts.end_loop line character (S (length line)))
    as [end_ [We _]]; [lia | lia |].
  rewrite Ws; cbn [bind]; rewrite We; cbn [bind].
  destruct (start =? end_)%Z; eauto.
Qed.

Lemma word_at_cursor_total (text : jsstring) (line : nat) (character : Z) :
  exists w, word_at_cursor text line character = Some w.
Proof.
  unfold word_at_cursor; cbv zeta.
  destruct (length (split_lines text []) <=? line); [eauto|].
  destruct (nth_error (split_lines text []) line) as [l|]; [|eauto].
  destruct (getWordRangeAtPosition_total l character) as [[r|] E];
    rewrite E; cbn [bind]; eauto.
Qed.

(** Go-to-definition looks the word at the cursor up in the table of the
    document. *)
Lemma onDefinition_word (documents : JSMap.t jsstring)
  (documentInfos : JSMap.t DocumentInfo.t) (uri shown : jsstring)
  (line : nat) (character : Z) :
  JSMap.get uri documents = Some shown ->
  onDefinition documents documentInfos
    (TextDocumentPositionParams.mk uri line character)
  = match word_at_cursor shown line character with
    | None => None
    | Some None => Some None
    | Some (Some word) =>
        match
          match JSMap.get uri documentInfos with
          | Some docInfo => JSMap.get word (DocumentInfo.symbols docInfo)
          | None => None
          end
        with
        | Some symbol =>
            Some (Some (Location.mk uri (AsteroidSymbol.range symbol)))
        | None => Some None
        end
    end.
Proof.
  intros G; unfold onDefinition, word_at_cursor.
  cbn [TextDocumentPositionParams.uri TextDocumentPositionParams.line
       TextDocumentPositionParams.character].
  rewrite G; cbv zeta.
  destruct (length (split_lines shown []) <=? line); [reflexivity|].
  destruct (nth_error (split_lines shown []) line) as [l|]; [|reflexivity].
  destruct (getWordRangeAtPosition l character) as [[r|]|]; cbn [bind];
    try reflexivity.
  destruct (JSMap.get uri documentInfos) as [docInfo|]; [|reflexivity].
  destruct (JSMap.get _ (DocumentInfo.symbols docInfo)); reflexivity.
Qed.

(** Hover describes the word at the cursor: a reserved word first, then a
    builtin, then a Symbol of the table of the document. *)
Lemma onHover_word (documents : JSMap.t jsstring)
  (documentInfos : JSMap.t DocumentInfo.t) (uri shown : jsstring)
  (line : nat) (character : Z) (word : jsstring) :
  JSMap.get uri documents = Some shown ->
  word_at_cursor shown line character = Some (Some word) ->
  exists range,
    onHover documents documentInfos
      (TextDocumentPositionParams.mk uri line character)
    = Some
        (if includes KEYWORDS word then
           Some (Hover.mk (units "**" ++ word ++ units "** - Asteroid keyword")
                   range)
         else if includes BUILTIN_FUNCTIONS word then
           Some (Hover.mk
                   (units "**" ++ word ++ units "()** - Built-in function")
                   range)
         else
           match
             match JSMap.get uri documentInfos with
             | Some docInfo => JSMap.get word (DocumentInfo.symbols docInfo)
             | None => None
             end
           with
           | Some symbol =>
               Some (Hover.mk
                       (units "**" ++ AsteroidSymbol.name symbol
                          ++ units "** - "
                          ++ interpolate (AsteroidSymbol.type symbol))
                       range)
           | None => None
           end).
Proof.
  intros G; unfold onHover, word_at_cursor.
  cbn [TextDocumentPositionParams.uri TextDocumentPositionParams.line
       TextDocumentPositionParams.character].
  rewrite G; cbv zeta.
  destruct (length (split_lines shown []) <=? line); [discriminate|].
  destruct (nth_error (split_lines shown []) line) as [l|]; [|discriminate].
  destruct (getWordRangeAtPosition l character) as [[r|]|]; cbn [bind];
    try discriminate.
  intros W; inversion W as [W']; clear W.
  eexists.
  destruct (includes KEYWORDS _); [reflexivity|].
  destruct (includes BUILTIN_FUNCTIONS _); [reflexivity|].
  destruct (JSMap.get uri documentInfos) as [docInfo|]; [|reflexivity].
  destruct (JSMap.get _ (DocumentInfo.symbols docInfo)); reflexivity.
Qed.
End LookupFacts.

(** X20. After the analysis of a text, go-to-definition in that document
    returns on every request. A location it finds is in the document of the
    request, and its range goes from the keyword to the end of the
    identifier of the last pair of tokens that declares the word at the
    cursor; it finds one whenever some pair of tokens declares that
    word. *)
Theorem definition_goes_to_last_declaration
  (documents : JSMap.t jsstring) (documentInfos : JSMap.t DocumentInfo.t)
  (uri text shown : jsstring) (line : nat) (character : Z) :
  JSMap.get uri documents = Some shown ->
  exists toks store diagnostics r,
    AsteroidLexer.tokenize text = Some toks
    /\ analyzeDocument documentInfos uri text = Some (store, diagnostics)
    /\ onDefinition documents store
         (TextDocumentPositionParams.mk uri line character) = Some r
    /\ (forall location,
           r = Some location ->
           Location.uri location = uri
           /\ exists word i kw nm,
                word_at_cursor shown line character = Some (Some word)
                /\ LookupSpec.last_declares toks i kw nm word
                /\ Location.range location
                   = ParserSpec.declaration_range kw nm)
    /\ (forall word i,
           word_at_cursor shown line character = Some (Some word) ->
           ParserSpec.declares toks i word -> r <> None).
Proof.
  intros G.
  destruct (ProviderFacts.analyzeDocument_result documentInfos uri text)
    as [toks [E A]].
  destruct (LookupFacts.word_at_cursor_total shown line character)
    as [w W].
  pose proof (LookupFacts.onDefinition_word documents
                (JSMap.set uri
                   (ParserSpec.extend toks AsteroidParser.empty_info)
                   documentInfos) uri shown line character G) as D.
  rewrite W in D.
  destruct w as [word|].
  - rewrite LookupFacts.analysed_lookup in D.
    destruct (ParserSpec.last_declared word (ParserSpec.declarations toks))
      as [s|] eqn:L.
    + do 4 eexists; split; [exact E|]; split; [exact A|].
      split; [exact D|]; split.
      * intros location H; inversion H; subst location; clear H.
        split; [reflexivity|].
        destruct (LookupFacts.last_declared_from toks word s L)
          as [i [kw [nm [Ld Dc]]]].
        exists word, i, kw, nm; split; [exact W|]; split; [exact Ld|].
        destruct (TableFacts.declared_Some _ _ _ Dc)
          as [nm' [En [_ [_ [_ [R _]]]]]].
        inversion En; subst nm'; exact R.
      * discriminate.
    + do 4 eexists; split; [exact E|]; split; [exact A|].
      split; [exact D|]; split; [discriminate|].
      intros word' i H Dc _; rewrite W in H; inversion H; subst word'.
      exact (proj1 (LookupFacts.last_declared_none_iff toks word) L i Dc).
  - do 4 eexists; split; [exact E|]; split; [exact A|].
    split; [exact D|]; split; [discriminate|].
    intros word i H; rewrite W in H; discriminate.
Qed.

Lemma definition_goes_to_last_declaration_witness :
  let uri := units "a" in
  let text := units "let x = 1 let x = 2" in
  JSMap.get uri [(uri, text)] = Some text
  /\ exists toks store diagnostics r,
       AsteroidLexer.tokenize text = Some toks
       /\ analyzeDocument [] uri text = Some (store, diagnostics)
       /\ onDefinition [(uri, text)] store
            (TextDocumentPositionParams.mk uri 0 4) = Some r
       /\ (forall location,
              r = Some location ->
              Location.uri location = uri
              /\ exists word i kw nm,
                   word_at_cursor text 0 4 = Some (Some word)
                   /\ LookupSpec.last_declares toks i kw nm word
                   /\ Location.range location
                      = ParserSpec.declaration_range kw nm)
       /\ (forall word i,
              word_at_cursor text 0 4 = Some (Some word) ->
              ParserSpec.declares toks i word -> r <> None).
Proof.
  intros uri text.
  assert (G : JSMap.get uri [(uri, text)] = Some text)
    by (vm_compute; reflexivity).
  split; [exact G|].
  exact (definition_goes_to_last_declaration [(uri, text)] [] uri text text
           0 4 G).
Defined.

(** X21. After the analysis of a text, hover in that document returns on
    every request. On a reserved word it says "Asteroid keyword", on a
    builtin that is no reserved word "Built-in function", whatever the
    document declares; on another word it gives the name and the display
    type of the last declaration of the word among the tokens: "function"
    after [function], "variable" after [let], the keyword itself after
    [struct] and [data]. It finds nothing exactly when the word is none of
    the three. *)
Theorem hover_describes_last_declaration
  (documents : JSMap.t jsstring) (documentInfos : JSMap.t DocumentInfo.t)
  (uri text shown : jsstring) (line : nat) (character : Z)
  (word : jsstring) :
  JSMap.get uri documents = Some shown ->
  word_at_cursor shown line character = Some (Some word) ->
  exists toks store diagnostics r,
    AsteroidLexer.tokenize text = Some toks
    /\ analyzeDocument documentInfos uri text = Some (store, diagnostics)
    /\ onHover documents store
         (TextDocumentPositionParams.mk uri line character) = Some r
    /\ (includes KEYWORDS word = true ->
        exists hover,
          r = Some hover
          /\ Hover.value hover
             = units "**" ++ word ++ units "** - Asteroid keyword")
    /\ (includes KEYWORDS word = false ->
        includes BUILTIN_FUNCTIONS word = true ->
        exists hover,
          r = Some hover
          /\ Hover.value hover
             = units "**" ++ word ++ units "()** - Built-in function")
    /\ (includes KEYWORDS word = false ->
        includes BUILTIN_FUNCTIONS word = false ->
        forall i kw nm,
          LookupSpec.last_declares toks i kw nm word ->
          exists hover,
            r = Some hover
            /\ Hover.value hover
               = units "**" ++ word ++ units "** - "
                   ++ LookupSpec.display_type kw)
    /\ (r = None <->
        includes KEYWORDS word = false
        /\ includes BUILTIN_FUNCTIONS word = false
        /\ forall i, ~ ParserSpec.declares toks i word).
Proof.
  intros G W.
  destruct (ProviderFacts.analyzeDocument_result documentInfos uri text)
    as [toks [E A]].
  destruct (LookupFacts.onHover_word documents
              (JSMap.set uri
                 (ParserSpec.extend toks AsteroidParser.empty_info)
                 documentInfos) uri shown line character word G W)
    as [range H].
  rewrite LookupFacts.analysed_lookup in H.
  do 4 eexists; split; [exact E|]; split; [exact A|]; split; [exact H|].
  destruct (includes KEYWORDS word) eqn:K.
  { split; [intros _; eexists; split; reflexivity|].
    split; [discriminate|]; split; [discriminate|].
    split; [discriminate | intros [C _]; discriminate]. }
  split; [discriminate|].
  destruct (includes BUILTIN_FUNCTIONS word) eqn:B.
  { split; [intros _ _; eexists; split; reflexivity|].
    split; [discriminate|].
    split; [discriminate | intros [_ [C _]]; discriminate]. }
  split; [discriminate|].
  destruct (ParserSpec.last_declared word (ParserSpec.declarations toks))
    as [s|] eqn:L.
  - split.
    + intros _ _ i kw nm [Ni [Nn [Kw [I [V Last]]]]].
      destruct (TableFacts.declared_total kw nm Kw I) as [s' D].
      assert (L' : ParserSpec.last_declared word
                     (ParserSpec.declarations toks) = Some s')
        by (rewrite <- V;
            apply (TableFacts.last_declared_at toks i kw nm s');
            try assumption; rewrite V; assumption).
      rewrite L in L'; inversion L'; subst s'.
      destruct (TableFacts.declared_Some _ _ _ D)
        as [nm' [En [_ [_ [Nm _]]]]].
      inversion En; subst nm'.
      eexists; split; [reflexivity|]; cbn [Hover.value].
      rewrite (LookupFacts.declared_display _ _ _ D), Nm, V; reflexivity.
    + split; [discriminate|].
      intros [_ [_ No]].
      apply (LookupFacts.last_declared_none_iff toks word) in No.
      rewrite L in No; discriminate.
  - split.
    + intros _ _ i kw nm [Ni [Nn [Kw [I [V _]]]]].
      exfalso.
      apply (proj1 (LookupFacts.last_declared_none_iff toks word) L i).
      exists kw, nm; auto.
    + split; [intros _|reflexivity].
      split; [reflexivity|]; split; [reflexivity|].
      apply (LookupFacts.last_declared_none_iff toks word); exact L.
Qed.

Lemma hover_describes_last_declaration_witness :
  let uri := units "a" in
  let text := units "data Shape" in
  JSMap.get uri [(uri, text)] = Some text
  /\ word_at_cursor text 0 7 = Some (Some (units "Shape"))
  /\ exists toks store diagnostics r,
       AsteroidLexer.tokenize text = Some toks
       /\ analyzeDocument [] uri text = Some (store, diagnostics)
       /\ onHover [(uri, text)] store
            (TextDocumentPositionParams.mk uri 0 7) = Some r
       /\ (forall i kw nm,
              LookupSpec.last_declares toks i kw nm (units "Shape") ->
              exists hover,
                r = Some hover
                /\ Hover.value hover
                   = units "**" ++ units "Shape" ++ units "** - "
                       ++ LookupSpec.display_type kw).
Proof.
  intros uri text.
  assert (G : JSMap.get uri [(uri, text)] = Some text)
    by (vm_compute; reflexivity).
  assert (W : word_at_cursor text 0 7 = Some (Some (units "Shape")))
    by (vm_compute; reflexivity).
  split; [exact G|]; split; [exact W|].
  destruct (hover_describes_last_declaration [(uri, text)] [] uri text text
              0 7 (units "Shape") G W)
    as [toks [store [diagnostics [r [E [A [H [_ [_ [D _]]]]]]]]]].
  exists toks, store, diagnostics, r.
  refine (conj E (conj A (conj H _))).
  apply D; vm_compute; reflexivity.
Defined.

(** ** The line of a position *)

Module LineFacts.
Import PositionSpec PositionFacts TokenTextFacts.

Lemma count_newlines_cons (c : char) (s : jsstring) :
  count_newlines (c :: s) =
  (if char_eqb c NEWLINE then 1 else 0) + count_newlines s.
Proof.
  unfold count_newlines; cbn [filter].
  replace (char_eqb NEWLINE c) with (char_eqb c NEWLINE)
    by apply N.eqb_sym.
  destruct (char_eqb c NEWLINE); reflexivity.
Qed.

Lemma count_newlines_app (a b : jsstring) :
  count_newlines (a ++ b) = count_newlines a + count_newlines b.
Proof. unfold count_newlines; rewrite filter_app, length_app; auto. Qed.

Lemma count_newlines_none (s : jsstring) :
  (forall c, In c s -> c <> NEWLINE) -> count_newlines s = 0.
Proof.
  induction s as [|c s IH]; intros H; [reflexivity|].
  rewrite count_newlines_cons, IH by (intros x Hx; apply H; right; auto).
  destruct (char_eqb c NEWLINE) eqn:E; [|reflexivity].
  apply char_eqb_eq in E; exfalso; apply (H c); [left|]; auto.
Qed.

(** [split] gives one line more than the text has newlines. *)
Lemma length_split_lines (s : jsstring) :
  forall current,
    length (split_lines s current) = S (count_newlines s).
Proof.
  induction s as [|c s IH]; intros current; [reflexivity|].
  cbn [split_lines]; rewrite count_newlines_cons.
  destruct (char_eqb c NEWLINE); cbn [length]; rewrite IH; reflexivity.
Qed.

(** The lines after a newline are the lines of the text after it. *)
Lemma split_lines_skip (a : jsstring) :
  forall current rest k,
    nth_error (split_lines (a ++ NEWLINE :: rest) current)
      (S (count_newlines a) + k)
    = nth_error (split_lines rest []) k.
Proof.
  induction a as [|c a IH]; intros current rest k.
  - reflexivity.
  - cbn [app split_lines]; rewrite count_newlines_cons.
    destruct (char_eqb c NEWLINE); [|apply IH].
    change (S (1 + count_newlines a) + k)
      with (S (S (count_newlines a) + k)).
    cbn [nth_error]; apply IH.
Qed.

(** The first line goes up to the first newline. *)
Lemma split_lines_first (b : jsstring) :
  forall current,
    exists post,
      nth_error (split_lines b current) 0 = Some (current ++ post)
      /\ (test_word (hd_error b) = false ->
          test_word (hd_error post) = false).
Proof.
  induction b as [|c b IH]; intros current.
  - exists []; rewrite app_nil_r; auto.
  - cbn [split_lines]; destruct (char_eqb c NEWLINE).
    + exists []; rewrite app_nil_r; auto.
    + destruct (IH (current ++ [c])) as [post [N _]].
      exists (c :: post); rewrite N, <- app_assoc; auto.
Qed.

Lemma split_lines_head (s : jsstring) :
  (forall c, In c s -> c <> NEWLINE) ->
  forall current b,
    exists post,
      nth_error (split_lines (s ++ b) current) 0
      = Some (current ++ s ++ post)
      /\ (test_word (hd_error b) = false ->
          test_word (hd_error post) = false).
Proof.
  induction s as [|c s IH]; intros H current b.
  - apply split_lines_first.
  - cbn [app split_lines].
    destruct (char_eqb c NEWLINE) eqn:E.
    { apply char_eqb_eq in E; exfalso; apply (H c); [left|]; auto. }
    destruct (IH (fun x Hx => H x (or_intror Hx)) (current ++ [c]) b)
      as [post [N T]].
    exists post; rewrite N, <- app_assoc; auto.
Qed.

Lemma nth_error_substr (txt : jsstring) (a k j : nat) :
  j < k -> nth_error (substr txt a k) j = nth_error txt (a + j).
Proof.
  intros H; unfold substr; rewrite nth_error_firstn.
  destruct (j <? k) eqn:E; [|apply Nat.ltb_ge in E; lia].
  apply nth_error_skipn.
Qed.

Lemma In_substr (txt : jsstring) (a k : nat) (c : char) :
  In c (substr txt a k) ->
  exists i, a <= i < a + k /\ nth_error txt i = Some c.
Proof.
  intros H; apply In_nth_error in H; destruct H as [j H].
  assert (Lt : j < k).
  { assert (L : j < length (substr txt a k))
      by (apply nth_error_Some; congruence).
    unfold substr in L; rewrite length_firstn in L; lia. }
  rewrite nth_error_substr in H by assumption.
  exists (a + j); split; [lia | assumption].
Qed.

Lemma skipn_substr (txt : jsstring) (a k : nat) :
  skipn a txt = substr txt a k ++ skipn (a + k) txt.
Proof.
  unfold substr; rewrite Nat.add_comm, <- skipn_skipn.
  symmetry; apply firstn_skipn.
Qed.

(** The line of a position holds the text at the position, after as many
    code units as the column says. *)
Lemma line_of_position (txt : jsstring) (p line column n : nat) :
  position_of txt p line column ->
  p + n <= length txt ->
  (forall i, p <= i < p + n -> nth_error txt i <> Some NEWLINE) ->
  exists pre post,
    nth_error (split_lines txt []) line
    = Some (pre ++ substr txt p n ++ post)
    /\ length pre = column
    /\ (0 < column -> nth_error pre (column - 1) = nth_error txt (p - 1))
    /\ (test_word (nth_error txt (p + n)) = false ->
        test_word (hd_error post) = false).
Proof.
  intros [L [C [R Sx]]] Le Free.
  set (pre := substr txt (p - column) column).
  set (w := substr txt p n).
  assert (Lp : length pre = column) by (apply length_substr; lia).
  assert (Sk : skipn (p - column) txt = pre ++ w ++ skipn (p + n) txt).
  { unfold pre, w; rewrite (skipn_substr txt (p - column) column).
    replace (p - column + column) with p by lia.
    rewrite (skipn_substr txt p n) at 1; reflexivity. }
  assert (Fp : forall c, In c (pre ++ w) -> c <> NEWLINE).
  { intros c H E; subst c; apply in_app_or in H; destruct H as [H|H];
      apply In_substr in H; destruct H as [i [Hi N]].
    - apply (R i); [lia | assumption].
    - apply (Free i); [lia | assumption]. }
  assert (Hd : hd_error (skipn (p + n) txt) = nth_error txt (p + n)).
  { rewrite <- (Nat.add_0_r (p + n)) at 2; rewrite <- nth_error_skipn.
    destruct (skipn (p + n) txt); reflexivity. }
  assert (Pv : 0 < column ->
               nth_error pre (column - 1) = nth_error txt (p - 1)).
  { intros Pos; unfold pre; rewrite nth_error_substr by lia.
    f_equal; lia. }
  assert (Fl : firstn p txt = firstn (p - column) txt ++ pre).
  { rewrite <- (firstn_skipn (p - column) (firstn p txt)).
    rewrite firstn_firstn, Nat.min_l by lia; f_equal.
    unfold pre, substr.
    rewrite skipn_firstn_comm; f_equal; lia. }
  destruct (split_lines_head (pre ++ w) Fp [] (skipn (p + n) txt))
    as [post [N T]].
  rewrite <- !app_assoc in N; cbn [app] in N.
  exists pre, post.
  refine (conj _ (conj Lp (conj Pv _)));
    [|intros H; apply T; rewrite Hd; assumption].
  destruct (Nat.eq_dec column p) as [Q|Q].
  - assert (Z : p - column = 0) by lia.
    rewrite Z in Sk, Fl; cbn [skipn firstn app] in Sk, Fl.
    rewrite L, Fl, count_newlines_none
      by (intros c H; apply Fp, in_or_app; left; assumption).
    rewrite Sk; exact N.
  - destruct Sx as [Sx|Sx]; [contradiction|].
    assert (E : p - column = Datatypes.S (p - column - 1)) by lia.
    assert (Tx : txt = firstn (p - column - 1) txt
                       ++ NEWLINE :: pre ++ w ++ skipn (p + n) txt).
    { rewrite <- Sk.
      rewrite <- (firstn_skipn (p - column - 1) txt) at 1; f_equal.
      rewrite E at 2.
      rewrite <- (Nat.add_1_r (p - column - 1)), Nat.add_comm,
        <- skipn_skipn.
      rewrite <- (Nat.add_0_r (p - column - 1)), <- nth_error_skipn in Sx.
      destruct (skipn (p - column - 1) txt) as [|c rest];
        [discriminate|].
      inversion Sx; reflexivity. }
    assert (Fa : firstn (p - column) txt
                 = firstn (p - column - 1) txt ++ [NEWLINE])
      by (rewrite E at 1; apply firstn_S_nth_error; assumption).
    rewrite L, Fl, Fa, !count_newlines_app.
    rewrite (count_newlines_none pre)
      by (intros c H; apply Fp, in_or_app; left; assumption).
    change (count_newlines [NEWLINE]) with 1.
    replace (count_newlines (firstn (p - column - 1) txt) + 1 + 0)
      with (Datatypes.S (count_newlines (firstn (p - column - 1) txt)) + 0)
      by lia.
    rewrite Tx at 1; rewrite split_lines_skip; exact N.
Qed.
End LineFacts.

(** ** The word at the cursor and the token *)

Module CursorFacts.
Import AsteroidLexer LexerSpec LexerFacts ReaderFacts TokenizeFacts.
Import PositionSpec PositionFacts TokenTextFacts LineFacts CursorSpec.

Lemma peek_nth_error (l : t) : peek l = nth_error (text l) (pos l).
Proof.
  unfold peek; destruct (pos l <? length (text l)) eqn:E; [reflexivity|].
  apply Nat.ltb_ge in E; symmetry; apply nth_error_None; assumption.
Qed.

Lemma char_at_nat (s : jsstring) (n : nat) :
  char_at s (Z.of_nat n) = nth_error s n.
Proof.
  unfold char_at; destruct (Z.of_nat n <? 0)%Z eqn:E;
    [apply Z.ltb_lt in E; lia|].
  rewrite Nat2Z.id; reflexivity.
Qed.

Lemma char_at_before (s : jsstring) : char_at s (-1) = None.
Proof. reflexivity. Qed.

(** An Identifier or Keyword token is a run of word code units, taken to
    its end. *)
Lemma nextToken_word (f : nat) (l r : t) (tok : Token.t) :
  pos l < length (text l) -> nextToken f l = Some (tok, r) ->
  Token.type tok = IDENTIFIER \/ Token.type tok = KEYWORD ->
  forallb is_word (Token.value tok) = true
  /\ pos r = pos l + length (Token.value tok)
  /\ peek_is r is_word = false.
Proof.
  intros Hlt; unfold nextToken.
  destruct (peek l) as [c|] eqn:P; [|apply peek_None in P; lia].
  destruct (char_eqb c DQUOTE || char_eqb c SQUOTE).
  { intros H; apply bind_Some in H; destruct H as [[[v b] l1] [R H]].
    inversion H; subst; cbn [Token.type]; intros [T|T]; discriminate. }
  destruct (is_digit c).
  { rewrite readNumber_class.
    intros H; apply bind_Some in H; destruct H as [[v l1] [R H]].
    inversion H; subst; cbn [Token.type]; intros [T|T]; discriminate. }
  destruct (is_ident_start c) eqn:I.
  { rewrite readIdentifier_class.
    intros H; apply bind_Some in H; destruct H as [[v l1] [R H]].
    apply (read_class_value is_word f l l1 v Hlt) in R;
      [|unfold peek_is; rewrite P; apply is_ident_start_word; assumption].
    cbv zeta in H; destruct (includes KEYWORDS v); inversion H; subst;
      cbn [Token.type Token.value]; tauto. }
  destruct (char_eqb c AT_SIGN).
  { intros H; inversion H; subst; cbn [Token.type];
      intros [T|T]; discriminate. }
  destruct (match_operator operators l);
    intros H; inversion H; subst; cbn [Token.type];
    intros [T|T]; discriminate.
Qed.

Lemma word_token_pushed (txt : jsstring) (f : nat) (l r : t)
  (tok : Token.t) :
  located l /\ text l = txt ->
  iteration f l = Some (r, Some tok) ->
  Token.type tok = IDENTIFIER \/ Token.type tok = KEYWORD ->
  exists p, word_token_at txt tok p.
Proof.
  intros Hl It Ty.
  assert (Adv : forall l0 : t,
             located l0 /\ text l0 = txt ->
             located (advance l0) /\ text (advance l0) = txt).
  { intros l0 [L T]; split; [apply located_advance; assumption|].
    rewrite advance_text; assumption. }
  apply KeepFacts.iteration_pushes in It.
  destruct It as [l1 [l2 [W [C [Lt N]]]]].
  pose proof (KeepFacts.skipWhitespace_keeps _ Adv _ _ _ Hl W) as H1.
  pose proof (KeepFacts.skipComment_keeps _ Adv _ _ _ H1 C) as H2.
  pose proof (KeepFacts.nextToken_keeps _ Adv _ _ _ _ H2 N) as [_ Tr].
  destruct H2 as [L2 T2].
  destruct (nextToken_content _ _ _ _ Lt N) as [Ln [Cl Ct]].
  destruct (nextToken_word _ _ _ _ Lt N Ty) as [Fw [Pr Pk]].
  exists (pos l2); unfold word_token_at, token_at.
  rewrite Ln, Cl, <- T2.
  refine (conj (conj Lt (conj L2 Ct)) (conj Fw _)).
  rewrite <- Pr; unfold peek_is in Pk.
  rewrite peek_nth_error, Tr, <- T2 in Pk; exact Pk.
Qed.

Lemma word_not_newline (v : jsstring) (c : char) :
  forallb is_word v = true -> In c v -> c <> NEWLINE.
Proof.
  intros F H E; subst c.
  rewrite forallb_forall in F; apply F in H; discriminate.
Qed.

(** The cursor inside a token that stands as a word, and not right after
    a word code unit, is on the token's text. *)
Lemma word_token_resolved (txt : jsstring) (tok : Token.t) (p k : nat) :
  Token.type tok <> STRING ->
  word_token_at txt tok p ->
  test_word (char_at txt (Z.of_nat p - 1)) = false ->
  k < length (Token.value tok) ->
  word_at_cursor txt (Token.line tok) (Z.of_nat (Token.column tok + k))
  = Some (Some (Token.value tok)).
Proof.
  intros Ns [[Lt [Po Ct]] [Fw Af]] Bf Hk.
  assert (Cv : Token.value tok <> []
               /\ substr txt p (length (Token.value tok)) = Token.value tok)
    by (destruct (Token.type tok); tauto || contradiction).
  destruct Cv as [_ Sv].
  set (v := Token.value tok) in *.
  assert (Le : p + length v <= length txt).
  { assert (L : length (substr txt p (length v)) = length v)
      by (rewrite Sv; reflexivity).
    unfold substr in L; rewrite length_firstn, length_skipn in L; lia. }
  assert (Free : forall i, p <= i < p + length v ->
                           nth_error txt i <> Some NEWLINE).
  { intros i Hi E.
    replace i with (p + (i - p)) in E by lia.
    rewrite <- (nth_error_substr txt p (length v)), Sv in E by lia.
    apply nth_error_In in E; revert E; fold (~ In NEWLINE v).
    intros E; exact (word_not_newline v NEWLINE Fw E eq_refl). }
  destruct (line_of_position txt p (Token.line tok) (Token.column tok)
              (length v) Po Le Free) as [pre [post [N [Lp [Pv Pa]]]]].
  rewrite Sv in N.
  assert (Ll : Token.line tok < length (split_lines txt []))
    by (apply nth_error_Some; rewrite N; discriminate).
  destruct (WordFacts.word_resolved_whole pre v post
              (Z.of_nat (Token.column tok + k))) as [G Sb].
  - exact Fw.
  - destruct (Token.column tok) as [|c] eqn:Col.
    + apply length_zero_iff_nil in Lp; subst pre; reflexivity.
    + replace (len pre - 1)%Z with (Z.of_nat c) by (unfold len; lia).
      rewrite char_at_nat, nth_error_app1 by lia.
      replace c with (S c - 1) by lia.
      rewrite Pv by lia.
      destruct Po as [_ [Cp _]].
      replace (Z.of_nat p - 1)%Z with (Z.of_nat (p - 1)) in Bf by lia.
      rewrite char_at_nat in Bf; exact Bf.
  - replace (len pre + len v)%Z with (Z.of_nat (length pre + length v))
      by (unfold len; lia).
    rewrite char_at_nat, app_assoc, nth_error_app2
      by (rewrite length_app; lia).
    rewrite length_app, Nat.sub_diag.
    replace (nth_error post 0) with (hd_error post)
      by (destruct post; reflexivity).
    apply Pa; exact Af.
  - unfold len; lia.
  - unfold word_at_cursor; cbv zeta.
    destruct (length (split_lines txt []) <=? Token.line tok) eqn:Q;
      [apply Nat.leb_le in Q; lia|].
    rewrite N, G; cbn [bind WordRange.start WordRange.end_].
    rewrite Sb; reflexivity.
Qed.
End CursorFacts.

(** X22. Every Identifier and Keyword token of [tokenize] is a run of word
    code units that ends where the text or the run ends. When the code
    unit before the token is no word code unit, a cursor on the token's
    line and on any of the token's columns has the token's text as its
    word, so hover and go-to-definition look the token up. *)
Theorem cursor_word_is_the_token (txt : jsstring) :
  exists toks,
    AsteroidLexer.tokenize txt = Some toks
    /\ Forall
         (fun tok =>
            Token.type tok = IDENTIFIER \/ Token.type tok = KEYWORD ->
            exists p,
              CursorSpec.word_token_at txt tok p
              /\ (test_word (char_at txt (Z.of_nat p - 1)) = false ->
                  forall k,
                    k < length (Token.value tok) ->
                    word_at_cursor txt (Token.line tok)
                      (Z.of_nat (Token.column tok + k))
                    = Some (Some (Token.value tok))))
         toks.
Proof.
  destruct (TokenizeFacts.tokenize_total txt) as [toks E].
  exists toks; split; [assumption|].
  apply (KeepFacts.tokenize_loop_Forall
           (fun l => PositionSpec.located l /\ AsteroidLexer.text l = txt))
    with (f := S (length txt)) (n := S (length txt))
         (l := AsteroidLexer.new txt) (tokens := []);
    [ | | split; [apply PositionFacts.located_new | reflexivity]
      | constructor | exact E ].
  - intros l [L T]; split;
      [apply PositionFacts.located_advance; assumption|].
    rewrite LexerFacts.advance_text; assumption.
  - intros l r tok Hl It Ty.
    destruct (CursorFacts.word_token_pushed txt _ l r tok Hl It Ty)
      as [p Wt].
    exists p; split; [exact Wt|].
    intros Bf k Hk.
    apply (CursorFacts.word_token_resolved txt tok p k); try assumption.
    destruct Ty as [Ty|Ty]; rewrite Ty; discriminate.
Qed.

(** After the digits of a Number token the Identifier is not the word at
    the cursor: in [12abc] the tokens are [12] and [abc], and the word at
    any of the columns is [12abc]. *)
Example cursor_word_after_digits :
  AsteroidLexer.tokenize (units "12abc")
  = Some [Token.mk NUMBER (units "12") 0 0 None;
          Token.mk IDENTIFIER (units "abc") 0 2 None]
  /\ word_at_cursor (units "12abc") 0 3 = Some (Some (units "12abc")).
Proof. split; vm_compute; reflexivity. Qed.

(** ** Hover and the word at the cursor *)

Module HoverFacts.
Import PositionSpec PositionFacts TokenTextFacts LineFacts CursorSpec.
Import CursorFacts.

(** Hover looks up the substring of the cursor's line in the range that
    word resolution returns, and answers over that range. *)
Lemma onHover_at (documents : JSMap.t jsstring)
  (documentInfos : JSMap.t DocumentInfo.t) (uri text line : jsstring)
  (n : nat) (character start end_ : Z) :
  JSMap.get uri documents = Some text ->
  nth_error (split_lines text []) n = Some line ->
  getWordRangeAtPosition line character
  = Some (Some (WordRange.mk start end_)) ->
  onHover documents documentInfos
    (TextDocumentPositionParams.mk uri n character)
  = Some (HoverSpec.describe documentInfos uri
            (substring line (Z.to_nat start) (Z.to_nat end_))
            n (Z.to_nat start) (Z.to_nat end_)).
Proof.
  intros G N W; unfold onHover, HoverSpec.describe.
  cbn [TextDocumentPositionParams.uri TextDocumentPositionParams.line
       TextDocumentPositionParams.character].
  rewrite G; cbv zeta.
  assert (Lt : n < length (split_lines text []))
    by (apply nth_error_Some; rewrite N; discriminate).
  destruct (length (split_lines text []) <=? n) eqn:Q;
    [apply Nat.leb_le in Q; lia|].
  rewrite N, W; cbn [bind WordRange.start WordRange.end_].
  destruct (includes KEYWORDS _); [reflexivity|].
  destruct (includes BUILTIN_FUNCTIONS _); [reflexivity|].
  destruct (JSMap.get uri documentInfos) as [docInfo|]; [|reflexivity].
  destruct (JSMap.get _ (DocumentInfo.symbols docInfo)); reflexivity.
Qed.

(** The Identifier and Keyword tokens of a text stand in it as words. *)
Lemma word_tokens (txt : jsstring) (toks : list Token.t) :
  AsteroidLexer.tokenize txt = Some toks ->
  Forall (fun tok =>
            Token.type tok = IDENTIFIER \/ Token.type tok = KEYWORD ->
            exists p, word_token_at txt tok p) toks.
Proof.
  intros E.
  apply (KeepFacts.tokenize_loop_Forall
           (fun l => located l /\ AsteroidLexer.text l = txt))
    with (f := S (length txt)) (n := S (length txt))
         (l := AsteroidLexer.new txt) (tokens := []);
    [ | | split; [apply located_new | reflexivity]
      | constructor | exact E ].
  - intros l [L T]; split; [apply located_advance; assumption|].
    rewrite LexerFacts.advance_text; assumption.
  - intros l r tok Hl It Ty.
    exact (word_token_pushed txt _ l r tok Hl It Ty).
Qed.

Lemma substring_middle (pre v post : jsstring) :
  substring (pre ++ v ++ post) (length pre) (length pre + length v) = v.
Proof.
  unfold substring.
  replace (length pre + length v - length pre) with (length v) by lia.
  rewrite skipn_app, skipn_all, Nat.sub_diag; cbn [skipn app].
  rewrite firstn_app, firstn_all, Nat.sub_diag; cbn [firstn].
  apply app_nil_r.
Qed.

(** The range that word resolution returns inside a token that stands as
    a word: it ends where the token ends, and starts where the token
    starts or before, as the code unit before the token says. *)
Lemma word_token_range (txt : jsstring) (tok : Token.t) (p k : nat) :
  Token.type tok <> STRING ->
  word_token_at txt tok p ->
  k < length (Token.value tok) ->
  exists line start,
    nth_error (split_lines txt []) (Token.line tok) = Some line
    /\ substring line (Token.column tok)
         (Token.column tok + length (Token.value tok)) = Token.value tok
    /\ getWordRangeAtPosition line (Z.of_nat (Token.column tok + k))
       = Some (Some (WordRange.mk (Z.of_nat start)
                       (Z.of_nat (Token.column tok
                                  + length (Token.value tok)))))
    /\ start <= Token.column tok
    /\ (start = Token.column tok
        <-> test_word (char_at line (Z.of_nat (Token.column tok) - 1))
            = false).
Proof.
  intros Ns [[Lt [Po Ct]] [Fw Af]] Hk.
  assert (Cv : Token.value tok <> []
               /\ substr txt p (length (Token.value tok)) = Token.value tok)
    by (destruct (Token.type tok); tauto || contradiction).
  destruct Cv as [_ Sv].
  set (v := Token.value tok) in *.
  assert (Le : p + length v <= length txt).
  { assert (L : length (substr txt p (length v)) = length v)
      by (rewrite Sv; reflexivity).
    unfold substr in L; rewrite length_firstn, length_skipn in L; lia. }
  assert (Free : forall i, p <= i < p + length v ->
                           nth_error txt i <> Some NEWLINE).
  { intros i Hi E.
    replace i with (p + (i - p)) in E by lia.
    rewrite <- (nth_error_substr txt p (length v)), Sv in E by lia.
    apply nth_error_In in E.
    exact (word_not_newline v NEWLINE Fw E eq_refl). }
  destruct (line_of_position txt p (Token.line tok) (Token.column tok)
              (length v) Po Le Free) as [pre [post [N [Lp [_ Pa]]]]].
  rewrite Sv in N.
  pose proof (WordFacts.char_at_middle pre v post) as Mid.
  assert (Hr : test_word (char_at (pre ++ v ++ post) (len pre + len v))
               = false).
  { replace (len pre + len v)%Z with (Z.of_nat (length pre + length v))
      by (unfold len; lia).
    rewrite char_at_nat, app_assoc, nth_error_app2
      by (rewrite length_app; lia).
    rewrite length_app, Nat.sub_diag.
    replace (nth_error post 0) with (hd_error post)
      by (destruct post; reflexivity).
    apply Pa; exact Af. }
  assert (Hc : (len pre <= Z.of_nat (Token.column tok + k)
                < len pre + len v)%Z) by (unfold len; lia).
  destruct (WordFacts.getWordRangeAtPosition_fuel_word
              (S (length (pre ++ v ++ post))) (pre ++ v ++ post)
              (Z.of_nat (Token.column tok + k)) (Mid _ Fw Hc)
              (Nat.lt_succ_diag_r _))
    as [start [end_ [G [Bs [Be [A [Ms Me]]]]]]].
  assert (Ee : end_ = (len pre + len v)%Z).
  { destruct (Z_lt_ge_dec (len pre + len v) end_) as [Lt'|Ge].
    - rewrite A in Hr by lia; discriminate.
    - destruct (Z.eq_dec end_ (len pre + len v)); [assumption|].
      destruct Me as [Me|Me].
      + unfold len in *; rewrite !length_app in Me; lia.
      + rewrite Mid in Me by (assumption || lia); discriminate. }
  assert (Ls : (start <= len pre)%Z).
  { destruct (Z_le_gt_dec start (len pre)) as [|Gt]; [assumption|].
    destruct Ms as [Ms|Ms]; [pose proof (WordFacts.len_nonneg pre); lia|].
    rewrite Mid in Ms by (assumption || lia); discriminate. }
  exists (pre ++ v ++ post), (Z.to_nat start).
  split; [exact N|]; split.
  { rewrite <- Lp; apply substring_middle. }
  split.
  { rewrite Z2Nat.id by lia.
    replace (Z.of_nat (Token.column tok + length v))
      with (len pre + len v)%Z by (unfold len; lia).
    rewrite <- Ee; exact G. }
  split; [unfold len in Ls; lia|].
  replace (Z.of_nat (Token.column tok)) with (len pre)
    by (unfold len; lia).
  split.
  - intros Es.
    assert (Es' : start = len pre) by (unfold len; lia).
    destruct Ms as [Ms|Ms]; [|rewrite <- Es'; exact Ms].
    rewrite <- Es', Ms; reflexivity.
  - intros Bf.
    destruct (Z.eq_dec start (len pre)) as [Es|Ne];
      [unfold len in Es; lia|].
    rewrite A in Bf by lia; discriminate.
Qed.
End HoverFacts.

(** C7. At an offset whose code unit is in [[A-Za-z0-9_]], word resolution
    returns the maximal run of such code units around the offset: the
    range contains the offset, holds only code units of the class, and is
    bounded on each side by the end of the line or by a code unit outside
    the class; the fuel [S (length line)] is enough, and more fuel gives
    the same range. Hover at that offset of a line of a document looks up
    exactly that run and answers over its range.
    Hence hover at any offset inside an Identifier token looks up a word
    that ends with the token and starts at the token or before it, never a
    proper substring of it; the word is the token itself exactly when the
    code unit before the token on its line is outside the class. *)
Theorem hover_resolves_the_maximal_run :
  (forall (line : jsstring) (character : Z),
      test_word (char_at line character) = true ->
      exists start end_,
        getWordRangeAtPosition line character
        = Some (Some (WordRange.mk start end_))
        /\ (0 <= start <= character)%Z /\ (character < end_ <= len line)%Z
        /\ (forall i, (start <= i < end_)%Z ->
                      test_word (char_at line i) = true)
        /\ (start = 0%Z \/ test_word (char_at line (start - 1)) = false)
        /\ (end_ = len line \/ test_word (char_at line end_) = false)
        /\ (forall f, length line < f ->
                      getWordRangeAtPosition_fuel f line character
                      = Some (Some (WordRange.mk start end_)))
        /\ (forall documents documentInfos uri text n,
               JSMap.get uri documents = Some text ->
               nth_error (split_lines text []) n = Some line ->
               onHover documents documentInfos
                 (TextDocumentPositionParams.mk uri n character)
               = Some (HoverSpec.describe documentInfos uri
                         (substring line (Z.to_nat start) (Z.to_nat end_))
                         n (Z.to_nat start) (Z.to_nat end_))))
  /\ (forall txt : jsstring,
         exists toks,
           AsteroidLexer.tokenize txt = Some toks
           /\ Forall
                (fun tok =>
                   Token.type tok = IDENTIFIER ->
                   forall k,
                     k < length (Token.value tok) ->
                     let column := Token.column tok in
                     let end_ := column + length (Token.value tok) in
                     exists line start,
                       nth_error (split_lines txt []) (Token.line tok)
                       = Some line
                       /\ substring line column end_ = Token.value tok
                       /\ start <= column
                       /\ (start = column
                           <-> test_word
                                 (char_at line (Z.of_nat column - 1))
                               = false)
                       /\ (forall documents documentInfos uri,
                              JSMap.get uri documents = Some txt ->
                              onHover documents documentInfos
                                (TextDocumentPositionParams.mk uri
                                   (Token.line tok) (Z.of_nat (column + k)))
                              = Some (HoverSpec.describe documentInfos uri
                                        (substring line start end_)
                                        (Token.line tok) start end_)))
                toks).
Proof.
  split.
  - intros line character Hw.
    destruct (WordFacts.getWordRangeAtPosition_fuel_word (S (length line))
                line character Hw (Nat.lt_succ_diag_r _))
      as [start [end_ [G [Bs [Be [A [Ms Me]]]]]]].
    exists start, end_.
    refine (conj G (conj Bs (conj Be (conj A (conj Ms (conj Me _)))))).
    split.
    + intros f Hf.
      apply (WordFacts.getWordRangeAtPosition_fuel_mono (S (length line)));
        [exact G | lia].
    + intros documents documentInfos uri text n Gd N.
      exact (HoverFacts.onHover_at documents documentInfos uri text line n
               character start end_ Gd N G).
  - intros txt.
    destruct (TokenizeFacts.tokenize_total txt) as [toks E].
    exists toks; split; [exact E|].
    pose proof (HoverFacts.word_tokens txt toks E) as W.
    revert W; apply Forall_impl.
    intros tok Wt Ty k Hk; cbv zeta.
    destruct (Wt (or_introl Ty)) as [p Wp].
    destruct (HoverFacts.word_token_range txt tok p k) as
      [line [start [N [Sb [G [Ls Iff]]]]]];
      [rewrite Ty; discriminate | exact Wp | exact Hk |].
    exists line, start.
    refine (conj N (conj Sb (conj Ls (conj Iff _)))).
    intros documents documentInfos uri Gd.
    rewrite (HoverFacts.onHover_at documents documentInfos uri txt line
               (Token.line tok) _ _ _ Gd N G).
    rewrite !Nat2Z.id; reflexivity.
Qed.

Lemma hover_resolves_the_maximal_run_witness :
  let uri := units "a" in
  let text := units "x = 1" ++ [NEWLINE] ++ units "let factorial123 = 5" in
  let line := units "let factorial123 = 5" in
  test_word (char_at line 7) = true
  /\ JSMap.get uri [(uri, text)] = Some text
  /\ nth_error (split_lines text []) 1 = Some line
  /\ exists start end_,
       getWordRangeAtPosition line 7
       = Some (Some (WordRange.mk start end_))
       /\ (0 <= start <= 7)%Z /\ (7 < end_ <= 20)%Z
       /\ onHover [(uri, text)] [] (TextDocumentPositionParams.mk uri 1 7)
          = Some (HoverSpec.describe [] uri
                    (substring line (Z.to_nat start) (Z.to_nat end_))
                    1 (Z.to_nat start) (Z.to_nat end_)).
Proof.
  intros uri text line.
  assert (Hw : test_word (char_at line 7) = true) by reflexivity.
  assert (Gd : JSMap.get uri [(uri, text)] = Some text)
    by (vm_compute; reflexivity).
  assert (N : nth_error (split_lines text []) 1 = Some line)
    by (vm_compute; reflexivity).
  split; [exact Hw|]; split; [exact Gd|]; split; [exact N|].
  destruct (proj1 hover_resolves_the_maximal_run line 7%Z Hw)
    as [start [end_ [G [Bs [Be [_ [_ [_ [_ H]]]]]]]]].
  exists start, end_.
  refine (conj G (conj Bs (conj Be _))).
  exact (H [(uri, text)] [] uri text 1 Gd N).
Defined.

(** C7 as first stated fails after digits. The last token of
    [let abc = 1 12abc] is the Identifier [abc], at line 0 and columns 14
    to 16, and the text declares [abc]; hover at column 4 describes [abc],
    but hover at column 15, inside the last token, looks up [12abc], not
    the identifier, and finds nothing. *)
Lemma hover_inside_identifier_after_digits :
  let uri := units "a" in
  let text := units "let abc = 1 12abc" in
  let hover (character : Z) :=
    option_map
      (fun r => onHover [(uri, text)] (fst r)
                  (TextDocumentPositionParams.mk uri 0 character))
      (analyzeDocument [] uri text) in
  option_map (fun toks => nth_error toks 5) (AsteroidLexer.tokenize text)
  = Some (Some (Token.mk IDENTIFIER (units "abc") 0 14 None))
  /\ hover 4%Z
     = Some (Some (Some (Hover.mk (units "**abc** - variable")
                           (Range.mk (Position.mk 0 4) (Position.mk 0 7)))))
  /\ word_at_cursor text 0 15 = Some (Some (units "12abc"))
  /\ hover 15%Z = Some (Some None).
Proof.
  intros uri text hover.
  split; [vm_compute; reflexivity|].
  split; [vm_compute; reflexivity|].
  split; vm_compute; reflexivity.
Qed.
